(** * SansScript language server: parser, analyzer and semantic tokens

    A shallow embedding of [sanslsp/parser.py], [sanslsp/analyzer.py] and
    [sanslsp/semantic_tokens.py] (with the vocabularies of [symbols.py]),
    followed by the properties of the document analysis pipeline.

    Python values are modelled as follows.
    - A [str] is the list of its Unicode code points (Python indexes, slices
      and measures strings by code point), each code point an [N].
    - An [int] stored in a record is a [Z]; loop indices that only ever count
      upwards from 0 are [nat] and are injected with [Z.of_nat] when stored.
    - A [dict] is a [gmap]; a [set] used for membership is a [gset].
    - [FuncDef] objects are mutated through an alias ([current_func]) after
      they have been stored in the function table, so the pass keeps an
      explicit object store and the table holds references into it.
    - An [IndexError] is the [None] of an [option]. *)

From Stdlib Require Import ZArith NArith Ascii String List Lia.
From stdpp Require Import base option list gmap sorting.

Open Scope N_scope.

(** ** Strings *)

Abbreviation char := N (only parsing).
Abbreviation str := (list N) (only parsing).

Definition ord (a : ascii) : char := N_of_ascii a.

(** Source literals are written as UTF-8 text and decoded to code points. *)
Fixpoint utf8_decode (bs : list N) : str :=
  match bs with
  | [] => []
  | b0 :: r0 =>
    if b0 <? 0x80 then b0 :: utf8_decode r0
    else match r0 with
    | [] => []
    | b1 :: r1 =>
      if b0 <? 0xE0 then ((b0 - 0xC0) * 0x40 + (b1 - 0x80)) :: utf8_decode r1
      else match r1 with
      | [] => []
      | b2 :: r2 =>
        if b0 <? 0xF0
        then ((b0 - 0xE0) * 0x1000 + (b1 - 0x80) * 0x40 + (b2 - 0x80))
               :: utf8_decode r2
        else match r2 with
        | [] => []
        | b3 :: r3 =>
          ((b0 - 0xF0) * 0x40000 + (b1 - 0x80) * 0x1000
             + (b2 - 0x80) * 0x40 + (b3 - 0x80)) :: utf8_decode r3
        end
      end
    end
  end.

Definition u (s : string) : str :=
  utf8_decode (map N_of_ascii (list_ascii_of_string s)).

(** [text[a:b]] for [0 <= a], [0 <= b]. *)
Definition slice (text : str) (a b : nat) : str := take (b - a) (drop a text).

Definition ch_hash : char := ord "#".
Definition ch_space : char := ord " ".
Definition ch_tab : char := 9.
Definition ch_newline : char := 10.
Definition ch_quote : char := 34.
Definition ch_lparen : char := ord "(".
Definition ch_rparen : char := ord ")".
Definition ch_lbracket : char := ord "[".
Definition ch_rbracket : char := ord "]".
Definition ch_comma : char := ord ",".
Definition ch_colon : char := ord ":".
Definition ch_equals : char := ord "=".

(** ** symbols.py *)

Definition kw_if : str := Eval vm_compute in u "यदि".
Definition kw_elif : str := Eval vm_compute in u "अथवा_यदि".
Definition kw_else : str := Eval vm_compute in u "अन्यथा".
Definition kw_while : str := Eval vm_compute in u "यावत्".
Definition kw_function : str := Eval vm_compute in u "कार्यम्".
Definition kw_return : str := Eval vm_compute in u "प्रतिददाति".
Definition kw_break : str := Eval vm_compute in u "विरम".
Definition kw_continue : str := Eval vm_compute in u "अनुवर्तय".

Definition KEYWORDS : list str :=
  [kw_if; kw_elif; kw_else; kw_while; kw_function; kw_return; kw_break;
   kw_continue].
Definition KEYWORD_NAMES : gset str := list_to_set KEYWORDS.

Definition CONSTANTS : list str :=
  Eval vm_compute in [u "सत्यम्"; u "असत्यम्"].
Definition CONSTANT_NAMES : gset str := list_to_set CONSTANTS.

Definition LOGICAL_OPS : list str :=
  Eval vm_compute in [u "च"; u "वा"; u "न"].
Definition LOGICAL_OP_NAMES : gset str := list_to_set LOGICAL_OPS.

Definition BUILTINS : list str :=
  Eval vm_compute in
  [u "मुद्रय"; u "निर्गम"; u "दीर्घता"; u "योजय"; u "उपपाठ"; u "अन्वेषय";
   u "वर्णाङ्क"; u "अंकवर्ण"; u "पाठ्य"; u "पूर्णाङ्क"; u "पूर्णाङ्क_पाठ_से";
   u "विभज"; u "सञ्चिका_पठ"].
Definition BUILTIN_NAMES : gset str := list_to_set BUILTINS.

(** ** parser.py: data model *)

Inductive TokenType :=
  | KEYWORD | BUILTIN | CONSTANT | LOGICAL_OP | IDENTIFIER | NUMBER | STRING
  | OPERATOR | PAREN_OPEN | PAREN_CLOSE | BRACKET_OPEN | BRACKET_CLOSE
  | COMMA | COLON | COMMENT | WHITESPACE | UNKNOWN.

#[global] Instance TokenType_eq_dec : EqDecision TokenType.
Proof. solve_decision. Defined.

Record Token := mkToken {
  tok_type : TokenType;
  tok_value : str;
  tok_line : Z;
  tok_col : Z;
  tok_end_col : Z
}.

Record ParamInfo := mkParamInfo {
  param_name : str;
  param_line : Z;
  param_col : Z
}.

Record FuncDef := mkFuncDef {
  fd_name : str;
  fd_line : Z;
  fd_col : Z;
  fd_end_line : Z;
  fd_params : list ParamInfo;
  fd_body_indent : Z
}.

Record VarDef := mkVarDef {
  vd_name : str;
  vd_line : Z;
  vd_col : Z;
  vd_scope : str
}.

(** ** parser.py: tokenizer *)

Definition in_range (lo hi ch : char) : bool := (lo <=? ch) && (ch <=? hi).

(** [[ऀ-ॿ_a-zA-Z]] *)
Definition _IDENT_START (ch : char) : bool :=
  in_range 0x0900 0x097F ch || (ch =? ord "_")
  || in_range (ord "a") (ord "z") ch || in_range (ord "A") (ord "Z") ch.

(** [[ऀ-ॿ_a-zA-Z0-9०-९]] *)
Definition _IDENT_PART (ch : char) : bool :=
  in_range 0x0900 0x097F ch || (ch =? ord "_")
  || in_range (ord "a") (ord "z") ch || in_range (ord "A") (ord "Z") ch
  || in_range (ord "0") (ord "9") ch || in_range 0x0966 0x096F ch.

(** [[0-9०-९]] *)
Definition _DIGIT_START (ch : char) : bool :=
  in_range (ord "0") (ord "9") ch || in_range 0x0966 0x096F ch.
Definition _DIGIT_PART (ch : char) : bool :=
  in_range (ord "0") (ord "9") ch || in_range 0x0966 0x096F ch.

Definition _OPERATORS_DOUBLE : gset str :=
  list_to_set [u "=="; u "!="; u "<="; u ">="].
Definition _OPERATORS_SINGLE : gset char :=
  list_to_set [ord "+"; ord "-"; ord "*"; ord "/"; ord "%"; ord "=";
               ord "<"; ord ">"].

Definition _is_ident_start (ch : char) : bool := _IDENT_START ch.
Definition _is_ident_part (ch : char) : bool := _IDENT_PART ch.

Definition is_blank (ch : char) : bool := (ch =? ch_space) || (ch =? ch_tab).
Definition not_quote (ch : char) : bool := negb (ch =? ch_quote).

(** [while i < length and p(text[i]): i += 1], run on [rest = text[i:]];
    returns the final [i]. *)
Fixpoint advance_while (p : char → bool) (rest : str) (i : nat) : nat :=
  match rest with
  | ch :: rest' => if p ch then advance_while p rest' (S i) else i
  | [] => i
  end.

Definition classify_word (word : str) : TokenType :=
  if bool_decide (word ∈ KEYWORD_NAMES) then KEYWORD
  else if bool_decide (word ∈ BUILTIN_NAMES) then BUILTIN
  else if bool_decide (word ∈ CONSTANT_NAMES) then CONSTANT
  else if bool_decide (word ∈ LOGICAL_OP_NAMES) then LOGICAL_OP
  else IDENTIFIER.

Definition punctuation (ch : char) : TokenType :=
  if ch =? ch_lparen then PAREN_OPEN
  else if ch =? ch_rparen then PAREN_CLOSE
  else if ch =? ch_lbracket then BRACKET_OPEN
  else if ch =? ch_rbracket then BRACKET_CLOSE
  else if ch =? ch_comma then COMMA
  else if ch =? ch_colon then COLON
  else UNKNOWN.

(** The [while i < length] loop of [tokenize_line]; every iteration either
    breaks or advances [i], so [length text - i] iterations suffice. *)
Fixpoint tokenize_loop (fuel : nat) (text : str) (line_no : Z) (i : nat)
    (tokens : list Token) : list Token :=
  match fuel with
  | O => tokens
  | S fuel =>
    match text !! i with
    | None => tokens
    | Some ch =>
      let length := length text in
      if ch =? ch_hash then
        tokens ++ [mkToken COMMENT (drop i text) line_no
                     (Z.of_nat i) (Z.of_nat length)]
      else if is_blank ch then
        let start := i in
        let i := advance_while is_blank (drop i text) i in
        tokenize_loop fuel text line_no i
          (tokens ++ [mkToken WHITESPACE (slice text start i) line_no
                        (Z.of_nat start) (Z.of_nat i)])
      else if ch =? ch_quote then
        let start := i in
        let i := S i in
        let i := advance_while not_quote (drop i text) i in
        let i := if (i <? length)%nat then S i else i in
        tokenize_loop fuel text line_no i
          (tokens ++ [mkToken STRING (slice text start i) line_no
                        (Z.of_nat start) (Z.of_nat i)])
      else if _DIGIT_START ch then
        let start := i in
        let i := advance_while _DIGIT_PART (drop i text) i in
        tokenize_loop fuel text line_no i
          (tokens ++ [mkToken NUMBER (slice text start i) line_no
                        (Z.of_nat start) (Z.of_nat i)])
      else if _is_ident_start ch then
        let start := i in
        let i := S i in
        let i := advance_while _is_ident_part (drop i text) i in
        let word := slice text start i in
        let tt := classify_word word in
        tokenize_loop fuel text line_no i
          (tokens ++ [mkToken tt word line_no (Z.of_nat start) (Z.of_nat i)])
      else if (i + 1 <? length)%nat
              && bool_decide (slice text i (i + 2) ∈ _OPERATORS_DOUBLE) then
        tokenize_loop fuel text line_no (i + 2)
          (tokens ++ [mkToken OPERATOR (slice text i (i + 2)) line_no
                        (Z.of_nat i) (Z.of_nat (i + 2))])
      else if bool_decide (ch ∈ _OPERATORS_SINGLE) then
        tokenize_loop fuel text line_no (i + 1)
          (tokens ++ [mkToken OPERATOR [ch] line_no
                        (Z.of_nat i) (Z.of_nat (i + 1))])
      else
        tokenize_loop fuel text line_no (i + 1)
          (tokens ++ [mkToken (punctuation ch) [ch] line_no
                        (Z.of_nat i) (Z.of_nat (i + 1))])
    end
  end.

Definition tokenize_line (text : str) (line_no : Z) : list Token :=
  tokenize_loop (length text) text line_no 0 [].

(** ** parser.py: document parser *)

Record ParsedDocument := mkParsedDocument {
  tokens : list (list Token);
  functions : gmap str FuncDef;
  variables : gmap str VarDef;
  line_indents : list Z;
  lines : list str
}.

(** The [for ch in line] loop of [measure_indent], with its accumulator. *)
Fixpoint measure_indent_loop (line : str) (indent : Z) : Z :=
  match line with
  | ch :: line' =>
    if ch =? ch_space then measure_indent_loop line' (indent + 1)
    else if ch =? ch_tab then measure_indent_loop line' (indent + 4)
    else indent
  | [] => indent
  end.

Definition measure_indent (line : str) : Z := measure_indent_loop line 0.

Definition is_significant (t : Token) : bool :=
  negb (bool_decide (tok_type t = WHITESPACE)
        || bool_decide (tok_type t = COMMENT)).

Definition _significant_tokens (toks : list Token) : list Token :=
  List.filter is_significant toks.

(** [for idx, t in enumerate(sig[2:], start=2)]: index of the first
    [PAREN_OPEN]. *)
Fixpoint find_paren_open (rest : list Token) (idx : nat) : option nat :=
  match rest with
  | [] => None
  | t :: rest' =>
    if bool_decide (tok_type t = PAREN_OPEN) then Some idx
    else find_paren_open rest' (S idx)
  end.

(** [while j < len(sig)] on [rest = sig[j:]]. *)
Fixpoint collect_params (rest : list Token) (params : list ParamInfo)
    : list ParamInfo :=
  match rest with
  | [] => params
  | t :: rest' =>
    if bool_decide (tok_type t = PAREN_CLOSE) then params
    else if bool_decide (tok_type t = IDENTIFIER) then
      collect_params rest'
        (params ++ [mkParamInfo (tok_value t) (tok_line t) (tok_col t)])
    else collect_params rest' params
  end.

Definition _parse_func_header (sig : list Token) (lineno : Z) (indent : Z)
    : option FuncDef :=
  if (length sig <? 4)%nat then None
  else match sig with
  | _ :: name_tok :: _ =>
    if negb (bool_decide (tok_type name_tok = IDENTIFIER)) then None
    else match find_paren_open (drop 2 sig) 2 with
    | None => None
    | Some paren_idx =>
      let params := collect_params (drop (paren_idx + 1) sig) [] in
      Some (mkFuncDef (tok_value name_tok) lineno (tok_col name_tok) lineno
              params (indent + 4)%Z)
    end
  | _ => None
  end.

Definition scope_global : str := Eval vm_compute in u "global".

Definition _extract_assignment (sig : list Token) (lineno : Z) (indent : Z)
    (variables : gmap str VarDef) (current_func : option FuncDef)
    : gmap str VarDef :=
  if (length sig <? 3)%nat then variables
  else match sig with
  | sig0 :: sig1 :: _ =>
    if bool_decide (tok_type sig0 = IDENTIFIER)
       && bool_decide (tok_type sig1 = OPERATOR)
       && bool_decide (tok_value sig1 = [ch_equals]) then
      let name := tok_value sig0 in
      let scope :=
        match current_func with
        | Some f => fd_name f
        | None => scope_global
        end in
      let key :=
        match current_func with
        | Some _ => scope ++ [ch_colon] ++ name
        | None => name
        end in
      match variables !! key with
      | None => <[key := mkVarDef name lineno (tok_col sig0) scope]> variables
      | Some _ => variables
      end
    else variables
  | _ => variables
  end.

(** [raw_lines = source.split('\n')] *)
Fixpoint split_on (sep : char) (s : str) : list str :=
  match s with
  | [] => [[]]
  | ch :: s' =>
    if ch =? sep then [] :: split_on sep s'
    else match split_on sep s' with
    | cur :: rest => (ch :: cur) :: rest
    | [] => [[ch]]
    end
  end.

Definition split_lines (source : str) : list str :=
  let raw_lines := split_on ch_newline source in
  let raw_lines :=
    if bool_decide (last raw_lines = Some [])
    then take (length raw_lines - 1) raw_lines else raw_lines in
  match raw_lines with
  | [] => [[]]
  | _ => raw_lines
  end.

(** State of the second loop of [parse_document].  [current_func] aliases a
    [FuncDef] that is also stored in [functions], and is mutated through the
    alias; [ps_store] holds the objects and both places hold a reference (an
    index into the store). *)
Record PassState := mkPassState {
  ps_store : list FuncDef;
  ps_functions : gmap str nat;
  ps_variables : gmap str VarDef;
  ps_current_func : option nat;
  ps_func_indent : Z
}.

Definition set_end_line (v : Z) (f : FuncDef) : FuncDef :=
  mkFuncDef (fd_name f) (fd_line f) (fd_col f) v (fd_params f)
    (fd_body_indent f).

(** [for p in func_def.params: ... if key not in variables: ...] *)
Definition register_param (func_def : FuncDef) (variables : gmap str VarDef)
    (p : ParamInfo) : gmap str VarDef :=
  let key := fd_name func_def ++ [ch_colon] ++ param_name p in
  match variables !! key with
  | None =>
    <[key := mkVarDef (param_name p) (param_line p) (param_col p)
               (fd_name func_def)]> variables
  | Some _ => variables
  end.

Definition register_params (func_def : FuncDef)
    (variables : gmap str VarDef) : gmap str VarDef :=
  fold_left (register_param func_def) (fd_params func_def) variables.

(** Lines 259-265: close or extend the current function. *)
Definition update_extent (lineno : nat) (indent : Z) (st : PassState)
    : PassState :=
  match ps_current_func st with
  | Some r =>
    if (indent <=? ps_func_indent st)%Z then
      mkPassState (alter (set_end_line (Z.of_nat lineno - 1)) r (ps_store st))
        (ps_functions st) (ps_variables st) None (-1)
    else
      mkPassState (alter (set_end_line (Z.of_nat lineno)) r (ps_store st))
        (ps_functions st) (ps_variables st) (ps_current_func st)
        (ps_func_indent st)
  | None => st
  end.

(** Reading through the [current_func] alias.  A reference outside the
    store has no counterpart in Python; it yields [None] here and is shown
    never to occur ([pass_line_step]). *)
Definition deref_current (st : PassState) : option (option FuncDef) :=
  match ps_current_func st with
  | None => Some None
  | Some r => Some <$> ps_store st !! r
  end.

Definition assignment_line (sig : list Token) (lineno : nat) (indent : Z)
    (st : PassState) : option PassState :=
  current_func ← deref_current st;
  Some (mkPassState (ps_store st) (ps_functions st)
          (_extract_assignment sig (Z.of_nat lineno) indent (ps_variables st)
             current_func)
          (ps_current_func st) (ps_func_indent st)).

Definition is_function_keyword (t : Token) : bool :=
  bool_decide (tok_type t = KEYWORD) && bool_decide (tok_value t = kw_function).

(** One iteration of [for lineno, toks in enumerate(all_tokens)]. *)
Definition pass_line (line_indents : list Z) (st : PassState) (lineno : nat)
    (toks : list Token) : option PassState :=
  let sig := _significant_tokens toks in
  match sig with
  | [] => Some st
  | sig0 :: _ =>
    indent ← line_indents !! lineno;
    let st := update_extent lineno indent st in
    if is_function_keyword sig0 then
      match _parse_func_header sig (Z.of_nat lineno) indent with
      | Some func_def =>
        let r := length (ps_store st) in
        Some (mkPassState (ps_store st ++ [func_def])
                (<[fd_name func_def := r]> (ps_functions st))
                (register_params func_def (ps_variables st))
                (Some r) indent)
      | None => assignment_line sig lineno indent st
      end
    else assignment_line sig lineno indent st
  end.

Fixpoint pass_loop (line_indents : list Z) (st : PassState) (lineno : nat)
    (all_tokens : list (list Token)) : option PassState :=
  match all_tokens with
  | [] => Some st
  | toks :: rest =>
    st' ← pass_line line_indents st lineno toks;
    pass_loop line_indents st' (S lineno) rest
  end.

(** Lines 281-282. *)
Definition close_at_end (n : nat) (st : PassState) : PassState :=
  match ps_current_func st with
  | Some r =>
    mkPassState (alter (set_end_line (Z.of_nat n - 1)) r (ps_store st))
      (ps_functions st) (ps_variables st) (ps_current_func st)
      (ps_func_indent st)
  | None => st
  end.

Definition initial_state : PassState := mkPassState [] ∅ ∅ None (-1).

(** The function table of the result holds, for each name, the object its
    reference points to. *)
Definition parse_document (source : str) : option ParsedDocument :=
  let raw_lines := split_lines source in
  let all_tokens := imap (λ lineno line, tokenize_line line (Z.of_nat lineno))
                      raw_lines in
  let line_indents := measure_indent <$> raw_lines in
  st ← pass_loop line_indents initial_state 0 all_tokens;
  let st := close_at_end (length raw_lines) st in
  Some (mkParsedDocument all_tokens
          (omap (λ r, ps_store st !! r) (ps_functions st))
          (ps_variables st) line_indents raw_lines).

(** ** analyzer.py *)

(** The [lsprotocol] types used by the analyzer. *)
Inductive DiagnosticSeverity := SeverityError | SeverityWarning.

Record Position := mkPosition { pos_line : Z; pos_character : Z }.
Record Range := mkRange { range_start : Position; range_end : Position }.
Record Diagnostic := mkDiagnostic {
  diag_range : Range;
  diag_message : str;
  diag_severity : DiagnosticSeverity
}.

#[global] Instance DiagnosticSeverity_eq_dec : EqDecision DiagnosticSeverity.
Proof. solve_decision. Defined.
#[global] Instance Position_eq_dec : EqDecision Position.
Proof. solve_decision. Defined.
#[global] Instance Range_eq_dec : EqDecision Range.
Proof. solve_decision. Defined.
#[global] Instance Diagnostic_eq_dec : EqDecision Diagnostic.
Proof. solve_decision. Defined.

(** [_line_range], called with all three arguments. *)
Definition _line_range (line col end_col : Z) : Range :=
  mkRange (mkPosition line col) (mkPosition line end_col).

Definition _whole_line_range (line : Z) (text : str) : Range :=
  mkRange (mkPosition line 0) (mkPosition line (Z.of_nat (length text))).

(** [str.isspace] on one character: the Unicode whitespace characters. *)
Definition isspace (ch : char) : bool :=
  in_range 0x09 0x0D ch || in_range 0x1C 0x20 ch || (ch =? 0x85)
  || (ch =? 0xA0) || (ch =? 0x1680) || in_range 0x2000 0x200A ch
  || (ch =? 0x2028) || (ch =? 0x2029) || (ch =? 0x202F) || (ch =? 0x205F)
  || (ch =? 0x3000).

Fixpoint lstrip (s : str) : str :=
  match s with
  | ch :: s' => if isspace ch then lstrip s' else s
  | [] => []
  end.

Definition rstrip (s : str) : str := reverse (lstrip (reverse s)).

(** [s.strip()] *)
Definition strip (s : str) : str := rstrip (lstrip s).

(** [s.startswith(prefix)] *)
Definition startswith (s prefix : str) : bool :=
  bool_decide (take (length prefix) s = prefix).

(** [s.endswith(suffix)] *)
Definition endswith (s suffix : str) : bool :=
  startswith (reverse s) (reverse suffix).

Definition msg_orphan_elif : str :=
  Eval vm_compute in
  u "'अथवा_यदि' without a preceding 'यदि' at the same indentation.".
Definition msg_orphan_else : str :=
  Eval vm_compute in
  u "'अन्यथा' without a preceding 'यदि' at the same indentation.".
Definition msg_unmatched_parens : str :=
  Eval vm_compute in u "Unmatched parentheses on this line.".
Definition msg_unmatched_brackets : str :=
  Eval vm_compute in u "Unmatched brackets on this line.".
Definition msg_undefined_function (name : str) : str :=
  u "Undefined function '" ++ name ++ u "'.".

(** One iteration of the loop of [_check_orphaned_elif_else]; the state is
    [last_if_indent] and the shared [diags] list. *)
Definition orphan_line (doc : ParsedDocument)
    (st : gmap Z Z * list Diagnostic) (lineno : nat) (line : str)
    : option (gmap Z Z * list Diagnostic) :=
  let '(last_if_indent, diags) := st in
  let stripped := strip line in
  if bool_decide (stripped = []) || startswith stripped [ch_hash] then Some st
  else
    indent ← line_indents doc !! lineno;
    if startswith stripped kw_if && endswith stripped [ch_colon] then
      Some (<[indent := Z.of_nat lineno]> last_if_indent, diags)
    else if startswith stripped kw_elif then
      match last_if_indent !! indent with
      | None =>
        Some (last_if_indent,
              diags ++ [mkDiagnostic (_whole_line_range (Z.of_nat lineno) line)
                          msg_orphan_elif SeverityError])
      | Some _ => Some (<[indent := Z.of_nat lineno]> last_if_indent, diags)
      end
    else if startswith stripped kw_else && endswith stripped [ch_colon] then
      match last_if_indent !! indent with
      | None =>
        Some (last_if_indent,
              diags ++ [mkDiagnostic (_whole_line_range (Z.of_nat lineno) line)
                          msg_orphan_else SeverityError])
      | Some _ => Some (delete indent last_if_indent, diags)
      end
    else Some (delete indent last_if_indent, diags).

Fixpoint orphan_loop (doc : ParsedDocument)
    (st : gmap Z Z * list Diagnostic) (lineno : nat) (rest : list str)
    : option (gmap Z Z * list Diagnostic) :=
  match rest with
  | [] => Some st
  | line :: rest' =>
    st' ← orphan_line doc st lineno line;
    orphan_loop doc st' (S lineno) rest'
  end.

Definition _check_orphaned_elif_else (doc : ParsedDocument)
    (diags : list Diagnostic) : option (list Diagnostic) :=
  snd <$> orphan_loop doc (∅, diags) 0 (lines doc).

(** The inner [for t in toks] loop of [_check_unmatched_parens]; the state
    is [(paren_depth, bracket_depth)]. *)
Definition depth_step (st : Z * Z) (t : Token) : Z * Z :=
  let '(paren_depth, bracket_depth) := st in
  if bool_decide (tok_type t = PAREN_OPEN) then
    (paren_depth + 1, bracket_depth)%Z
  else if bool_decide (tok_type t = PAREN_CLOSE) then
    (paren_depth - 1, bracket_depth)%Z
  else if bool_decide (tok_type t = BRACKET_OPEN) then
    (paren_depth, bracket_depth + 1)%Z
  else if bool_decide (tok_type t = BRACKET_CLOSE) then
    (paren_depth, bracket_depth - 1)%Z
  else st.

Definition unmatched_line (doc : ParsedDocument) (diags : list Diagnostic)
    (lineno : nat) (toks : list Token) : option (list Diagnostic) :=
  let '(paren_depth, bracket_depth) := fold_left depth_step toks (0, 0)%Z in
  diags ←
    (if bool_decide (paren_depth ≠ 0%Z) then
       text ← lines doc !! lineno;
       Some (diags ++ [mkDiagnostic (_whole_line_range (Z.of_nat lineno) text)
                         msg_unmatched_parens SeverityError])
     else Some diags);
  if bool_decide (bracket_depth ≠ 0%Z) then
    text ← lines doc !! lineno;
    Some (diags ++ [mkDiagnostic (_whole_line_range (Z.of_nat lineno) text)
                      msg_unmatched_brackets SeverityError])
  else Some diags.

Fixpoint unmatched_loop (doc : ParsedDocument) (diags : list Diagnostic)
    (lineno : nat) (rest : list (list Token)) : option (list Diagnostic) :=
  match rest with
  | [] => Some diags
  | toks :: rest' =>
    diags' ← unmatched_line doc diags lineno toks;
    unmatched_loop doc diags' (S lineno) rest'
  end.

Definition _check_unmatched_parens (doc : ParsedDocument)
    (diags : list Diagnostic) : option (list Diagnostic) :=
  unmatched_loop doc diags 0 (tokens doc).

(** [_next_significant(toks, start_idx)], run on
    [rest = toks[start_idx + 1:]]. *)
Fixpoint _next_significant (rest : list Token) : option Token :=
  match rest with
  | [] => None
  | t :: rest' =>
    if bool_decide (tok_type t ≠ WHITESPACE) then Some t
    else _next_significant rest'
  end.

(** The body of [for idx, t in enumerate(toks)]. *)
Definition undefined_token (doc : ParsedDocument) (lineno : nat)
    (toks : list Token) (diags : list Diagnostic) (idx : nat) (t : Token)
    : list Diagnostic :=
  if bool_decide (tok_type t ≠ IDENTIFIER) then diags
  else match _next_significant (drop (idx + 1) toks) with
  | Some next_tok =>
    if bool_decide (tok_type next_tok = PAREN_OPEN) then
      let name := tok_value t in
      if bool_decide (functions doc !! name = None)
         && bool_decide (name ∉ BUILTIN_NAMES)
         && bool_decide (name ∉ KEYWORD_NAMES) then
        diags ++ [mkDiagnostic
                    (_line_range (Z.of_nat lineno) (tok_col t) (tok_end_col t))
                    (msg_undefined_function name) SeverityWarning]
      else diags
    else diags
  | None => diags
  end.

Fixpoint undefined_tokens (doc : ParsedDocument) (lineno : nat)
    (toks : list Token) (diags : list Diagnostic) (idx : nat)
    (rest : list Token) : list Diagnostic :=
  match rest with
  | [] => diags
  | t :: rest' =>
    undefined_tokens doc lineno toks
      (undefined_token doc lineno toks diags idx t) (S idx) rest'
  end.

Fixpoint undefined_loop (doc : ParsedDocument) (diags : list Diagnostic)
    (lineno : nat) (rest : list (list Token)) : list Diagnostic :=
  match rest with
  | [] => diags
  | toks :: rest' =>
    undefined_loop doc (undefined_tokens doc lineno toks diags 0 toks)
      (S lineno) rest'
  end.

Definition _check_undefined_references (doc : ParsedDocument)
    (diags : list Diagnostic) : list Diagnostic :=
  undefined_loop doc diags 0 (tokens doc).

(** ** semantic_tokens.py *)

Definition _TYPE_MAP (tt : TokenType) : option Z :=
  match tt with
  | KEYWORD => Some 0%Z
  | BUILTIN => Some 1%Z
  | IDENTIFIER => Some 2%Z
  | NUMBER => Some 3%Z
  | STRING => Some 4%Z
  | COMMENT => Some 5%Z
  | OPERATOR => Some 6%Z
  | LOGICAL_OP => Some 6%Z
  | CONSTANT => Some 8%Z
  | _ => None
  end.

Definition _SKIP : list TokenType :=
  [WHITESPACE; PAREN_OPEN; PAREN_CLOSE; BRACKET_OPEN; BRACKET_CLOSE; COMMA;
   COLON; UNKNOWN].

(** [param_names]: the names of all parameters of all recorded functions. *)
Definition param_names (doc : ParsedDocument) : gset str :=
  map_fold (λ _ fdef (names : gset str),
              fold_left (λ (names : gset str) p, {[param_name p]} ∪ names)
                (fd_params fdef) names)
    ∅ (functions doc).

Definition func_names (doc : ParsedDocument) : gset str := dom (functions doc).

Record EncoderState := mkEncoderState {
  es_data : list Z;
  es_prev_line : Z;
  es_prev_col : Z
}.

(** The body of [for tok in line_tokens]. *)
Definition encode_token (doc : ParsedDocument) (st : EncoderState)
    (tok : Token) : EncoderState :=
  if bool_decide (tok_type tok ∈ _SKIP) then st
  else match _TYPE_MAP (tok_type tok) with
  | None => st
  | Some token_type =>
    let token_type :=
      if bool_decide (tok_type tok = IDENTIFIER) then
        if bool_decide (tok_value tok ∈ func_names doc) then 1%Z
        else if bool_decide (tok_value tok ∈ param_names doc) then 7%Z
        else token_type
      else token_type in
    let length := (tok_end_col tok - tok_col tok)%Z in
    let delta_line := (tok_line tok - es_prev_line st)%Z in
    let delta_col :=
      if (0 <? delta_line)%Z then tok_col tok
      else (tok_col tok - es_prev_col st)%Z in
    mkEncoderState
      (es_data st ++ [delta_line; delta_col; length; token_type; 0%Z])
      (tok_line tok) (tok_col tok)
  end.

Definition provide_semantic_tokens (doc : ParsedDocument) : list Z :=
  es_data
    (fold_left (λ st line_tokens, fold_left (encode_token doc) line_tokens st)
       (tokens doc) (mkEncoderState [] 0 0)).

Close Scope N_scope.

(** * The rest of the server

    The remaining checks of [analyzer.py] with [analyze], the queries of
    [definition.py], [hover.py] and [completion.py], and the document cache
    of [server.py].
    - A position holds Python integers; indexing a list by one of them
      follows Python: a negative index counts from the end ([py_index]).
    - A loop over the items of a [dict] runs in insertion order, which a
      [gmap] does not record; such a loop takes the items as a list, in the
      order of iteration, and the properties are proved for every order.
    - The handlers of the server are functions from the cache and a
      notification to the new cache and the diagnostics published. *)

(** ** symbols.py: operators and block keywords *)

(** [OPERATORS], a set in the source, listed in the order it is written. *)
Definition OPERATORS : list str :=
  Eval vm_compute in
  [u "+"; u "-"; u "*"; u "/"; u "%"; u "=="; u "!="; u "<"; u ">"; u "<=";
   u ">="; u "="].

(** [BLOCK_OPENERS], a set in the source; [_line_opens_block] asks whether
    some member is a prefix, which does not depend on the order of
    iteration. *)
Definition BLOCK_OPENERS : list str :=
  [kw_if; kw_elif; kw_else; kw_while; kw_function].

(** ** analyzer.py: indentation, block structure and [analyze] *)

Definition msg_expected_indent : str :=
  Eval vm_compute in u "Expected indented block after previous statement.".
Definition msg_function_form : str :=
  Eval vm_compute in u "Function definition must be: कार्यम् name(params):".
Definition msg_missing_paren : str :=
  Eval vm_compute in u "Missing closing parenthesis in function definition.".
Definition msg_must_end (kw : str) : str :=
  u "'" ++ kw ++ u "' statement must end with ':'".
Definition msg_else_must_end : str :=
  Eval vm_compute in u "'अन्यथा' must end with ':'".

Definition _line_opens_block (stripped : str) : bool :=
  existsb (λ kw, startswith stripped kw) BLOCK_OPENERS.

(** One iteration of the loop of [_check_indentation]; the state is
    [(prev_indent, prev_is_block_opener)] and the shared [diags] list. *)
Definition indentation_line (doc : ParsedDocument)
    (st : Z * bool * list Diagnostic) (lineno : nat) (line : str)
    : option (Z * bool * list Diagnostic) :=
  let '(prev_indent, prev_is_block_opener, diags) := st in
  let stripped := strip line in
  if bool_decide (stripped = []) || startswith stripped [ch_hash] then Some st
  else
    indent ← line_indents doc !! lineno;
    let diags :=
      if prev_is_block_opener && (indent <=? prev_indent)%Z then
        diags ++ [mkDiagnostic (_whole_line_range (Z.of_nat lineno) line)
                    msg_expected_indent SeverityWarning]
      else diags in
    Some (indent,
          endswith stripped [ch_colon] && _line_opens_block stripped,
          diags).

Fixpoint indentation_loop (doc : ParsedDocument)
    (st : Z * bool * list Diagnostic) (lineno : nat) (rest : list str)
    : option (Z * bool * list Diagnostic) :=
  match rest with
  | [] => Some st
  | line :: rest' =>
    st' ← indentation_line doc st lineno line;
    indentation_loop doc st' (S lineno) rest'
  end.

Definition _check_indentation (doc : ParsedDocument)
    (diags : list Diagnostic) : option (list Diagnostic) :=
  snd <$> indentation_loop doc (0%Z, false, diags) 0 (lines doc).

(** One iteration of the loop of [_check_block_structure]. *)
Definition block_structure_line (doc : ParsedDocument)
    (diags : list Diagnostic) (lineno : nat) (toks : list Token)
    : option (list Diagnostic) :=
  match _significant_tokens toks with
  | [] => Some diags
  | sig0 :: _ =>
    diags ←
      (if bool_decide (tok_type sig0 = KEYWORD)
          && bool_decide (tok_value sig0 = kw_function) then
         text ← lines doc !! lineno;
         let line_text := strip text in
         if negb (bool_decide (ch_lparen ∈ line_text))
            || negb (endswith line_text [ch_colon]) then
           Some (diags ++ [mkDiagnostic
                             (_whole_line_range (Z.of_nat lineno) text)
                             msg_function_form SeverityError])
         else if negb (bool_decide (ch_rparen ∈ line_text)) then
           Some (diags ++ [mkDiagnostic
                             (_whole_line_range (Z.of_nat lineno) text)
                             msg_missing_paren SeverityError])
         else Some diags
       else Some diags);
    diags ←
      (if bool_decide (tok_type sig0 = KEYWORD)
          && bool_decide (tok_value sig0 ∈ [kw_if; kw_while; kw_elif]) then
         text ← lines doc !! lineno;
         let line_text := strip text in
         if negb (endswith line_text [ch_colon]) then
           Some (diags ++ [mkDiagnostic
                             (_whole_line_range (Z.of_nat lineno) text)
                             (msg_must_end (tok_value sig0)) SeverityError])
         else Some diags
       else Some diags);
    if bool_decide (tok_type sig0 = KEYWORD)
       && bool_decide (tok_value sig0 = kw_else) then
      text ← lines doc !! lineno;
      let line_text := strip text in
      if negb (endswith line_text [ch_colon]) then
        Some (diags ++ [mkDiagnostic
                          (_whole_line_range (Z.of_nat lineno) text)
                          msg_else_must_end SeverityError])
      else Some diags
    else Some diags
  end.

Fixpoint block_structure_loop (doc : ParsedDocument)
    (diags : list Diagnostic) (lineno : nat) (rest : list (list Token))
    : option (list Diagnostic) :=
  match rest with
  | [] => Some diags
  | toks :: rest' =>
    diags' ← block_structure_line doc diags lineno toks;
    block_structure_loop doc diags' (S lineno) rest'
  end.

Definition _check_block_structure (doc : ParsedDocument)
    (diags : list Diagnostic) : option (list Diagnostic) :=
  block_structure_loop doc diags 0 (tokens doc).

(** [analyze]: the five checks, each appending to the shared list. *)
Definition analyze (doc : ParsedDocument) : option (list Diagnostic) :=
  diags ← _check_indentation doc [];
  diags ← _check_block_structure doc diags;
  diags ← _check_orphaned_elif_else doc diags;
  diags ← _check_unmatched_parens doc diags;
  Some (_check_undefined_references doc diags).

(** ** definition.py and hover.py: the token and the scope of a
    position, go to definition *)

(** [l[i]] for a Python integer [i]: a negative index counts from the end,
    and an index out of range raises [IndexError] ([None]). *)
Definition py_index {A} (l : list A) (i : Z) : option A :=
  if (0 <=? i)%Z then l !! Z.to_nat i
  else if (- Z.of_nat (length l) <=? i)%Z
  then l !! Z.to_nat (Z.of_nat (length l) + i)
  else None.

(** [for t in doc.tokens[pos.line]] of [_token_at_position]. *)
Fixpoint token_at (toks : list Token) (character : Z) : option Token :=
  match toks with
  | [] => None
  | t :: rest =>
    if (tok_col t <=? character)%Z && (character <? tok_end_col t)%Z then
      if bool_decide (tok_type t ≠ WHITESPACE) then Some t
      else token_at rest character
    else token_at rest character
  end.

(** [_token_at_position], the same function in definition.py and hover.py.
    The outer [option] is for [IndexError]. *)
Definition _token_at_position (doc : ParsedDocument) (pos : Position)
    : option (option Token) :=
  if (Z.of_nat (length (tokens doc)) <=? pos_line pos)%Z then Some None
  else
    toks ← py_index (tokens doc) (pos_line pos);
    Some (token_at toks (pos_character pos)).

(** [_current_scope] of definition.py and completion.py.  The loop runs over
    [doc.functions.items()]; a dict iterates in insertion order, which the
    finite map of the model does not record, so the function takes the items
    in the order of iteration and the theorems hold for every order. *)
Fixpoint _current_scope (items : list (str * FuncDef)) (line : Z) : str :=
  match items with
  | [] => scope_global
  | (fname, fdef) :: rest =>
    if (fd_line fdef <? line)%Z && (line <=? fd_end_line fdef)%Z then fname
    else _current_scope rest line
  end.

Record Location := mkLocation { loc_uri : str; loc_range : Range }.

(** The range of a name of [length name] characters at [(line, col)]. *)
Definition name_range (line col : Z) (name : str) : Range :=
  mkRange (mkPosition line col)
    (mkPosition line (col + Z.of_nat (length name))).

(** [provide_definition]; [items] is [doc.functions.items()] as iterated by
    [_current_scope]. *)
Definition provide_definition (doc : ParsedDocument)
    (items : list (str * FuncDef)) (pos : Position) (uri : str)
    : option (option Location) :=
  token ← _token_at_position doc pos;
  match token with
  | None => Some None
  | Some token =>
    if negb (bool_decide (tok_type token = IDENTIFIER)
             || bool_decide (tok_type token = BUILTIN)) then Some None
    else
      let name := tok_value token in
      match functions doc !! name with
      | Some fdef =>
        Some (Some (mkLocation uri
                      (name_range (fd_line fdef) (fd_col fdef)
                         (fd_name fdef))))
      | None =>
        let current_scope := _current_scope items (pos_line pos) in
        let vdef :=
          if bool_decide (current_scope ≠ scope_global)
          then variables doc !! (current_scope ++ [ch_colon] ++ name)
          else None in
        let vdef :=
          match vdef with
          | None => variables doc !! name
          | Some _ => vdef
          end in
        match vdef with
        | Some vdef =>
          Some (Some (mkLocation uri
                        (name_range (vd_line vdef) (vd_col vdef)
                           (vd_name vdef))))
        | None => Some None
        end
      end
  end.

(** hover.py: the scope loop of [_find_variable], which is the loop of
    [_current_scope] with [break] for [return]. *)
Fixpoint find_variable_scope (items : list (str * FuncDef)) (line : Z)
    : str :=
  match items with
  | [] => scope_global
  | (fname, fdef) :: rest =>
    if (fd_line fdef <? line)%Z && (line <=? fd_end_line fdef)%Z then fname
    else find_variable_scope rest line
  end.

Definition _find_variable (doc : ParsedDocument)
    (items : list (str * FuncDef)) (name : str) (line : Z) : option VarDef :=
  let current_scope := find_variable_scope items line in
  match (if bool_decide (current_scope ≠ scope_global)
         then variables doc !! (current_scope ++ [ch_colon] ++ name)
         else None) with
  | Some vdef => Some vdef
  | None => variables doc !! name
  end.

(** ** definition.py: document symbols *)

Inductive SymbolKind := SymbolKindFunction | SymbolKindVariable.

Record DocumentSymbol := mkDocumentSymbol {
  sym_name : str;
  sym_kind : SymbolKind;
  sym_range : Range;
  sym_selection_range : Range;
  sym_detail : option str
}.

(** [sep.join(parts)] *)
Fixpoint join_with (sep : str) (parts : list str) : str :=
  match parts with
  | [] => []
  | [part] => part
  | part :: rest => part ++ sep ++ join_with sep rest
  end.

(** The body of the first loop of [provide_document_symbols]; [None] is the
    [IndexError] of [doc.lines[fdef.end_line]]. *)
Definition function_symbol (doc : ParsedDocument) (item : str * FuncDef)
    : option DocumentSymbol :=
  let '(fname, fdef) := item in
  let param_names := param_name <$> fd_params fdef in
  let detail := u "(" ++ join_with (u ", ") param_names ++ u ")" in
  end_character ←
    (if (fd_end_line fdef <? Z.of_nat (length (lines doc)))%Z
     then (λ line, Z.of_nat (length line))
            <$> py_index (lines doc) (fd_end_line fdef)
     else Some 0%Z);
  Some (mkDocumentSymbol fname SymbolKindFunction
          (mkRange (mkPosition (fd_line fdef) 0)
             (mkPosition (fd_end_line fdef) end_character))
          (name_range (fd_line fdef) (fd_col fdef) fname)
          (Some detail)).

Fixpoint function_symbols (doc : ParsedDocument)
    (items : list (str * FuncDef)) (symbols : list DocumentSymbol)
    : option (list DocumentSymbol) :=
  match items with
  | [] => Some symbols
  | item :: rest =>
    sym ← function_symbol doc item;
    function_symbols doc rest (symbols ++ [sym])
  end.

(** The body of the second loop; variables of a scope other than [global]
    are skipped. *)
Definition variable_symbol (symbols : list DocumentSymbol)
    (item : str * VarDef) : list DocumentSymbol :=
  let '(key, vdef) := item in
  if bool_decide (vd_scope vdef ≠ scope_global) then symbols
  else
    let sym_range :=
      name_range (vd_line vdef) (vd_col vdef) (vd_name vdef) in
    symbols ++ [mkDocumentSymbol (vd_name vdef) SymbolKindVariable
                  sym_range sym_range None].

(** [provide_document_symbols]; [fitems] and [vitems] are
    [doc.functions.items()] and [doc.variables.items()] in the order of
    iteration. *)
Definition provide_document_symbols (doc : ParsedDocument)
    (fitems : list (str * FuncDef)) (vitems : list (str * VarDef))
    : option (list DocumentSymbol) :=
  symbols ← function_symbols doc fitems [];
  Some (fold_left variable_symbol vitems symbols).

(** ** completion.py: the word before the cursor *)

Definition _is_ident_char (ch : char) : bool :=
  (ch =? ord "_")%N
  || in_range (ord "a") (ord "z") ch
  || in_range (ord "A") (ord "Z") ch
  || in_range (ord "0") (ord "9") ch
  || in_range 0x0900%N 0x097F%N ch.

(** [while start > 0 and _is_ident_char(line[start - 1]): start -= 1];
    [None] is the [IndexError] of [line[start - 1]]. *)
Fixpoint word_start (line : str) (start : nat) : option nat :=
  match start with
  | O => Some O
  | S s =>
    ch ← line !! s;
    if _is_ident_char ch then word_start line s else Some start
  end.

(** Lines 117-121 of [_word_at_cursor], on the line of the cursor.  For a
    column that is not positive the loop does not run and the slice
    [line[col:col]] is empty. *)
Definition word_before (line : str) (character : Z) : option str :=
  let col := Z.min character (Z.of_nat (length line)) in
  if (col <=? 0)%Z then Some []
  else
    start ← word_start line (Z.to_nat col);
    Some (slice line start (Z.to_nat col)).

Definition _word_at_cursor (doc : ParsedDocument) (pos : Position)
    : option str :=
  if (Z.of_nat (length (lines doc)) <=? pos_line pos)%Z then Some []
  else
    line ← py_index (lines doc) (pos_line pos);
    word_before line (pos_character pos).

(** ** server.py: the document cache *)

(** The notifications the server handles, with the fields the handlers
    read: the uri, the text of [didOpen], the texts of the content changes
    of [didChange]. *)
Inductive Notification :=
  | DidOpen (uri text : str)
  | DidChange (uri : str) (content_changes : list str)
  | DidClose (uri : str).

(** [PublishDiagnosticsParams] *)
Record Published := mkPublished {
  pub_uri : str;
  pub_diagnostics : list Diagnostic
}.

(** [_reparse]: parse, store in [_doc_cache], analyze and publish. *)
Definition _reparse (_doc_cache : gmap str ParsedDocument) (uri text : str)
    : option (gmap str ParsedDocument * list Published) :=
  doc ← parse_document text;
  let _doc_cache := <[uri := doc]> _doc_cache in
  diags ← analyze doc;
  Some (_doc_cache, [mkPublished uri diags]).

Definition get_parsed (_doc_cache : gmap str ParsedDocument) (uri : str)
    : option ParsedDocument :=
  _doc_cache !! uri.

(** The handlers [did_open], [did_change] and [did_close]: the new cache
    and what is published. *)
Definition handle (_doc_cache : gmap str ParsedDocument) (n : Notification)
    : option (gmap str ParsedDocument * list Published) :=
  match n with
  | DidOpen uri text => _reparse _doc_cache uri text
  | DidChange uri content_changes =>
    match last content_changes with
    | Some text => _reparse _doc_cache uri text
    | None => Some (_doc_cache, [])
    end
  | DidClose uri => Some (delete uri _doc_cache, [mkPublished uri []])
  end.

(** A session: the notifications handled one after the other. *)
Fixpoint session (_doc_cache : gmap str ParsedDocument)
    (published : list Published) (ns : list Notification)
    : option (gmap str ParsedDocument * list Published) :=
  match ns with
  | [] => Some (_doc_cache, published)
  | n :: rest =>
    '(_doc_cache, new) ← handle _doc_cache n;
    session _doc_cache (published ++ new) rest
  end.

(** * Properties *)

(** ** The tokenizer covers its line *)

(** Tokens that tile the columns from [c] on: each starts where the previous
    one ended, spans as many columns as its text has characters, and is not
    empty. *)
Fixpoint contiguous_from (c : Z) (toks : list Token) : Prop :=
  match toks with
  | [] => True
  | t :: rest =>
    tok_col t = c
    ∧ tok_end_col t = (tok_col t + Z.of_nat (length (tok_value t)))%Z
    ∧ tok_value t ≠ []
    ∧ contiguous_from (tok_end_col t) rest
  end.

Lemma advance_while_bounds p rest i :
  (i ≤ advance_while p rest i ≤ i + length rest)%nat.
Proof.
  revert i. induction rest as [|ch rest IH]; intros i; simpl; [lia|].
  destruct (p ch); [|lia]. specialize (IH (S i)). lia.
Qed.

Lemma advance_while_drop p (text : str) i :
  (i ≤ length text)%nat →
  (i ≤ advance_while p (drop i text) i ≤ length text)%nat.
Proof.
  intros Hi. pose proof (advance_while_bounds p (drop i text) i) as H.
  rewrite length_drop in H. lia.
Qed.

Lemma slice_drop (text : str) i j :
  (i ≤ j)%nat → slice text i j ++ drop j text = drop i text.
Proof.
  intros Hij. unfold slice.
  replace (drop j text) with (drop (j - i) (drop i text)).
  - apply take_drop.
  - rewrite drop_drop. f_equal. lia.
Qed.

Lemma length_slice (text : str) i j :
  (i ≤ j ≤ length text)%nat → length (slice text i j) = (j - i)%nat.
Proof.
  intros Hij. unfold slice. rewrite length_take, length_drop. lia.
Qed.

Lemma slice_single (text : str) i ch :
  text !! i = Some ch → slice text i (i + 1) = [ch].
Proof.
  intros Hch. unfold slice. replace (i + 1 - i)%nat with 1%nat by lia.
  rewrite (drop_S _ _ _ Hch). reflexivity.
Qed.

(** An [IDENTIFIER] token is a word of identifier characters, so it holds no
    colon. *)
Definition colon_free_identifier (t : Token) : Prop :=
  tok_type t = IDENTIFIER → ch_colon ∉ tok_value t.

Lemma advance_while_take p rest : ∀ i,
  Forall (λ ch, p ch = true) (take (advance_while p rest i - i) rest).
Proof.
  induction rest as [|ch rest IH]; intros i; simpl.
  - by rewrite take_nil.
  - destruct (p ch) eqn:Hp.
    + pose proof (advance_while_bounds p rest (S i)).
      replace (advance_while p rest (S i) - i)
        with (S (advance_while p rest (S i) - S i)) by lia.
      simpl. constructor; [done|apply IH].
    + rewrite Nat.sub_diag. constructor.
Qed.

Lemma ident_part_not_colon ch : _is_ident_part ch = true → ch ≠ ch_colon.
Proof. intros Hpart ->. by vm_compute in Hpart. Qed.

Lemma ident_start_not_colon ch : _is_ident_start ch = true → ch ≠ ch_colon.
Proof. intros Hstart ->. by vm_compute in Hstart. Qed.

Lemma ident_word_colon_free (text : str) i ch :
  text !! i = Some ch → _is_ident_start ch = true →
  ch_colon ∉
    slice text i (advance_while _is_ident_part (drop (S i) text) (S i)).
Proof.
  intros Hch Hstart. unfold slice. rewrite (drop_S _ _ _ Hch).
  pose proof (advance_while_bounds _is_ident_part (drop (S i) text) (S i)).
  replace (advance_while _is_ident_part (drop (S i) text) (S i) - i)
    with (S (advance_while _is_ident_part (drop (S i) text) (S i) - S i))
    by lia.
  simpl. intros [Heq|Hin]%elem_of_cons.
  - by apply (ident_start_not_colon ch).
  - pose proof (advance_while_take _is_ident_part (drop (S i) text) (S i))
      as Hall.
    rewrite Forall_forall in Hall. specialize (Hall _ Hin).
    by apply (ident_part_not_colon ch_colon).
Qed.

Lemma punctuation_not_identifier ch : punctuation ch ≠ IDENTIFIER.
Proof. unfold punctuation. by repeat case_match. Qed.

Section tokenize_loop_spec.
Variables (text : str) (line_no : Z).

(** What the loop appends from column [i] on. *)
Definition covers (i : nat) (new : list Token) : Prop :=
  concat (tok_value <$> new) = drop i text
  ∧ contiguous_from (Z.of_nat i) new
  ∧ Forall (λ t, tok_line t = line_no) new
  ∧ Forall colon_free_identifier new.

Lemma covers_cons tt i j new :
  (i < j ≤ length text)%nat →
  (tt = IDENTIFIER → ch_colon ∉ slice text i j) →
  covers j new →
  covers i (mkToken tt (slice text i j) line_no (Z.of_nat i) (Z.of_nat j)
              :: new).
Proof.
  intros Hij Hid (Hcat & Hcont & Hline & Hcolon). split; [|split; [|split]].
  - rewrite fmap_cons. cbn [concat tok_value]. rewrite Hcat.
    apply slice_drop. lia.
  - simpl. rewrite length_slice by lia. split; [done|]. split; [lia|].
    split; [|done]. intros Hnil. apply (f_equal length) in Hnil.
    rewrite length_slice in Hnil by lia. simpl in Hnil. lia.
  - constructor; [done|assumption].
  - constructor; [exact Hid|assumption].
Qed.

Lemma tokenize_loop_covers fuel : ∀ i tokens,
  (i ≤ length text)%nat → (length text - i ≤ fuel)%nat →
  ∃ new, tokenize_loop fuel text line_no i tokens = tokens ++ new
         ∧ covers i new.
Proof.
  induction fuel as [|fuel IH]; intros i tokens Hi Hfuel.
  - exists []. simpl. rewrite app_nil_r. split; [done|].
    split; [|split; [|split]]; simpl; [|done|constructor..].
    symmetry. apply drop_ge. lia.
  - simpl. destruct (text !! i) as [ch|] eqn:Hch.
    2:{ exists []. rewrite app_nil_r. split; [done|].
        apply lookup_ge_None in Hch.
        split; [|split; [|split]]; simpl; [|done|constructor..].
        symmetry. by apply drop_ge. }
    pose proof (lookup_lt_Some _ _ _ Hch) as Hlt.
    assert (Hnext : ∀ tt j, (i < j ≤ length text)%nat →
      (tt = IDENTIFIER → ch_colon ∉ slice text i j) →
      ∃ new, tokenize_loop fuel text line_no j
               (tokens ++ [mkToken tt (slice text i j) line_no
                             (Z.of_nat i) (Z.of_nat j)]) = tokens ++ new
             ∧ covers i new).
    { intros tt j Hj Hid.
      destruct (IH j (tokens ++ [mkToken tt (slice text i j) line_no
                                   (Z.of_nat i) (Z.of_nat j)]))
        as (new & Hnew & Hcov); [lia|lia|].
      eexists. split; [rewrite Hnew, <- app_assoc; reflexivity|].
      by apply covers_cons. }
    destruct (ch =? ch_hash)%N.
    { exists [mkToken COMMENT (drop i text) line_no (Z.of_nat i)
                (Z.of_nat (length text))].
      split; [done|]. split; [|split; [|split]].
      - simpl. by rewrite app_nil_r.
      - simpl. rewrite length_drop. split; [done|]. split; [lia|].
        split; [|done]. intros Hnil. apply (f_equal length) in Hnil.
        rewrite length_drop in Hnil. simpl in Hnil. lia.
      - by repeat constructor.
      - by repeat constructor. }
    destruct (is_blank ch) eqn:Hblank.
    { apply Hnext; [|done].
      pose proof (advance_while_drop is_blank text (S i)) as Hadv.
      rewrite (drop_S _ _ _ Hch). simpl. rewrite Hblank. lia. }
    destruct (ch =? ch_quote)%N.
    { apply Hnext; [|done].
      pose proof (advance_while_drop not_quote text (S i)) as Hadv.
      destruct (_ <? _)%nat eqn:Hlast; [apply Nat.ltb_lt in Hlast|]; lia. }
    destruct (_DIGIT_START ch) eqn:Hdigit.
    { apply Hnext; [|done].
      pose proof (advance_while_drop _DIGIT_PART text (S i)) as Hadv.
      rewrite (drop_S _ _ _ Hch). simpl.
      change (_DIGIT_PART ch) with (_DIGIT_START ch). rewrite Hdigit. lia. }
    destruct (_is_ident_start ch) eqn:Hstart.
    { apply Hnext.
      - pose proof (advance_while_drop _is_ident_part text (S i)). lia.
      - intros _. by apply (ident_word_colon_free text i ch). }
    destruct ((i + 1 <? length text)%nat && _) eqn:Hdouble.
    { apply Hnext; [|done]. apply andb_prop in Hdouble as [Hlen _].
      apply Nat.ltb_lt in Hlen. lia. }
    destruct (bool_decide (ch ∈ _OPERATORS_SINGLE)).
    { rewrite <- (slice_single _ _ _ Hch). apply Hnext; [lia|done]. }
    rewrite <- (slice_single _ _ _ Hch). apply Hnext; [lia|].
    intros Hid. by apply punctuation_not_identifier in Hid.
Qed.
End tokenize_loop_spec.

Lemma tokenize_line_covers text line_no :
  covers text line_no 0 (tokenize_line text line_no).
Proof.
  destruct (tokenize_loop_covers text line_no (length text) 0 [])
    as (new & Hnew & Hcov); [lia|lia|].
  unfold tokenize_line. by rewrite Hnew.
Qed.

(** C1. For every line text and line number, the texts of the tokens of
    [tokenize_line], concatenated in order, are the line itself; the tokens
    are contiguous and do not overlap: the first starts at column 0, each
    starts at the end column of the one before, and each end column is
    exclusive (start column plus the number of characters of the token, which
    is never empty). *)
Theorem tokenize_line_round_trip (text : str) (line_no : Z) :
  concat (tok_value <$> tokenize_line text line_no) = text
  ∧ contiguous_from 0 (tokenize_line text line_no).
Proof.
  destruct (tokenize_line_covers text line_no) as (Hcat & Hcont & _).
  split; [exact Hcat | exact Hcont].
Qed.

(** ** The document pass never fails *)

(** Every reference held by the pass points into the object store. *)
Definition refs_valid (st : PassState) : Prop :=
  (∀ r, ps_current_func st = Some r → (r < length (ps_store st))%nat)
  ∧ (∀ name r, ps_functions st !! name = Some r →
       (r < length (ps_store st))%nat).

Lemma refs_valid_initial : refs_valid initial_state.
Proof.
  split; [done|]. intros name r. unfold initial_state. simpl.
  by rewrite lookup_empty.
Qed.

Lemma update_extent_store_length lineno indent st :
  length (ps_store (update_extent lineno indent st)) = length (ps_store st).
Proof.
  unfold update_extent. destruct (ps_current_func st); [|done].
  destruct (_ <=? _)%Z; simpl; by rewrite length_alter.
Qed.

Lemma update_extent_functions lineno indent st :
  ps_functions (update_extent lineno indent st) = ps_functions st.
Proof.
  unfold update_extent. destruct (ps_current_func st); [|done].
  by destruct (_ <=? _)%Z.
Qed.

Lemma update_extent_variables lineno indent st :
  ps_variables (update_extent lineno indent st) = ps_variables st.
Proof.
  unfold update_extent. destruct (ps_current_func st); [|done].
  by destruct (_ <=? _)%Z.
Qed.

Lemma update_extent_current lineno indent st r :
  ps_current_func (update_extent lineno indent st) = Some r →
  ps_current_func st = Some r.
Proof.
  unfold update_extent. destruct (ps_current_func st) eqn:Hcur; [|congruence].
  destruct (_ <=? _)%Z; simpl; congruence.
Qed.

Lemma update_extent_valid lineno indent st :
  refs_valid st → refs_valid (update_extent lineno indent st).
Proof.
  intros [Hcur Hfun]. split.
  - intros r Hr. rewrite update_extent_store_length.
    apply Hcur. by eapply update_extent_current.
  - intros name r. rewrite update_extent_store_length, update_extent_functions.
    apply Hfun.
Qed.

Lemma assignment_line_total sig lineno indent st :
  refs_valid st →
  assignment_line sig lineno indent st =
    Some (mkPassState (ps_store st) (ps_functions st)
            (_extract_assignment sig (Z.of_nat lineno) indent (ps_variables st)
               (ps_current_func st ≫= λ r, ps_store st !! r))
            (ps_current_func st) (ps_func_indent st)).
Proof.
  intros [Hcur _]. unfold assignment_line, deref_current.
  destruct (ps_current_func st) as [r|]; [|done].
  destruct (lookup_lt_is_Some_2 (ps_store st) r (Hcur r eq_refl)) as [f Hf].
  simpl. by rewrite Hf.
Qed.

(** The step of the pass written out, for a line with a known indentation. *)
Definition line_step (sig : list Token) (lineno : nat) (indent : Z)
    (st : PassState) : PassState :=
  let st := update_extent lineno indent st in
  let assign :=
    mkPassState (ps_store st) (ps_functions st)
      (_extract_assignment sig (Z.of_nat lineno) indent (ps_variables st)
         (ps_current_func st ≫= λ r, ps_store st !! r))
      (ps_current_func st) (ps_func_indent st) in
  match head sig with
  | None => st
  | Some sig0 =>
    if is_function_keyword sig0 then
      match _parse_func_header sig (Z.of_nat lineno) indent with
      | Some func_def =>
        mkPassState (ps_store st ++ [func_def])
          (<[fd_name func_def := length (ps_store st)]> (ps_functions st))
          (register_params func_def (ps_variables st))
          (Some (length (ps_store st))) indent
      | None => assign
      end
    else assign
  end.

Lemma pass_line_step line_indents st lineno toks indent :
  refs_valid st →
  line_indents !! lineno = Some indent →
  pass_line line_indents st lineno toks =
    Some (match _significant_tokens toks with
          | [] => st
          | _ :: _ => line_step (_significant_tokens toks) lineno indent st
          end).
Proof.
  intros Hvalid Hindent. unfold pass_line, line_step.
  destruct (_significant_tokens toks) as [|sig0 sig'] eqn:Hsig; [done|].
  rewrite Hindent. simpl.
  pose proof (update_extent_valid lineno indent st Hvalid) as Hvalid'.
  destruct (is_function_keyword sig0).
  - destruct (_parse_func_header _ _ _); [done|].
    by apply assignment_line_total.
  - by apply assignment_line_total.
Qed.

Lemma line_step_valid sig lineno indent st :
  refs_valid st → refs_valid (line_step sig lineno indent st).
Proof.
  intros Hvalid.
  pose proof (update_extent_valid lineno indent st Hvalid) as Hvalid'.
  unfold line_step. destruct (head sig) as [sig0|]; [|done].
  assert (refs_valid
    (mkPassState (ps_store (update_extent lineno indent st))
       (ps_functions (update_extent lineno indent st))
       (_extract_assignment sig (Z.of_nat lineno) indent
          (ps_variables (update_extent lineno indent st))
          (ps_current_func (update_extent lineno indent st)
             ≫= λ r, ps_store (update_extent lineno indent st) !! r))
       (ps_current_func (update_extent lineno indent st))
       (ps_func_indent (update_extent lineno indent st)))) as Hassign.
  { destruct Hvalid' as [Hcur Hfun]. by split. }
  destruct (is_function_keyword sig0); [|done].
  destruct (_parse_func_header _ _ _) as [func_def|]; [|done].
  destruct Hvalid' as [Hcur Hfun]. split; simpl.
  - intros r [= <-]. rewrite length_app. simpl. lia.
  - intros name r. rewrite length_app. simpl.
    destruct (decide (fd_name func_def = name)) as [->|Hne].
    + rewrite lookup_insert_eq. intros [= <-]. lia.
    + rewrite lookup_insert_ne by done. intros Hr.
      specialize (Hfun _ _ Hr). lia.
Qed.

(** The state after each line of the pass, when every line has an
    indentation: the loop as a left fold of [line_step]. *)
Fixpoint run_lines (st : PassState) (lineno : nat)
    (rows : list (list Token * Z)) : PassState :=
  match rows with
  | [] => st
  | (toks, indent) :: rest =>
    run_lines
      (match _significant_tokens toks with
       | [] => st
       | _ :: _ => line_step (_significant_tokens toks) lineno indent st
       end) (S lineno) rest
  end.

Definition row_step (st : PassState) (lineno : nat) (row : list Token * Z)
    : PassState :=
  match _significant_tokens row.1 with
  | [] => st
  | _ :: _ => line_step (_significant_tokens row.1) lineno row.2 st
  end.

Lemma row_step_valid st lineno row :
  refs_valid st → refs_valid (row_step st lineno row).
Proof.
  intros Hvalid. unfold row_step.
  destruct (_significant_tokens row.1); [done|]. by apply line_step_valid.
Qed.

Lemma run_lines_cons st lineno row rest :
  run_lines st lineno (row :: rest) =
    run_lines (row_step st lineno row) (S lineno) rest.
Proof. by destruct row. Qed.

Lemma run_lines_snoc rows : ∀ st lineno row,
  run_lines st lineno (rows ++ [row]) =
    row_step (run_lines st lineno rows) (lineno + length rows) row.
Proof.
  induction rows as [|r rows IH]; intros st lineno row.
  - rewrite app_nil_l, run_lines_cons. simpl. by rewrite Nat.add_0_r.
  - rewrite <- app_comm_cons, !run_lines_cons, IH. simpl length.
    by rewrite Nat.add_succ_r.
Qed.

Lemma run_lines_valid rows : ∀ st lineno,
  refs_valid st → refs_valid (run_lines st lineno rows).
Proof.
  induction rows as [|row rows IH]; intros st lineno Hvalid; [done|].
  rewrite run_lines_cons. apply IH. by apply row_step_valid.
Qed.

Lemma pass_loop_run line_indents all_tokens : ∀ k st,
  refs_valid st →
  k + length all_tokens = length line_indents →
  pass_loop line_indents st k all_tokens =
    Some (run_lines st k (zip all_tokens (drop k line_indents))).
Proof.
  induction all_tokens as [|toks rest IH]; intros k st Hvalid Hlen.
  - done.
  - simpl in Hlen.
    destruct (lookup_lt_is_Some_2 line_indents k) as [indent Hi]; [lia|].
    simpl. rewrite (pass_line_step _ _ _ _ indent) by done. simpl.
    rewrite (drop_S _ _ _ Hi). simpl.
    apply IH; [|lia].
    apply (row_step_valid st k (toks, indent) Hvalid).
Qed.

(** The lines of a document, their tokens and their indentations. *)
Definition doc_tokens (raw_lines : list str) : list (list Token) :=
  imap (λ lineno line, tokenize_line line (Z.of_nat lineno)) raw_lines.

Definition doc_rows (raw_lines : list str) : list (list Token * Z) :=
  zip (doc_tokens raw_lines) (measure_indent <$> raw_lines).

Definition final_state (raw_lines : list str) : PassState :=
  close_at_end (length raw_lines)
    (run_lines initial_state 0 (doc_rows raw_lines)).

(** The document of a source text. *)
Definition parsed (source : str) : ParsedDocument :=
  mkParsedDocument (doc_tokens (split_lines source))
    (omap (λ r, ps_store (final_state (split_lines source)) !! r)
       (ps_functions (final_state (split_lines source))))
    (ps_variables (final_state (split_lines source)))
    (measure_indent <$> split_lines source)
    (split_lines source).

Lemma parse_document_eq source : parse_document source = Some (parsed source).
Proof.
  unfold parse_document, parsed.
  pose proof (pass_loop_run (measure_indent <$> split_lines source)
                (doc_tokens (split_lines source)) 0 initial_state
                refs_valid_initial) as Hrun.
  rewrite drop_0 in Hrun.
  fold (doc_tokens (split_lines source)).
  rewrite Hrun; [done|].
  unfold doc_tokens. by rewrite length_imap, length_fmap.
Qed.

Lemma split_lines_nonempty source : split_lines source ≠ [].
Proof.
  unfold split_lines.
  by destruct (if bool_decide _ then _ else _).
Qed.

(** ** Function extents *)

Lemma run_lines_invariant (P : nat → PassState → Prop) rows :
  ∀ k0 st0,
  P k0 st0 →
  (∀ k row st, rows !! k = Some row → P (k0 + k) st →
     P (S (k0 + k)) (row_step st (k0 + k) row)) →
  P (k0 + length rows) (run_lines st0 k0 rows).
Proof.
  induction rows as [|row rows IH]; intros k0 st0 H0 Hstep.
  - simpl. by rewrite Nat.add_0_r.
  - rewrite run_lines_cons. simpl length.
    replace (k0 + S (length rows)) with (S k0 + length rows) by lia.
    apply IH.
    + specialize (Hstep 0 row st0 eq_refl). rewrite Nat.add_0_r in Hstep.
      by apply Hstep.
    + intros k row' st Hrow HP.
      replace (S k0 + k) with (k0 + S k) in * by lia.
      by apply Hstep.
Qed.

Lemma set_end_line_twice v w f :
  set_end_line v (set_end_line w f) = set_end_line v f.
Proof. done. Qed.

Lemma _parse_func_header_Some sig lineno indent f :
  _parse_func_header sig lineno indent = Some f →
  fd_line f = lineno ∧ fd_end_line f = lineno
  ∧ fd_body_indent f = (indent + 4)%Z
  ∧ ∃ name_tok, sig !! 1 = Some name_tok ∧ tok_type name_tok = IDENTIFIER
                ∧ fd_name f = tok_value name_tok ∧ fd_col f = tok_col name_tok.
Proof.
  unfold _parse_func_header. destruct (_ <? _); [done|].
  destruct sig as [|sig0 [|name_tok sig']]; [done..|].
  destruct (bool_decide (tok_type name_tok = IDENTIFIER)) eqn:Hid; [|done].
  apply bool_decide_eq_true in Hid. simpl.
  destruct (find_paren_open _ _); [|done]. intros [= <-]. simpl.
  repeat split; try done. by exists name_tok.
Qed.

Definition row_sig (row : list Token * Z) : list Token :=
  _significant_tokens row.1.

(** A line that carries at least one token other than whitespace and
    comments. *)
Definition significant_row (row : list Token * Z) : bool :=
  match row_sig row with
  | [] => false
  | _ :: _ => true
  end.

(** A line that the pass recognises as a function header. *)
Definition registers_header (k : nat) (row : list Token * Z) : bool :=
  match row_sig row with
  | [] => false
  | sig0 :: _ =>
    is_function_keyword sig0
    && bool_decide (is_Some (_parse_func_header (row_sig row) (Z.of_nat k)
                               row.2))
  end.

Section extents.
Variable rows : list (list Token * Z).

(** Every significant line strictly between [L] and [k] is indented more
    than [d]. *)
Definition deeper_between (L : nat) (d : Z) (k : nat) : Prop :=
  ∀ j row, L < j < k → rows !! j = Some row →
    significant_row row = true → (d < row.2)%Z.

Definition no_header_between (L k : nat) : Prop :=
  ∀ j row, L < j < k → rows !! j = Some row → registers_header j row = false.

(** What ends the extent at [E] before the end of the document: the next
    line is significant and not indented more than [d], or line [E] is
    itself a recognised header inside the body. *)
Definition closing_cause (L : nat) (d : Z) (E : nat) : Prop :=
  (∃ row, rows !! S E = Some row ∧ significant_row row = true
          ∧ (row.2 ≤ d)%Z)
  ∨ (L < E ∧ ∃ row, rows !! E = Some row ∧ registers_header E row = true).

(** [f] was created from the header on line [L], of indentation [d]. *)
Definition header_of (f : FuncDef) (L : nat) (d : Z) : Prop :=
  ∃ row, rows !! L = Some row ∧ row.2 = d
         ∧ registers_header L row = true
         ∧ _parse_func_header (row_sig row) (Z.of_nat L) d
           = Some (set_end_line (Z.of_nat L) f).

Definition closed_extent (f : FuncDef) (L : nat) (d : Z) (k : nat) : Prop :=
  ∃ E, fd_end_line f = Z.of_nat E ∧ L ≤ E < k
       ∧ deeper_between L d (S E) ∧ no_header_between L E
       ∧ closing_cause L d E.

Definition open_extent (st : PassState) (L : nat) (d : Z) (k : nat)
    : Prop :=
  ps_func_indent st = d ∧ deeper_between L d k ∧ no_header_between L k.

(** The invariant of the pass before line [k]. *)
Definition extent_inv (k : nat) (st : PassState) : Prop :=
  refs_valid st
  ∧ ∀ r f, ps_store st !! r = Some f →
      ∃ L d, header_of f L d ∧ L < k
             ∧ ((ps_current_func st = Some r ∧ open_extent st L d k)
                ∨ (ps_current_func st ≠ Some r ∧ closed_extent f L d k)).

(** The same, after [update_extent] on a significant line [k]. *)
Definition extent_mid (k : nat) (st : PassState) : Prop :=
  refs_valid st
  ∧ ∀ r f, ps_store st !! r = Some f →
      ∃ L d, header_of f L d ∧ L < k
             ∧ ((ps_current_func st = Some r ∧ ps_func_indent st = d
                 ∧ deeper_between L d (S k) ∧ no_header_between L k
                 ∧ fd_end_line f = Z.of_nat k)
                ∨ (ps_current_func st ≠ Some r ∧ closed_extent f L d k)).

Lemma header_of_set_end_line v f L d :
  header_of f L d → header_of (set_end_line v f) L d.
Proof. intros (row & ? & ? & ? & ?). by exists row. Qed.

Lemma deeper_between_S L d k row :
  rows !! k = Some row →
  (significant_row row = true → (d < row.2)%Z) →
  deeper_between L d k → deeper_between L d (S k).
Proof.
  intros Hrow Hdeep Hbetween j row' Hj Hrow' Hsig.
  destruct (decide (j = k)) as [->|Hne].
  - rewrite Hrow in Hrow'. injection Hrow' as <-. by apply Hdeep.
  - apply (Hbetween j); [lia|done..].
Qed.

Lemma no_header_between_S L k row :
  rows !! k = Some row → registers_header k row = false →
  no_header_between L k → no_header_between L (S k).
Proof.
  intros Hrow Hno Hbetween j row' Hj Hrow'.
  destruct (decide (j = k)) as [->|Hne].
  - rewrite Hrow in Hrow'. by injection Hrow' as <-.
  - apply (Hbetween j); [lia|done].
Qed.

Lemma deeper_between_mono L d k k' :
  k' ≤ k → deeper_between L d k → deeper_between L d k'.
Proof. intros Hk H j row Hj. apply H. lia. Qed.

Lemma no_header_between_mono L k k' :
  k' ≤ k → no_header_between L k → no_header_between L k'.
Proof. intros Hk H j row Hj. apply H. lia. Qed.

Lemma closed_extent_mono f L d k k' :
  k ≤ k' → closed_extent f L d k → closed_extent f L d k'.
Proof.
  intros Hk (E & HE & Hrange & Hrest). exists E.
  split; [done|]. split; [lia|done].
Qed.

Lemma update_extent_mid k row st :
  rows !! k = Some row → significant_row row = true →
  extent_inv k st → extent_mid k (update_extent k row.2 st).
Proof.
  intros Hrow Hsig [Hvalid Hinv].
  split; [by apply update_extent_valid|].
  unfold update_extent.
  destruct (ps_current_func st) as [r0|] eqn:Hcur.
  2:{ intros r f Hf. destruct (Hinv r f Hf) as (L & d & Hhead & HL & Hcase).
      exists L, d. repeat split; try done.
      destruct Hcase as [[Hr _]|Hclosed]; [congruence|].
      right. by rewrite Hcur. }
  destruct (row.2 <=? ps_func_indent st)%Z eqn:Hle; simpl; intros r f Hf.
  - apply Z.leb_le in Hle.
    destruct (decide (r = r0)) as [->|Hne].
    + rewrite list_lookup_alter_eq in Hf.
      destruct (ps_store st !! r0) as [f0|] eqn:Hf0; [|done].
      injection Hf as <-.
      destruct (Hinv r0 f0 Hf0) as (L & d & Hhead & HL & Hcase).
      exists L, d. split; [by apply header_of_set_end_line|].
      split; [done|]. right. split; [done|].
      destruct Hcase as [[_ (Hind & Hdeep & Hno)]|[Hr _]]; [|congruence].
      exists (k - 1). simpl. split; [lia|]. split; [lia|].
      replace (S (k - 1)) with k by lia. split; [done|].
      split; [by apply (no_header_between_mono L k); [lia|]|].
      left. replace (S (k - 1)) with k by lia.
      exists row. repeat split; try done. lia.
    + rewrite list_lookup_alter_ne in Hf by done.
      destruct (Hinv r f Hf) as (L & d & Hhead & HL & Hcase).
      exists L, d. repeat split; try done. right. split; [done|].
      destruct Hcase as [[Hr _]|[_ Hclosed]]; [congruence|done].
  - apply Z.leb_gt in Hle.
    destruct (decide (r = r0)) as [->|Hne].
    + rewrite list_lookup_alter_eq in Hf.
      destruct (ps_store st !! r0) as [f0|] eqn:Hf0; [|done].
      injection Hf as <-.
      destruct (Hinv r0 f0 Hf0) as (L & d & Hhead & HL & Hcase).
      exists L, d. split; [by apply header_of_set_end_line|].
      split; [done|]. left.
      destruct Hcase as [[_ (Hind & Hdeep & Hno)]|[Hr _]]; [|congruence].
      repeat split; try done.
      apply (deeper_between_S L d k row); [done| |done]. intros _. lia.
    + rewrite list_lookup_alter_ne in Hf by done.
      destruct (Hinv r f Hf) as (L & d & Hhead & HL & Hcase).
      exists L, d. repeat split; try done. right.
      destruct Hcase as [[Hr _]|[_ Hclosed]]; [congruence|].
      split; [congruence|done].
Qed.
Lemma extent_mid_assign k row st vars :
  rows !! k = Some row → registers_header k row = false →
  extent_mid k st →
  extent_inv (S k)
    (mkPassState (ps_store st) (ps_functions st) vars (ps_current_func st)
       (ps_func_indent st)).
Proof.
  intros Hrow Hno [Hvalid Hmid]. split; [by destruct Hvalid|].
  simpl. intros r f Hf.
  destruct (Hmid r f Hf) as (L & d & Hhead & HL & Hcase).
  exists L, d. split; [done|]. split; [lia|].
  destruct Hcase as [(Hr & Hind & Hdeep & Hnone & _)|[Hr Hclosed]].
  - left. split; [done|]. split; [done|]. split; [done|].
    by apply (no_header_between_S L k row).
  - right. split; [done|]. apply (closed_extent_mono f L d k); [lia|done].
Qed.

Lemma line_step_inv k row st :
  rows !! k = Some row → significant_row row = true →
  extent_inv k st →
  extent_inv (S k) (line_step (row_sig row) k row.2 st).
Proof.
  intros Hrow Hsig Hinv.
  pose proof (update_extent_mid k row st Hrow Hsig Hinv) as Hmid.
  pose proof (line_step_valid (row_sig row) k row.2 st (proj1 Hinv))
    as Hvalid.
  revert Hvalid. unfold line_step.
  set (st1 := update_extent k row.2 st) in *.
  unfold significant_row in Hsig.
  destruct (row_sig row) as [|sig0 sig'] eqn:Hrs; [done|].
  change (head (sig0 :: sig')) with (Some sig0). cbv beta iota zeta.
  destruct (is_function_keyword sig0) eqn:Hkw.
  2:{ intros _. apply (extent_mid_assign k row); [done| |done].
      unfold registers_header. by rewrite Hrs, Hkw. }
  destruct (_parse_func_header (sig0 :: sig') (Z.of_nat k) row.2)
    as [func_def|] eqn:Hparse.
  2:{ intros _. apply (extent_mid_assign k row); [done| |done].
      unfold registers_header. by rewrite Hrs, Hkw, Hparse. }
  assert (registers_header k row = true) as Hreg.
  { unfold registers_header. by rewrite Hrs, Hkw, Hparse. }
  intros Hvalid. split; [done|]. simpl. intros r f Hf.
  destruct Hmid as [Hvalid1 Hmid].
  destruct (decide (r < length (ps_store st1))) as [Hlt|Hge].
  - rewrite lookup_app_l in Hf by done.
    destruct (Hmid r f Hf) as (L & d & Hhead & HL & Hcase).
    exists L, d. split; [done|]. split; [lia|]. right.
    split; [intros [= Hr]; lia|].
    destruct Hcase as [(Hr & Hind & Hdeep & Hnone & Hend)|[Hr Hclosed]].
    + exists k. split; [done|]. split; [lia|]. split; [done|].
      split; [done|]. right. split; [done|]. by exists row.
    + apply (closed_extent_mono f L d k); [lia|done].
  - pose proof (lookup_lt_Some _ _ _ Hf) as Hbound.
    rewrite length_app in Hbound. simpl in Hbound.
    assert (r = length (ps_store st1)) as -> by lia.
    rewrite lookup_app_r, Nat.sub_diag in Hf by lia.
    injection Hf as <-.
    exists k, row.2. split; [|split; [lia|]].
    + exists row. repeat split; try done. rewrite Hrs, Hparse. f_equal.
      apply _parse_func_header_Some in Hparse as (_ & Hend & _).
      destruct func_def. simpl in *. by subst.
    + left. split; [done|]. split; [done|].
      split; intros j row' Hj; lia.
Qed.

Lemma row_step_inv k row st :
  rows !! k = Some row → extent_inv k st →
  extent_inv (S k) (row_step st k row).
Proof.
  intros Hrow Hinv. unfold row_step.
  destruct (_significant_tokens row.1) as [|sig0 sig'] eqn:Hrs.
  - destruct Hinv as [Hvalid Hinv]. split; [done|]. intros r f Hf.
    destruct (Hinv r f Hf) as (L & d & Hhead & HL & Hcase).
    exists L, d. split; [done|]. split; [lia|].
    destruct Hcase as [(Hr & Hind & Hdeep & Hnone)|[Hr Hclosed]].
    + left. split; [done|]. split; [done|]. split.
      * apply (deeper_between_S L d k row); [done| |done].
        unfold significant_row, row_sig. by rewrite Hrs.
      * apply (no_header_between_S L k row); [done| |done].
        unfold registers_header, row_sig. by rewrite Hrs.
    + right. split; [done|].
      apply (closed_extent_mono f L d k); [lia|done].
  - rewrite <- Hrs. apply line_step_inv; [done| |done].
    unfold significant_row, row_sig. by rewrite Hrs.
Qed.

(** The extent recorded for [f] at the end of the pass. *)
Definition final_extent (f : FuncDef) : Prop :=
  ∃ L d E,
    header_of f L d ∧ fd_end_line f = Z.of_nat E ∧ L ≤ E < length rows
    ∧ deeper_between L d (S E) ∧ no_header_between L E
    ∧ (S E = length rows ∨ closing_cause L d E).

Lemma final_store_extent r f :
  ps_store (close_at_end (length rows) (run_lines initial_state 0 rows))
    !! r = Some f →
  final_extent f.
Proof.
  pose proof (run_lines_invariant extent_inv rows 0 initial_state) as Hrun.
  simpl in Hrun. destruct Hrun as [Hvalid Hinv].
  { split; [apply refs_valid_initial|]. by intros r' f' Hf'. }
  { intros k row st Hrow. by apply row_step_inv. }
  set (st := run_lines initial_state 0 rows) in *.
  unfold close_at_end.
  destruct (ps_current_func st) as [r0|] eqn:Hcur; simpl.
  - destruct (decide (r = r0)) as [->|Hne].
    + rewrite list_lookup_alter_eq.
      destruct (ps_store st !! r0) as [f0|] eqn:Hf0; [|done].
      intros [= <-].
      destruct (Hinv r0 f0 Hf0) as (L & d & Hhead & HL & Hcase).
      destruct Hcase as [(_ & _ & Hdeep & Hnone)|[Hr _]]; [|congruence].
      exists L, d, (length rows - 1).
      split; [by apply header_of_set_end_line|]. simpl.
      split; [lia|]. split; [lia|].
      replace (S (length rows - 1)) with (length rows) by lia.
      split; [done|].
      split; [by apply (no_header_between_mono L (length rows)); [lia|]|].
      by left.
    + rewrite list_lookup_alter_ne by done. intros Hf.
      destruct (Hinv r f Hf) as (L & d & Hhead & HL & Hcase).
      destruct Hcase as [[Hr _]|[_ (E & HE & Hrange & Hdeep & Hnone & Hc)]];
        [congruence|].
      exists L, d, E. repeat split; try done; try lia. by right.
  - intros Hf.
    destruct (Hinv r f Hf) as (L & d & Hhead & HL & Hcase).
    destruct Hcase as [[Hr _]|[_ (E & HE & Hrange & Hdeep & Hnone & Hc)]];
      [congruence|].
    exists L, d, E. repeat split; try done; try lia. by right.
Qed.
End extents.

Lemma length_doc_rows raw_lines : length (doc_rows raw_lines) = length raw_lines.
Proof.
  unfold doc_rows, doc_tokens.
  rewrite length_zip_with, length_imap, length_fmap. lia.
Qed.

Lemma parsed_function_extent source doc name f :
  parse_document source = Some doc →
  functions doc !! name = Some f →
  final_extent (zip (tokens doc) (line_indents doc)) f
  ∧ length (zip (tokens doc) (line_indents doc)) = length (lines doc).
Proof.
  rewrite parse_document_eq. intros [= <-]. unfold parsed. simpl.
  rewrite lookup_omap. fold (doc_rows (split_lines source)).
  rewrite length_doc_rows.
  destruct (ps_functions _ !! name) as [r|]; [|done]. simpl.
  unfold final_state. rewrite <- (length_doc_rows (split_lines source)).
  intros Hf. split; [|done]. by apply (final_store_extent _ r).
Qed.

Lemma final_extent_unique rows L d E1 E2 :
  E1 < length rows → E2 < length rows →
  deeper_between rows L d (S E1) → no_header_between rows L E1 →
  (S E1 = length rows ∨ closing_cause rows L d E1) →
  deeper_between rows L d (S E2) → no_header_between rows L E2 →
  (S E2 = length rows ∨ closing_cause rows L d E2) →
  L ≤ E1 → L ≤ E2 → E1 = E2.
Proof.
  assert (∀ a b, a < b → b < length rows → L ≤ a →
    (S a = length rows ∨ closing_cause rows L d a) →
    deeper_between rows L d (S b) → no_header_between rows L b → False)
    as Hlt.
  { intros a b Hab Hb HLa Hcause Hdeep Hnone.
    destruct Hcause as [Hend|[(row & Hrow & Hsig & Hle)|(HL & row & Hrow & Hreg)]].
    - lia.
    - pose proof (Hdeep (S a) row ltac:(lia) Hrow Hsig). lia.
    - pose proof (Hnone a row ltac:(lia) Hrow). congruence. }
  intros H1 H2 Hd1 Hn1 Hc1 Hd2 Hn2 Hc2 HL1 HL2.
  destruct (lt_eq_lt_dec E1 E2) as [[Hcmp|Hcmp]|Hcmp]; [|done|].
  - exfalso. by apply (Hlt E1 E2).
  - exfalso. by apply (Hlt E2 E1).
Qed.

(** C9. Every function of the function table starts at its declaration line
    and ends at a line of the document:
    [line <= end_line <= (number of lines) - 1]. *)
Theorem function_extent_within_document (source : str) (doc : ParsedDocument)
    (name : str) (f : FuncDef) :
  parse_document source = Some doc →
  functions doc !! name = Some f →
  (fd_line f ≤ fd_end_line f ≤ Z.of_nat (length (lines doc)) - 1)%Z.
Proof.
  intros Hdoc Hf.
  destruct (parsed_function_extent source doc name f Hdoc Hf)
    as [(L & d & E & Hhead & HE & Hrange & _) Hlen].
  destruct Hhead as (row & _ & _ & _ & Hparse).
  apply _parse_func_header_Some in Hparse as (Hline & _). simpl in Hline.
  lia.
Qed.

(** The claim's words for [bodyEndLine]: the last line of the run of lines
    that follow line [L] and are indented more than line [L] (line [L] itself
    when the run is empty). *)
Fixpoint block_end_loop (d : Z) (indents_after : list Z) (k last : nat)
    : nat :=
  match indents_after with
  | indent :: rest =>
    if (d <? indent)%Z then block_end_loop d rest (S k) k else last
  | [] => last
  end.

Definition indented_block_end (indents : list Z) (L : nat) : option nat :=
  d ← indents !! L;
  Some (block_end_loop d (drop (S L) indents) (S L) L).

(** C3 (amended). For every function [f] of the function table, created from
    the header on line [L] with indentation [d], the recorded [end_line] is
    the line [E] with [L <= E < number of lines] such that every significant
    line (one with a token other than whitespace and comments) in [(L, E]] is
    indented more than [d], no line in [(L, E)] is a recognised function
    header, and [E] is the last line of the document, or line [E + 1] is
    significant and indented at most [d], or [E > L] is itself a recognised
    function header. Blank and comment-only lines neither end nor extend the
    body. [E] is the only line with these properties. *)
Theorem function_body_end (source : str) (doc : ParsedDocument) (name : str)
    (f : FuncDef) :
  parse_document source = Some doc →
  functions doc !! name = Some f →
  ∃ L d E,
    header_of (zip (tokens doc) (line_indents doc)) f L d
    ∧ fd_line f = Z.of_nat L ∧ fd_end_line f = Z.of_nat E
    ∧ L ≤ E < length (lines doc)
    ∧ deeper_between (zip (tokens doc) (line_indents doc)) L d (S E)
    ∧ no_header_between (zip (tokens doc) (line_indents doc)) L E
    ∧ (S E = length (lines doc)
       ∨ closing_cause (zip (tokens doc) (line_indents doc)) L d E)
    ∧ ∀ E', L ≤ E' < length (lines doc) →
        deeper_between (zip (tokens doc) (line_indents doc)) L d (S E') →
        no_header_between (zip (tokens doc) (line_indents doc)) L E' →
        S E' = length (lines doc)
        ∨ closing_cause (zip (tokens doc) (line_indents doc)) L d E' →
        E' = E.
Proof.
  intros Hdoc Hf.
  destruct (parsed_function_extent source doc name f Hdoc Hf)
    as [(L & d & E & Hhead & HE & Hrange & Hdeep & Hnone & Hcause) Hlen].
  rewrite Hlen in *.
  exists L, d, E. split; [done|]. split.
  { destruct Hhead as (row & _ & _ & _ & Hparse).
    by apply _parse_func_header_Some in Hparse as (Hline & _). }
  repeat split; try done; try lia.
  intros E' HE' Hdeep' Hnone' Hcause'.
  apply (final_extent_unique (zip (tokens doc) (line_indents doc)) L d);
    rewrite ?Hlen; try done; lia.
Qed.

Definition nl : str := [ch_newline].

(** A header, one body line, a blank line and a dedented line. *)
Definition blank_line_document : str :=
  Eval vm_compute in
  u "कार्यम् f(a):" ++ nl ++ u "    x = 1" ++ nl ++ nl ++ u "y = 2".

(** C3 (as stated) fails: in [blank_line_document] the function on line 0
    is recorded with [end_line = 2], the blank line of indentation 0, whereas
    the block of lines indented more than the header ends at line 1. *)
Lemma function_body_end_counterexample :
  ¬ (∀ source doc name f,
       parse_document source = Some doc →
       functions doc !! name = Some f →
       Some (fd_end_line f) =
         Z.of_nat <$> indented_block_end (line_indents doc)
                        (Z.to_nat (fd_line f))).
Proof.
  intros Hclaim.
  destruct (parse_document blank_line_document) as [doc|] eqn:Hdoc;
    [|by vm_compute in Hdoc].
  destruct (functions doc !! [102%N]) as [f|] eqn:Hf.
  - specialize (Hclaim _ _ _ _ Hdoc Hf).
    vm_compute in Hdoc. injection Hdoc as <-.
    vm_compute in Hf. injection Hf as <-.
    vm_compute in Hclaim. discriminate.
  - vm_compute in Hdoc. injection Hdoc as <-. vm_compute in Hf. discriminate.
Qed.

(** ** The variable table *)

(** A scope is the global scope or a function, named by the function. *)
Inductive Scope := Global | InFunction (name : str).

#[global] Instance Scope_eq_dec : EqDecision Scope.
Proof. solve_decision. Defined.

Definition scope_name (s : Scope) : str :=
  match s with
  | Global => scope_global
  | InFunction name => name
  end.

(** The key of a variable: ['scope:name'] in a function, [name] globally. *)
Definition var_key (s : Scope) (name : str) : str :=
  match s with
  | Global => name
  | InFunction scope => scope ++ [ch_colon] ++ name
  end.

(** A registration: an attempt of the pass to record a variable. *)
Record Registration := mkRegistration {
  reg_scope : Scope;
  reg_name : str;
  reg_line : Z;
  reg_col : Z
}.

Definition reg_key (r : Registration) : str :=
  var_key (reg_scope r) (reg_name r).

Definition reg_def (r : Registration) : VarDef :=
  mkVarDef (reg_name r) (reg_line r) (reg_col r) (scope_name (reg_scope r)).

(** [if key not in variables: variables[key] = ...] *)
Definition register (variables : gmap str VarDef) (r : Registration)
    : gmap str VarDef :=
  match variables !! reg_key r with
  | None => <[reg_key r := reg_def r]> variables
  | Some _ => variables
  end.

Definition param_registration (func_def : FuncDef) (p : ParamInfo)
    : Registration :=
  mkRegistration (InFunction (fd_name func_def)) (param_name p)
    (param_line p) (param_col p).

(** An assignment line: at least three significant tokens, the first an
    identifier and the second the operator [=]. *)
Definition assignment_of (sig : list Token) (lineno : Z) (scope : Scope)
    : option Registration :=
  match sig with
  | sig0 :: sig1 :: _ :: _ =>
    if bool_decide (tok_type sig0 = IDENTIFIER)
       && bool_decide (tok_type sig1 = OPERATOR)
       && bool_decide (tok_value sig1 = [ch_equals]) then
      Some (mkRegistration scope (tok_value sig0) lineno (tok_col sig0))
    else None
  | _ => None
  end.

Definition scope_of (current_func : option FuncDef) : Scope :=
  match current_func with
  | Some f => InFunction (fd_name f)
  | None => Global
  end.

(** The scope the pass has resolved in state [st]. *)
Definition current_scope (st : PassState) : Scope :=
  scope_of (ps_current_func st ≫= λ r, ps_store st !! r).

(** The registrations of line [k], met in state [st]: the parameters of a
    recognised header, or the variable of an assignment line in the scope
    resolved for the line. *)
Definition line_registrations (st : PassState) (k : nat)
    (row : list Token * Z) : list Registration :=
  match row_sig row with
  | [] => []
  | sig0 :: _ =>
    match (if is_function_keyword sig0
           then _parse_func_header (row_sig row) (Z.of_nat k) row.2
           else None) with
    | Some func_def => param_registration func_def <$> fd_params func_def
    | None =>
      option_list
        (assignment_of (row_sig row) (Z.of_nat k)
           (current_scope (update_extent k row.2 st)))
    end
  end.

(** All registrations of the lines [rows], numbered from [k], in order. *)
Fixpoint registrations_from (st : PassState) (k : nat)
    (rows : list (list Token * Z)) : list Registration :=
  match rows with
  | [] => []
  | row :: rest =>
    line_registrations st k row
      ++ registrations_from (row_step st k row) (S k) rest
  end.

Definition registrations (rows : list (list Token * Z)) : list Registration :=
  registrations_from initial_state 0 rows.

Lemma register_params_fold func_def variables :
  register_params func_def variables =
    fold_left register (param_registration func_def <$> fd_params func_def)
      variables.
Proof.
  unfold register_params. generalize (fd_params func_def) as params.
  intros params. revert variables.
  induction params as [|p params IH]; intros variables; [done|].
  simpl. apply IH.
Qed.

Lemma _extract_assignment_register sig lineno indent variables current_func :
  _extract_assignment sig lineno indent variables current_func =
    fold_left register
      (option_list (assignment_of sig lineno (scope_of current_func)))
      variables.
Proof.
  unfold _extract_assignment, assignment_of.
  destruct sig as [|sig0 [|sig1 [|sig2 sig']]]; try done.
  replace (length (sig0 :: sig1 :: sig2 :: sig') <? 3) with false
    by (symmetry; apply Nat.ltb_ge; simpl; lia).
  destruct (bool_decide (tok_type sig0 = IDENTIFIER)
            && bool_decide (tok_type sig1 = OPERATOR)
            && bool_decide (tok_value sig1 = [ch_equals])); [|done].
  simpl. unfold register, reg_key, reg_def. simpl.
  by destruct current_func.
Qed.

Lemma row_step_variables st k row :
  ps_variables (row_step st k row) =
    fold_left register (line_registrations st k row) (ps_variables st).
Proof.
  unfold row_step, line_registrations, row_sig, line_step.
  destruct (_significant_tokens row.1) as [|sig0 sig'] eqn:Hsig; [done|].
  change (head (sig0 :: sig')) with (Some sig0). cbv beta iota zeta.
  destruct (is_function_keyword sig0).
  - destruct (_parse_func_header _ _ _) as [func_def|]; simpl.
    + by rewrite register_params_fold, update_extent_variables.
    + by rewrite _extract_assignment_register, update_extent_variables.
  - simpl. by rewrite _extract_assignment_register, update_extent_variables.
Qed.

Lemma run_lines_variables rows : ∀ st k,
  ps_variables (run_lines st k rows) =
    fold_left register (registrations_from st k rows) (ps_variables st).
Proof.
  induction rows as [|row rows IH]; intros st k; [done|].
  rewrite run_lines_cons, IH, row_step_variables. simpl.
  by rewrite fold_left_app.
Qed.

Lemma close_at_end_variables n st :
  ps_variables (close_at_end n st) = ps_variables st.
Proof. unfold close_at_end. by destruct (ps_current_func st). Qed.

(** The first registration for a key wins. *)
Lemma fold_register_lookup regs : ∀ variables key,
  fold_left register regs variables !! key =
    match variables !! key with
    | Some v => Some v
    | None => reg_def <$> head (filter (λ r, reg_key r = key) regs)
    end.
Proof.
  induction regs as [|r regs IH]; intros variables key.
  - simpl. by destruct (variables !! key).
  - simpl. rewrite IH. unfold register.
    destruct (decide (reg_key r = key)) as [Hkey|Hkey].
    + rewrite filter_cons_True by done. simpl. subst key.
      destruct (variables !! reg_key r) as [v|] eqn:Hv.
      * by rewrite Hv.
      * by rewrite lookup_insert_eq.
    + rewrite filter_cons_False by done.
      destruct (variables !! reg_key r) as [v|] eqn:Hv; [done|].
      by rewrite lookup_insert_ne.
Qed.

Lemma app_colon_inj (a b x y : str) :
  ch_colon ∉ a → ch_colon ∉ b →
  a ++ [ch_colon] ++ x = b ++ [ch_colon] ++ y → a = b ∧ x = y.
Proof.
  revert b. induction a as [|c a IH]; intros [|c' b] Ha Hb Heq; simpl in *.
  - by injection Heq as ->.
  - injection Heq as <- _. exfalso. apply Hb. by left.
  - injection Heq as -> _. exfalso. apply Ha. by left.
  - injection Heq as -> Heq.
    destruct (IH b) as [-> ->]; [| |done..].
    + intros Hin. apply Ha. by right.
    + intros Hin. apply Hb. by right.
Qed.

Definition colon_free_scope (s : Scope) : Prop :=
  match s with
  | Global => True
  | InFunction name => ch_colon ∉ name
  end.

(** On names without a colon, distinct (scope, name) pairs have distinct
    keys. *)
Lemma var_key_inj s x s' x' :
  colon_free_scope s → ch_colon ∉ x →
  colon_free_scope s' → ch_colon ∉ x' →
  var_key s x = var_key s' x' → s = s' ∧ x = x'.
Proof.
  intros Hs Hx Hs' Hx'.
  destruct s as [|f], s' as [|f']; simpl in *; intros Heq.
  - done.
  - subst x. exfalso. apply Hx. rewrite elem_of_app. right. by left.
  - subst x'. exfalso. apply Hx'. rewrite elem_of_app. right. by left.
  - by destruct (app_colon_inj f f' x x' Hs Hs' Heq) as [-> ->].
Qed.

Lemma doc_rows_lookup raw_lines k row :
  doc_rows raw_lines !! k = Some row →
  ∃ line, raw_lines !! k = Some line
          ∧ row = (tokenize_line line (Z.of_nat k), measure_indent line).
Proof.
  unfold doc_rows, doc_tokens.
  intros (toks & indent & -> & Htoks & Hindent)%lookup_zip_with_Some.
  rewrite list_lookup_imap in Htoks. rewrite list_lookup_fmap in Hindent.
  destruct (raw_lines !! k) as [line|]; [|done].
  injection Htoks as <-. injection Hindent as <-. by exists line.
Qed.

Definition store_colon_free (st : PassState) : Prop :=
  ∀ r f, ps_store st !! r = Some f → ch_colon ∉ fd_name f.

Definition reg_colon_free (r : Registration) : Prop :=
  (ch_colon ∉ reg_name r) ∧ colon_free_scope (reg_scope r).

Lemma _significant_tokens_Forall (P : Token → Prop) toks :
  Forall P toks → Forall P (_significant_tokens toks).
Proof.
  rewrite !Forall_forall. intros Hall t Hin. apply Hall.
  apply list_elem_of_In. apply list_elem_of_In in Hin.
  unfold _significant_tokens in Hin. by apply filter_In in Hin as [? _].
Qed.

Lemma collect_params_colon_free rest : ∀ params,
  Forall colon_free_identifier rest →
  Forall (λ p, ch_colon ∉ param_name p) params →
  Forall (λ p, ch_colon ∉ param_name p) (collect_params rest params).
Proof.
  induction rest as [|t rest IH]; intros params Hrest Hparams; [done|].
  apply Forall_cons in Hrest as [Ht Hrest]. simpl.
  destruct (bool_decide (tok_type t = PAREN_CLOSE)); [done|].
  destruct (bool_decide (tok_type t = IDENTIFIER)) eqn:Hid.
  - apply bool_decide_eq_true in Hid. apply IH; [done|].
    apply Forall_app. split; [done|]. constructor; [|done]. by apply Ht.
  - by apply IH.
Qed.

Lemma _parse_func_header_colon_free sig lineno indent f :
  Forall colon_free_identifier sig →
  _parse_func_header sig lineno indent = Some f →
  (ch_colon ∉ fd_name f)
  ∧ Forall (λ p, ch_colon ∉ param_name p) (fd_params f).
Proof.
  intros Hsig. unfold _parse_func_header. destruct (_ <? _); [done|].
  destruct sig as [|sig0 [|name_tok sig']]; [done..|].
  destruct (bool_decide (tok_type name_tok = IDENTIFIER)) eqn:Hid; [|done].
  apply bool_decide_eq_true in Hid. simpl.
  destruct (find_paren_open _ _) as [paren_idx|]; [|done].
  intros [= <-]. simpl. split.
  - apply Forall_cons in Hsig as [_ Hsig].
    apply Forall_cons in Hsig as [Hname _]. by apply Hname.
  - apply collect_params_colon_free; [|done]. by apply Forall_drop.
Qed.

Lemma update_extent_colon_free k indent st :
  store_colon_free st → store_colon_free (update_extent k indent st).
Proof.
  intros Hfree. unfold update_extent.
  destruct (ps_current_func st) as [r0|]; [|done].
  assert (∀ v r f, alter (set_end_line v) r0 (ps_store st) !! r = Some f →
                   ch_colon ∉ fd_name f) as Halter.
  { intros v r f. destruct (decide (r0 = r)) as [->|Hne].
    - rewrite list_lookup_alter_eq.
      destruct (ps_store st !! r) as [f0|] eqn:Hf0; [|done].
      intros [= <-]. simpl. by apply (Hfree r).
    - rewrite list_lookup_alter_ne by done. apply Hfree. }
  destruct (_ <=? _)%Z; intros r f; simpl; apply Halter.
Qed.

Lemma current_scope_colon_free st :
  store_colon_free st → colon_free_scope (current_scope st).
Proof.
  intros Hfree. unfold current_scope.
  destruct (ps_current_func st) as [r|]; [|done]. simpl.
  destruct (ps_store st !! r) as [f|] eqn:Hf; [|done]. simpl.
  by apply (Hfree r).
Qed.

Lemma assignment_of_colon_free sig lineno scope r :
  Forall colon_free_identifier sig → colon_free_scope scope →
  assignment_of sig lineno scope = Some r → reg_colon_free r.
Proof.
  intros Hsig Hscope. unfold assignment_of.
  destruct sig as [|sig0 [|sig1 [|sig2 sig']]]; try done.
  destruct (bool_decide (tok_type sig0 = IDENTIFIER)) eqn:Hid; [|done].
  apply bool_decide_eq_true in Hid. simpl.
  destruct (_ && _); [|done]. intros [= <-]. split; simpl; [|done].
  apply Forall_cons in Hsig as [Hname _]. by apply Hname.
Qed.

Lemma line_registrations_colon_free st k row :
  store_colon_free st → Forall colon_free_identifier row.1 →
  Forall reg_colon_free (line_registrations st k row).
Proof.
  intros Hfree Hrow. unfold line_registrations.
  pose proof (_significant_tokens_Forall _ _ Hrow) as Hsig.
  fold (row_sig row) in Hsig.
  destruct (row_sig row) as [|sig0 sig'] eqn:Hrs; [done|].
  destruct (if is_function_keyword sig0 then _ else _) as [func_def|] eqn:Hh.
  - destruct (is_function_keyword sig0); [|done].
    apply _parse_func_header_colon_free in Hh as [Hname Hparams]; [|done].
    apply Forall_fmap. eapply Forall_impl; [exact Hparams|].
    intros p Hp. by split.
  - destruct (assignment_of _ _ _) as [r|] eqn:Hassign; [|done].
    constructor; [|done].
    apply (assignment_of_colon_free _ _ _ _ Hsig) in Hassign; [done|].
    apply current_scope_colon_free. by apply update_extent_colon_free.
Qed.

Lemma row_step_colon_free st k row :
  store_colon_free st → Forall colon_free_identifier row.1 →
  store_colon_free (row_step st k row).
Proof.
  intros Hfree Hrow. unfold row_step, line_step.
  pose proof (_significant_tokens_Forall _ _ Hrow) as Hsig.
  pose proof (update_extent_colon_free k row.2 st Hfree) as Hfree1.
  destruct (_significant_tokens row.1) as [|sig0 sig'] eqn:Hrs; [done|].
  change (head (sig0 :: sig')) with (Some sig0). cbv beta iota zeta.
  destruct (is_function_keyword sig0); [|done].
  destruct (_parse_func_header _ _ _) as [func_def|] eqn:Hh; [|done].
  apply _parse_func_header_colon_free in Hh as [Hname _]; [|done].
  intros r f. simpl. intros [Hf|[_ Hf]]%lookup_app_Some.
  - by apply (Hfree1 r).
  - destruct (r - _); [|done]. by injection Hf as <-.
Qed.

Lemma registrations_from_colon_free rows : ∀ st k,
  store_colon_free st →
  Forall (λ row, Forall colon_free_identifier row.1) rows →
  Forall reg_colon_free (registrations_from st k rows).
Proof.
  induction rows as [|row rows IH]; intros st k Hfree Hrows; [done|].
  apply Forall_cons in Hrows as [Hrow Hrows]. simpl.
  apply Forall_app. split.
  - by apply line_registrations_colon_free.
  - apply IH; [|done]. by apply row_step_colon_free.
Qed.

Lemma doc_rows_colon_free raw_lines :
  Forall (λ row, Forall colon_free_identifier row.1) (doc_rows raw_lines).
Proof.
  apply Forall_lookup. intros k row Hrow.
  apply doc_rows_lookup in Hrow as (line & _ & ->). simpl.
  by destruct (tokenize_line_covers line (Z.of_nat k)) as (_ & _ & _ & ?).
Qed.

Lemma filter_ext_Forall {A} (P Q : A → Prop) `{∀ x, Decision (P x)}
    `{∀ x, Decision (Q x)} (l : list A) :
  Forall (λ x, P x ↔ Q x) l → filter P l = filter Q l.
Proof.
  induction 1 as [|x l Hx _ IH]; [done|].
  destruct (decide (P x)) as [HP|HP].
  - rewrite !filter_cons_True by tauto. by rewrite IH.
  - rewrite !filter_cons_False by tauto. done.
Qed.

Lemma parsed_variables source doc :
  parse_document source = Some doc →
  ∀ key,
    variables doc !! key =
      reg_def <$> head (filter (λ r, reg_key r = key)
                          (registrations (zip (tokens doc) (line_indents doc)))).
Proof.
  rewrite parse_document_eq. intros [= <-] key. unfold parsed. simpl.
  unfold final_state. rewrite close_at_end_variables, run_lines_variables.
  rewrite fold_register_lookup. simpl. by rewrite lookup_empty.
Qed.

Lemma parsed_registrations_colon_free source doc :
  parse_document source = Some doc →
  Forall reg_colon_free (registrations (zip (tokens doc) (line_indents doc))).
Proof.
  rewrite parse_document_eq. intros [= <-]. unfold parsed. simpl.
  apply registrations_from_colon_free; [done|]. apply doc_rows_colon_free.
Qed.

(** ** The scope of a line *)

Section scopes.
Variable rows : list (list Token * Z).

(** Line [k] lies in the body of the header on line [L]: that header is the
    last recognised one above [k], and every significant line after it, up
    to and including [k], is indented more than it. *)
Definition encloses (L k : nat) : Prop :=
  ∃ row, rows !! L = Some row ∧ L < k ∧ registers_header L row = true
    ∧ deeper_between rows L row.2 (S k) ∧ no_header_between rows L k.

(** The scope of line [k]: the function whose body the line lies in, or the
    global scope when it lies in none. *)
Definition scope_at (k : nat) (s : Scope) : Prop :=
  match s with
  | InFunction name =>
    ∃ L row f, encloses L k ∧ rows !! L = Some row
      ∧ _parse_func_header (row_sig row) (Z.of_nat L) row.2 = Some f
      ∧ fd_name f = name
  | Global => ∀ L, ¬ encloses L k
  end.

Definition no_open_header (k : nat) : Prop :=
  ∀ L row, L < k → rows !! L = Some row → registers_header L row = true →
    no_header_between rows L k → ¬ deeper_between rows L row.2 k.

Definition scope_inv (k : nat) (st : PassState) : Prop :=
  extent_inv rows k st ∧ (ps_current_func st = None → no_open_header k).

Lemma no_open_header_not_enclosed k :
  no_open_header k → ∀ L, ¬ encloses L k.
Proof.
  intros Hnone L (row & Hrow & HL & Hreg & Hdeep & Hno).
  apply (Hnone L row HL Hrow Hreg Hno).
  by apply (deeper_between_mono rows L row.2 (S k)); [lia|].
Qed.

Lemma not_enclosed_no_open_header k row :
  rows !! k = Some row → registers_header k row = false →
  (∀ L, ¬ encloses L k) → no_open_header (S k).
Proof.
  intros Hrow Hreg Hnot L rowL HL HrowL HregL Hno Hdeep.
  assert (L ≠ k) as Hne by (intros ->; congruence).
  apply (Hnot L). exists rowL. repeat split; try done; [lia|].
  by apply (no_header_between_mono rows L (S k)); [lia|].
Qed.

Lemma closing_not_enclosed k row st r0 :
  rows !! k = Some row → significant_row row = true →
  extent_inv rows k st → ps_current_func st = Some r0 →
  (row.2 ≤ ps_func_indent st)%Z →
  ∀ L, ¬ encloses L k.
Proof.
  intros Hrow Hsig [[Hcur _] Hinv] Hr0 Hle L
    (rowL & HrowL & HL & HregL & Hdeep & Hno).
  destruct (lookup_lt_is_Some_2 (ps_store st) r0 (Hcur r0 Hr0)) as [f0 Hf0].
  destruct (Hinv r0 f0 Hf0) as (L0 & d0 & Hhead & HL0 & Hcase).
  destruct Hcase as [(_ & Hind & Hdeep0 & Hno0)|[Hne _]]; [|done].
  destruct Hhead as (row0 & Hrow0 & Hd0 & Hreg0 & _).
  destruct (lt_eq_lt_dec L L0) as [[Hlt|Heq]|Hgt].
  - pose proof (Hno L0 row0 ltac:(lia) Hrow0). congruence.
  - subst L0. rewrite HrowL in Hrow0. injection Hrow0 as <-.
    pose proof (Hdeep k row ltac:(lia) Hrow Hsig). lia.
  - pose proof (Hno0 L rowL ltac:(lia) HrowL). congruence.
Qed.

(** The function that is current after [update_extent] on line [k] is the
    one whose body the line lies in. *)
Lemma update_extent_scope k row st :
  rows !! k = Some row → significant_row row = true → scope_inv k st →
  match ps_current_func (update_extent k row.2 st) with
  | Some r =>
    ∃ f L d, ps_store (update_extent k row.2 st) !! r = Some f
             ∧ encloses L k ∧ header_of rows f L d
  | None => ∀ L, ¬ encloses L k
  end.
Proof.
  intros Hrow Hsig [Hinv Hnone].
  destruct (update_extent_mid rows k row st Hrow Hsig Hinv) as [Hvalid Hmid].
  destruct (ps_current_func (update_extent k row.2 st)) as [r|] eqn:Hcur.
  - destruct Hvalid as [Hcurv _].
    destruct (lookup_lt_is_Some_2 _ r (Hcurv r Hcur)) as [f Hf].
    destruct (Hmid r f Hf) as (L & d & Hhead & HL & Hcase).
    destruct Hcase as [(_ & _ & Hdeep & Hno & _)|[Hne _]]; [|done].
    exists f, L, d. split; [done|]. split; [|done].
    destruct Hhead as (rowL & HrowL & Hd & Hreg & _).
    exists rowL. rewrite Hd. by repeat split.
  - unfold update_extent in Hcur.
    destruct (ps_current_func st) as [r0|] eqn:Hcur0.
    + destruct (row.2 <=? ps_func_indent st)%Z eqn:Hle; [|done].
      apply Z.leb_le in Hle. by apply (closing_not_enclosed k row st r0).
    + apply no_open_header_not_enclosed. by apply Hnone.
Qed.

Lemma line_step_current_None sig k d st :
  ps_current_func (line_step sig k d st) = None →
  ps_current_func (update_extent k d st) = None
  ∧ match sig with
    | [] => True
    | sig0 :: _ =>
      (if is_function_keyword sig0
       then _parse_func_header sig (Z.of_nat k) d else None) = None
    end.
Proof.
  unfold line_step. destruct sig as [|sig0 sig']; [done|].
  change (head (sig0 :: sig')) with (Some sig0). cbv beta iota zeta.
  destruct (is_function_keyword sig0); [|done].
  by destruct (_parse_func_header _ _ _).
Qed.

Lemma row_step_scope_inv k row st :
  rows !! k = Some row → scope_inv k st → scope_inv (S k) (row_step st k row).
Proof.
  intros Hrow Hinv. split; [apply row_step_inv; [done|apply Hinv]|].
  unfold row_step.
  destruct (_significant_tokens row.1) as [|sig0 sig'] eqn:Hrs.
  - intros Hcur. apply (not_enclosed_no_open_header k row); [done| |].
    + unfold registers_header, row_sig. by rewrite Hrs.
    + apply no_open_header_not_enclosed. by apply Hinv.
  - intros [Hcur Hnohead]%line_step_current_None.
    assert (significant_row row = true) as Hsig.
    { unfold significant_row, row_sig. by rewrite Hrs. }
    apply (not_enclosed_no_open_header k row); [done| |].
    + unfold registers_header, row_sig. rewrite Hrs.
      destruct (is_function_keyword sig0); [|done].
      by rewrite Hnohead.
    + pose proof (update_extent_scope k row st Hrow Hsig Hinv) as Hscope.
      by rewrite Hcur in Hscope.
Qed.

Lemma scope_inv_initial : scope_inv 0 initial_state.
Proof.
  split; [split; [apply refs_valid_initial|by intros r f Hf]|].
  intros _ L row HL. lia.
Qed.

Lemma scope_inv_prefix k :
  k ≤ length rows → scope_inv k (run_lines initial_state 0 (take k rows)).
Proof.
  induction k as [|k IH]; intros Hk.
  - rewrite take_0. apply scope_inv_initial.
  - destruct (lookup_lt_is_Some_2 rows k) as [row Hrow]; [lia|].
    rewrite (take_S_r _ _ _ Hrow), run_lines_snoc. simpl.
    rewrite length_take. replace (k `min` length rows) with k by lia.
    apply row_step_scope_inv; [done|]. apply IH. lia.
Qed.

(** The scope the pass resolves for a significant line is the scope of the
    line. *)
Lemma current_scope_at k row :
  rows !! k = Some row → significant_row row = true →
  scope_at k
    (current_scope
       (update_extent k row.2 (run_lines initial_state 0 (take k rows)))).
Proof.
  intros Hrow Hsig.
  pose proof (scope_inv_prefix k) as Hinv.
  specialize (Hinv ltac:(apply lookup_lt_Some in Hrow; lia)).
  pose proof (update_extent_scope k row _ Hrow Hsig Hinv) as Hscope.
  unfold current_scope.
  destruct (ps_current_func (update_extent k row.2 _)) as [r|]; [|done].
  destruct Hscope as (f & L & d & Hf & Henc & Hhead).
  simpl. rewrite Hf. simpl.
  destruct Hhead as (rowL & HrowL & <- & _ & Hparse).
  by exists L, rowL, (set_end_line (Z.of_nat L) f).
Qed.

Lemma registrations_from_elem rest : ∀ st k0 r,
  r ∈ registrations_from st k0 rest →
  ∃ i row, rest !! i = Some row
    ∧ r ∈ line_registrations (run_lines st k0 (take i rest)) (k0 + i) row.
Proof.
  induction rest as [|row rest IH]; intros st k0 r Hr.
  - by apply elem_of_nil in Hr.
  - simpl in Hr. apply elem_of_app in Hr as [Hr|Hr].
    + exists 0, row. rewrite Nat.add_0_r. by split.
    + apply IH in Hr as (i & row' & Hrow' & Hr).
      exists (S i), row'. split; [done|].
      rewrite Nat.add_succ_r. by rewrite firstn_cons, run_lines_cons.
Qed.
End scopes.

(** Where a registration comes from: a parameter of the header recognised
    on some line, or an assignment line, in the scope of that line. *)
Definition registration_origin (rows : list (list Token * Z))
    (r : Registration) : Prop :=
  ∃ k row, rows !! k = Some row
    ∧ ((∃ f p, registers_header k row = true
          ∧ _parse_func_header (row_sig row) (Z.of_nat k) row.2 = Some f
          ∧ p ∈ fd_params f ∧ r = param_registration f p)
       ∨ (registers_header k row = false
          ∧ assignment_of (row_sig row) (Z.of_nat k) (reg_scope r) = Some r
          ∧ scope_at rows k (reg_scope r))).

Lemma assignment_of_scope sig lineno scope r :
  assignment_of sig lineno scope = Some r → reg_scope r = scope.
Proof.
  unfold assignment_of. destruct sig as [|sig0 [|sig1 [|sig2 sig']]]; try done.
  destruct (_ && _); [|done]. by intros [= <-].
Qed.

Lemma registrations_origin rows r :
  r ∈ registrations rows → registration_origin rows r.
Proof.
  intros (k & row & Hrow & Hr)%registrations_from_elem.
  exists k, row. split; [done|]. simpl in Hr.
  unfold line_registrations in Hr. unfold registers_header.
  destruct (row_sig row) as [|sig0 sig'] eqn:Hrs;
    [by apply elem_of_nil in Hr|].
  destruct (is_function_keyword sig0).
  - destruct (_parse_func_header (sig0 :: sig') _ _) as [f|] eqn:Hparse.
    + left. apply list_elem_of_fmap in Hr as (p & -> & Hp).
      by exists f, p.
    + right. split; [done|].
      destruct (assignment_of _ _ _) as [r'|] eqn:Hassign;
        [|by apply elem_of_nil in Hr].
      apply list_elem_of_singleton in Hr as ->.
      pose proof (assignment_of_scope _ _ _ _ Hassign) as Hscope.
      rewrite Hscope. split; [done|].
      apply current_scope_at; [done|].
      unfold significant_row. by rewrite Hrs.
  - right. split; [done|].
    destruct (assignment_of _ _ _) as [r'|] eqn:Hassign;
      [|by apply elem_of_nil in Hr].
    apply list_elem_of_singleton in Hr as ->.
    pose proof (assignment_of_scope _ _ _ _ Hassign) as Hscope.
    rewrite Hscope. split; [done|].
    apply current_scope_at; [done|].
    unfold significant_row. by rewrite Hrs.
Qed.

(** C4 (amended). A registration is a parameter of a recognised function
    header, in the scope of that function at the parameter's position, or a
    line with at least three significant tokens whose first is an identifier
    and whose second is the operator [=], at the identifier's position and in
    the scope of the line: the function of the last recognised header above
    it when every significant line after that header, up to and including the
    line, is indented more than the header, and the global scope otherwise.
    For every input text: every entry of the variable table is the definition
    of a registration stored under that registration's key (['scope:name'] in
    a function, [name] globally); registered names and scopes hold no colon,
    so distinct (scope, name) pairs have distinct keys; and for every scope
    and name the entry under their key is the first registration, in document
    order, of that name in that scope (none if there is no such
    registration), whatever is registered later or for other scopes or
    names. *)
Theorem variable_table_first_registration (source : str)
    (doc : ParsedDocument) :
  parse_document source = Some doc →
  let regs := registrations (zip (tokens doc) (line_indents doc)) in
  (∀ key v, variables doc !! key = Some v →
     ∃ r, r ∈ regs ∧ key = reg_key r ∧ v = reg_def r)
  ∧ (∀ r, r ∈ regs →
       reg_colon_free r
       ∧ registration_origin (zip (tokens doc) (line_indents doc)) r)
  ∧ (∀ s x s' x', colon_free_scope s → ch_colon ∉ x →
       colon_free_scope s' → ch_colon ∉ x' →
       var_key s x = var_key s' x' → s = s' ∧ x = x')
  ∧ (∀ s x, colon_free_scope s → ch_colon ∉ x →
       variables doc !! var_key s x =
         reg_def <$> head (filter (λ r, reg_scope r = s ∧ reg_name r = x)
                             regs)).
Proof.
  intros Hdoc regs.
  pose proof (parsed_variables source doc Hdoc) as Hvars.
  pose proof (parsed_registrations_colon_free source doc Hdoc) as Hfree.
  fold regs in Hvars, Hfree.
  split; [|split; [|split]].
  - intros key v. rewrite Hvars.
    destruct (head _) as [r|] eqn:Hhead; [|done]. intros [= <-].
    apply head_Some_elem_of in Hhead.
    apply list_elem_of_filter in Hhead as [Hkey Hin]. by exists r.
  - intros r Hr. split.
    + rewrite Forall_forall in Hfree. by apply Hfree.
    + by apply registrations_origin.
  - intros s x s' x'. apply var_key_inj.
  - intros s x Hs Hx. rewrite Hvars. do 2 f_equal.
    apply filter_ext_Forall. eapply Forall_impl; [exact Hfree|].
    intros r [Hname Hscope]. simpl. split.
    + intros Hkey. by apply var_key_inj in Hkey.
    + intros [<- <-]. done.
Qed.

(** An assignment line of two significant tokens before a complete one. *)
Definition short_assignment_document : str :=
  Eval vm_compute in u "x =" ++ nl ++ u "x = 1".

(** C4 (as stated) fails: in [short_assignment_document], which has no
    function, line 0 has the identifier [x] as first significant token and
    [=] as second, but the entry for [x] records line 1. *)
Lemma variable_table_counterexample :
  ¬ (∀ source doc k toks sig0 sig1 rest v,
       parse_document source = Some doc →
       functions doc = ∅ →
       tokens doc !! k = Some toks →
       _significant_tokens toks = sig0 :: sig1 :: rest →
       tok_type sig0 = IDENTIFIER →
       tok_type sig1 = OPERATOR ∧ tok_value sig1 = [ch_equals] →
       variables doc !! tok_value sig0 = Some v →
       (vd_line v ≤ Z.of_nat k)%Z).
Proof.
  intros Hclaim.
  destruct (parse_document short_assignment_document) as [doc|] eqn:Hdoc;
    [|by vm_compute in Hdoc].
  specialize (Hclaim _ doc 0
    [mkToken IDENTIFIER [120%N] 0 0 1; mkToken WHITESPACE [32%N] 0 1 2;
     mkToken OPERATOR [61%N] 0 2 3]
    (mkToken IDENTIFIER [120%N] 0 0 1) (mkToken OPERATOR [61%N] 0 2 3) []
    (mkVarDef [120%N] 1 0 scope_global) Hdoc).
  vm_compute in Hdoc. injection Hdoc as <-.
  assert (1 ≤ 0)%Z; [|lia].
  apply Hclaim; by vm_compute.
Qed.

(** ** Dangling elif and else *)

(** How [_check_orphaned_elif_else] reads a line: skipped (blank or comment),
    an [if] (starts with the if keyword and ends with a colon), an [elif]
    (starts with the elif keyword), an [else] (starts with the else keyword
    and ends with a colon), or any other statement. *)
Inductive LineClass := Skipped | IfLine | ElifLine | ElseLine | OtherLine.

#[global] Instance LineClass_eq_dec : EqDecision LineClass.
Proof. solve_decision. Defined.

Definition classify_line (line : str) : LineClass :=
  let stripped := strip line in
  if bool_decide (stripped = []) || startswith stripped [ch_hash] then Skipped
  else if startswith stripped kw_if && endswith stripped [ch_colon] then IfLine
  else if startswith stripped kw_elif then ElifLine
  else if startswith stripped kw_else && endswith stripped [ch_colon]
  then ElseLine
  else OtherLine.

Definition orphan_elif_error (lineno : nat) (line : str) : Diagnostic :=
  mkDiagnostic (_whole_line_range (Z.of_nat lineno) line) msg_orphan_elif
    SeverityError.

Definition orphan_else_error (lineno : nat) (line : str) : Diagnostic :=
  mkDiagnostic (_whole_line_range (Z.of_nat lineno) line) msg_orphan_else
    SeverityError.

(** What line [lineno] does to the table of open ifs. *)
Definition orphan_table_step (table : gmap Z Z) (lineno : nat)
    (line : str) : gmap Z Z :=
  let indent := measure_indent line in
  match classify_line line with
  | Skipped => table
  | IfLine => <[indent := Z.of_nat lineno]> table
  | ElifLine =>
    match table !! indent with
    | None => table
    | Some _ => <[indent := Z.of_nat lineno]> table
    end
  | ElseLine =>
    match table !! indent with
    | None => table
    | Some _ => delete indent table
    end
  | OtherLine => delete indent table
  end.

(** The diagnostics line [lineno] adds. *)
Definition orphan_emitted (table : gmap Z Z) (lineno : nat) (line : str)
    : list Diagnostic :=
  match classify_line line, table !! measure_indent line with
  | ElifLine, None => [orphan_elif_error lineno line]
  | ElseLine, None => [orphan_else_error lineno line]
  | _, _ => []
  end.

Lemma orphan_line_step doc table diags lineno line :
  line_indents doc !! lineno = Some (measure_indent line) →
  orphan_line doc (table, diags) lineno line =
    Some (orphan_table_step table lineno line,
          diags ++ orphan_emitted table lineno line).
Proof.
  intros Hindent.
  unfold orphan_line, orphan_table_step, orphan_emitted, classify_line.
  destruct (bool_decide (strip line = []) || startswith (strip line) [ch_hash]).
  { by rewrite app_nil_r. }
  rewrite Hindent. simpl.
  destruct (startswith (strip line) kw_if && endswith (strip line) [ch_colon]).
  { by rewrite app_nil_r. }
  destruct (startswith (strip line) kw_elif).
  { destruct (table !! measure_indent line); [|done]. by rewrite app_nil_r. }
  destruct (startswith (strip line) kw_else
            && endswith (strip line) [ch_colon]).
  { destruct (table !! measure_indent line); [|done]. by rewrite app_nil_r. }
  by rewrite app_nil_r.
Qed.

(** The table of open ifs before line [k] of [lines]. *)
Definition orphan_table_from (table : gmap Z Z) (start : nat)
    (lines : list str) : gmap Z Z :=
  fold_left (λ table '(lineno, line), orphan_table_step table lineno line)
    (zip (seq start (length lines)) lines) table.

Definition orphan_table (lines : list str) (k : nat) : gmap Z Z :=
  orphan_table_from ∅ 0 (take k lines).

(** The diagnostics of lines [start ..], met with [table]. *)
Fixpoint orphan_errors_from (table : gmap Z Z) (start : nat)
    (lines : list str) : list Diagnostic :=
  match lines with
  | [] => []
  | line :: rest =>
    orphan_emitted table start line
      ++ orphan_errors_from (orphan_table_step table start line) (S start) rest
  end.

Lemma orphan_table_from_cons table start line rest :
  orphan_table_from table start (line :: rest) =
    orphan_table_from (orphan_table_step table start line) (S start) rest.
Proof. done. Qed.

Lemma orphan_table_from_snoc lines : ∀ table start line,
  orphan_table_from table start (lines ++ [line]) =
    orphan_table_step (orphan_table_from table start lines)
      (start + length lines) line.
Proof.
  induction lines as [|l lines IH]; intros table start line.
  - rewrite app_nil_l, orphan_table_from_cons. simpl.
    by rewrite Nat.add_0_r.
  - rewrite <- app_comm_cons, !orphan_table_from_cons, IH. simpl length.
    by rewrite Nat.add_succ_r.
Qed.

Lemma orphan_table_S lines k line :
  lines !! k = Some line →
  orphan_table lines (S k) = orphan_table_step (orphan_table lines k) k line.
Proof.
  intros Hline. unfold orphan_table.
  rewrite (take_S_r _ _ _ Hline), orphan_table_from_snoc. simpl.
  rewrite length_take. pose proof (lookup_lt_Some _ _ _ Hline).
  by replace (k `min` length lines) with k by lia.
Qed.

Lemma orphan_loop_run doc rest : ∀ table diags start,
  (∀ i line, rest !! i = Some line →
     line_indents doc !! (start + i) = Some (measure_indent line)) →
  orphan_loop doc (table, diags) start rest =
    Some (orphan_table_from table start rest,
          diags ++ orphan_errors_from table start rest).
Proof.
  induction rest as [|line rest IH]; intros table diags start Hindents.
  - simpl. by rewrite app_nil_r.
  - change (orphan_loop doc (table, diags) start (line :: rest))
      with (orphan_line doc (table, diags) start line
              ≫= λ st', orphan_loop doc st' (S start) rest).
    rewrite orphan_line_step.
    2:{ specialize (Hindents 0 line eq_refl).
        by rewrite Nat.add_0_r in Hindents. }
    cbn [mbind option_bind]. rewrite IH.
    + rewrite orphan_table_from_cons. cbn [orphan_errors_from].
      by rewrite app_assoc.
    + intros i line' Hline'. specialize (Hindents (S i) line' Hline').
      by rewrite Nat.add_succ_r in Hindents.
Qed.

Definition keeps_open (c : LineClass) : Prop :=
  match c with
  | Skipped | IfLine | ElifLine => True
  | ElseLine | OtherLine => False
  end.

(** An if is open at indentation [d] before line [k]: some earlier line is
    an if at indentation [d], and every line between it and [k] that has
    indentation [d] is skipped, an if or an elif. *)
Definition open_if (lines : list str) (d : Z) (k : nat) : Prop :=
  ∃ j line, j < k ∧ lines !! j = Some line ∧ measure_indent line = d
    ∧ classify_line line = IfLine
    ∧ ∀ m line', j < m < k → lines !! m = Some line' →
        measure_indent line' = d → keeps_open (classify_line line').

(** The diagnostics reported on line [k]. *)
Definition on_line (k : nat) (diags : list Diagnostic) : list Diagnostic :=
  filter (λ dg, pos_line (range_start (diag_range dg)) = Z.of_nat k) diags.

Lemma open_if_S_other lines d k line :
  lines !! k = Some line →
  measure_indent line ≠ d ∨ classify_line line = Skipped
  ∨ classify_line line = ElifLine →
  open_if lines d (S k) ↔ open_if lines d k.
Proof.
  intros Hline Hcase. split.
  - intros (j & l & Hj & Hl & Hd & Hif & Hbetween).
    assert (j ≠ k) as Hne.
    { intros ->. rewrite Hline in Hl. injection Hl as <-.
      destruct Hcase as [?|[?|?]]; congruence. }
    exists j, l. repeat split; try done; [lia|].
    intros m l' Hm. apply Hbetween. lia.
  - intros (j & l & Hj & Hl & Hd & Hif & Hbetween).
    exists j, l. repeat split; try done; [lia|].
    intros m l' Hm Hl' Hd'.
    destruct (decide (m = k)) as [->|Hne].
    + rewrite Hline in Hl'. injection Hl' as <-.
      destruct Hcase as [?|[Hc|Hc]]; [done|by rewrite Hc..].
    + apply (Hbetween m); [lia|done..].
Qed.

Lemma open_if_S_if lines k line :
  lines !! k = Some line → classify_line line = IfLine →
  open_if lines (measure_indent line) (S k).
Proof.
  intros Hline Hif. exists k, line. repeat split; try done; [lia|].
  intros m l' Hm. lia.
Qed.

Lemma open_if_S_closed lines k line :
  lines !! k = Some line →
  classify_line line = ElseLine ∨ classify_line line = OtherLine →
  ¬ open_if lines (measure_indent line) (S k).
Proof.
  intros Hline Hcase (j & l & Hj & Hl & Hd & Hif & Hbetween).
  assert (j ≠ k) as Hne.
  { intros ->. rewrite Hline in Hl. injection Hl as <-.
    destruct Hcase; congruence. }
  pose proof (Hbetween k line ltac:(lia) Hline eq_refl) as Hkeep.
  destruct Hcase as [Hc|Hc]; by rewrite Hc in Hkeep.
Qed.

Lemma orphan_table_step_other table k line d :
  measure_indent line ≠ d →
  orphan_table_step table k line !! d = table !! d.
Proof.
  intros Hne. unfold orphan_table_step.
  destruct (classify_line line); try done.
  - by rewrite lookup_insert_ne.
  - destruct (table !! measure_indent line); [|done].
    by rewrite lookup_insert_ne.
  - destruct (table !! measure_indent line); [|done].
    by rewrite lookup_delete_ne.
  - by rewrite lookup_delete_ne.
Qed.

(** The table holds exactly the indentations with an open if. *)
Lemma orphan_table_open_if lines k : ∀ d,
  k ≤ length lines →
  is_Some (orphan_table lines k !! d) ↔ open_if lines d k.
Proof.
  induction k as [|k IH]; intros d Hk.
  - unfold orphan_table, orphan_table_from. rewrite take_0. simpl. split.
    + rewrite lookup_empty. by intros [? ?].
    + intros (j & _ & Hj & _). lia.
  - destruct (lookup_lt_is_Some_2 lines k) as [line Hline]; [lia|].
    rewrite (orphan_table_S _ _ _ Hline).
    destruct (decide (measure_indent line = d)) as [<-|Hne].
    2:{ rewrite orphan_table_step_other by done.
        rewrite (open_if_S_other lines d k line) by auto. apply IH. lia. }
    specialize (IH (measure_indent line) ltac:(lia)).
    unfold orphan_table_step.
    destruct (classify_line line) eqn:Hclass.
    + rewrite (open_if_S_other lines _ k line) by auto. done.
    + rewrite lookup_insert_eq. split; [|by eexists].
      intros _. by apply open_if_S_if.
    + rewrite (open_if_S_other lines _ k line) by auto.
      destruct (orphan_table lines k !! measure_indent line) eqn:Hlookup.
      * rewrite lookup_insert_eq. rewrite <- IH. split; by eexists.
      * by rewrite Hlookup.
    + assert (¬ open_if lines (measure_indent line) (S k)) as Hclosed
        by (apply open_if_S_closed; auto).
      destruct (orphan_table lines k !! measure_indent line) eqn:Hlookup.
      * rewrite lookup_delete_eq. split; [by intros [? ?]|done].
      * rewrite Hlookup. split; [by intros [? ?]|done].
    + assert (¬ open_if lines (measure_indent line) (S k)) as Hclosed
        by (apply open_if_S_closed; auto).
      rewrite lookup_delete_eq. split; [by intros [? ?]|done].
Qed.

Lemma on_line_emitted table j line k :
  on_line k (orphan_emitted table j line) =
    if decide (j = k) then orphan_emitted table j line else [].
Proof.
  unfold on_line, orphan_emitted.
  destruct (decide (j = k)) as [->|Hne].
  - destruct (classify_line line); try done;
      destruct (table !! measure_indent line); try done;
      by rewrite filter_cons_True.
  - destruct (classify_line line); try done;
      destruct (table !! measure_indent line); try done;
      rewrite filter_cons_False; try done; simpl; lia.
Qed.

Lemma on_line_orphan_errors rest : ∀ pre k,
  on_line k (orphan_errors_from (orphan_table (pre ++ rest) (length pre))
               (length pre) rest) =
    if decide (length pre ≤ k) then
      from_option (orphan_emitted (orphan_table (pre ++ rest) k) k) []
        ((pre ++ rest) !! k)
    else [].
Proof.
  induction rest as [|line rest IH]; intros pre k.
  - simpl. case_decide; [|done].
    rewrite app_nil_r. by rewrite lookup_ge_None_2.
  - cbn [orphan_errors_from]. unfold on_line. rewrite filter_app.
    fold (on_line k (orphan_emitted (orphan_table (pre ++ line :: rest)
                                       (length pre)) (length pre) line)).
    rewrite on_line_emitted.
    assert ((pre ++ line :: rest) !! length pre = Some line) as Hline.
    { rewrite lookup_app_r by lia. by rewrite Nat.sub_diag. }
    rewrite <- (orphan_table_S _ _ _ Hline).
    specialize (IH (pre ++ [line]) k).
    rewrite <- app_assoc, length_app in IH. simpl in IH.
    rewrite Nat.add_1_r in IH. unfold on_line in IH. rewrite IH.
    destruct (decide (length pre = k)) as [<-|Hne].
    + rewrite decide_False by lia. rewrite decide_True by lia.
      rewrite Hline. simpl. by rewrite app_nil_r.
    + simpl. destruct (decide (S (length pre) ≤ k)).
      * by rewrite decide_True by lia.
      * by rewrite decide_False by lia.
Qed.

Lemma on_line_orphan_errors_all lines k :
  on_line k (orphan_errors_from ∅ 0 lines) =
    from_option (orphan_emitted (orphan_table lines k) k) [] (lines !! k).
Proof.
  pose proof (on_line_orphan_errors lines [] k) as H.
  rewrite app_nil_l in H. change (length []) with 0 in H.
  rewrite decide_True in H by lia.
  replace (orphan_table lines 0) with (∅ : gmap Z Z) in H; [done|].
  unfold orphan_table. by rewrite take_0.
Qed.

Lemma parsed_line_indents source doc :
  parse_document source = Some doc →
  line_indents doc = measure_indent <$> lines doc
  ∧ tokens doc = doc_tokens (lines doc).
Proof. rewrite parse_document_eq. by intros [= <-]. Qed.

Lemma orphan_loop_prefix doc diags k :
  line_indents doc = measure_indent <$> lines doc →
  orphan_loop doc (∅, diags) 0 (take k (lines doc)) =
    Some (orphan_table (lines doc) k,
          diags ++ orphan_errors_from ∅ 0 (take k (lines doc))).
Proof.
  intros Hindents. unfold orphan_table. apply orphan_loop_run.
  intros i line Hline. simpl. rewrite Hindents, list_lookup_fmap.
  apply lookup_take_Some in Hline as [Hline _]. by rewrite Hline.
Qed.

(** The check as the code reads a line, by the characters its stripped text
    starts with ([classify_line]).  It appends to [diags] exactly one error
    on each line read as an elif or as an else whose indentation has no open
    if, and nothing on any other line; the table of the check holds exactly
    the indentations with an open if, and a line changes the entry of its own
    indentation only. *)
Lemma orphan_check_by_text (source : str) (doc : ParsedDocument)
    (diags : list Diagnostic) :
  parse_document source = Some doc →
  ∃ new,
    _check_orphaned_elif_else doc diags = Some (diags ++ new)
    ∧ (∀ k line, lines doc !! k = Some line →
         (classify_line line = ElifLine →
          ¬ open_if (lines doc) (measure_indent line) k →
          on_line k new = [orphan_elif_error k line])
         ∧ (classify_line line = ElseLine →
            ¬ open_if (lines doc) (measure_indent line) k →
            on_line k new = [orphan_else_error k line])
         ∧ ((classify_line line = ElifLine ∨ classify_line line = ElseLine →
             open_if (lines doc) (measure_indent line) k) →
            on_line k new = []))
    ∧ (∀ k, length (lines doc) ≤ k → on_line k new = [])
    ∧ (∀ k, k ≤ length (lines doc) →
         (∃ out, orphan_loop doc (∅, diags) 0 (take k (lines doc))
                 = Some (orphan_table (lines doc) k, out))
         ∧ ∀ d, is_Some (orphan_table (lines doc) k !! d)
                ↔ open_if (lines doc) d k)
    ∧ (∀ k line, lines doc !! k = Some line →
         (∀ d, d ≠ measure_indent line →
            orphan_table (lines doc) (S k) !! d
            = orphan_table (lines doc) k !! d)
         ∧ (classify_line line = Skipped →
            orphan_table (lines doc) (S k) = orphan_table (lines doc) k)
         ∧ (classify_line line = IfLine →
            orphan_table (lines doc) (S k) !! measure_indent line
            = Some (Z.of_nat k))
         ∧ (classify_line line = ElifLine →
            open_if (lines doc) (measure_indent line) k →
            orphan_table (lines doc) (S k) !! measure_indent line
            = Some (Z.of_nat k))
         ∧ (classify_line line = ElifLine →
            ¬ open_if (lines doc) (measure_indent line) k →
            orphan_table (lines doc) (S k) = orphan_table (lines doc) k)
         ∧ (classify_line line = ElseLine ∨ classify_line line = OtherLine →
            orphan_table (lines doc) (S k) !! measure_indent line = None))
    ∧ (∀ k line, lines doc !! k = Some line →
         classify_line line = ElifLine → measure_indent line = 0%Z →
         (∀ j l, j < k → lines doc !! j = Some l → measure_indent l = 0%Z →
            classify_line l ≠ IfLine) →
         on_line k new = [orphan_elif_error k line]).
Proof.
  intros Hdoc. apply parsed_line_indents in Hdoc as [Hindents _].
  exists (orphan_errors_from ∅ 0 (lines doc)).
  assert (∀ k line, lines doc !! k = Some line →
    ∀ d, is_Some (orphan_table (lines doc) k !! d)
         ↔ open_if (lines doc) d k) as Hopen.
  { intros k line Hline d. apply orphan_table_open_if.
    apply lookup_lt_Some in Hline. lia. }
  assert (∀ k line, lines doc !! k = Some line →
    classify_line line = ElifLine →
    ¬ open_if (lines doc) (measure_indent line) k →
    on_line k (orphan_errors_from ∅ 0 (lines doc))
    = [orphan_elif_error k line]) as Helif.
  { intros k line Hline Hclass Hclosed.
    rewrite on_line_orphan_errors_all, Hline. simpl.
    unfold orphan_emitted. rewrite Hclass.
    destruct (orphan_table (lines doc) k !! measure_indent line) eqn:Hl;
      [|done].
    exfalso. apply Hclosed. apply (Hopen k line Hline). by eexists. }
  split; [|split; [|split; [|split; [|split]]]].
  - unfold _check_orphaned_elif_else.
    pose proof (orphan_loop_prefix doc diags (length (lines doc)) Hindents)
      as Hloop.
    rewrite firstn_all in Hloop. by rewrite Hloop.
  - intros k line Hline. split; [by apply Helif|]. split.
    + intros Hclass Hclosed.
      rewrite on_line_orphan_errors_all, Hline. simpl.
      unfold orphan_emitted. rewrite Hclass.
      destruct (orphan_table (lines doc) k !! measure_indent line) eqn:Hl;
        [|done].
      exfalso. apply Hclosed. apply (Hopen k line Hline). by eexists.
    + intros Hcase. rewrite on_line_orphan_errors_all, Hline. simpl.
      unfold orphan_emitted.
      destruct (classify_line line) eqn:Hclass; try done.
      * destruct (orphan_table (lines doc) k !! measure_indent line) eqn:Hl;
          [done|].
        apply (Hopen k line Hline) in Hcase as [? ?]; [congruence|by left].
      * destruct (orphan_table (lines doc) k !! measure_indent line) eqn:Hl;
          [done|].
        apply (Hopen k line Hline) in Hcase as [? ?]; [congruence|by right].
  - intros k Hk. rewrite on_line_orphan_errors_all.
    by rewrite lookup_ge_None_2.
  - intros k Hk. split.
    + eexists. by apply orphan_loop_prefix.
    + intros d. by apply orphan_table_open_if.
  - intros k line Hline. rewrite (orphan_table_S _ _ _ Hline).
    pose proof (Hopen k line Hline (measure_indent line)) as Hhere.
    split; [intros d Hd; by apply orphan_table_step_other|].
    unfold orphan_table_step.
    split; [by intros ->|]. split; [intros ->; by rewrite lookup_insert_eq|].
    split; [|split].
    + intros -> [v Hv]%Hhere. rewrite Hv. by rewrite lookup_insert_eq.
    + intros -> Hclosed.
      destruct (orphan_table (lines doc) k !! measure_indent line) eqn:Hl;
        [|done].
      exfalso. apply Hclosed, Hhere. by eexists.
    + intros [-> | ->].
      * destruct (orphan_table (lines doc) k !! measure_indent line) eqn:Hl;
          [by rewrite lookup_delete_eq|done].
      * by rewrite lookup_delete_eq.
  - intros k line Hline Hclass Hzero Hnone. apply Helif; [done..|].
    intros (j & l & Hj & Hl & Hd & Hif & _).
    apply (Hnone j l); [done..|congruence|done].
Qed.

(** A lone else keyword, without its colon. *)
Definition bare_else_document : str := kw_else.

(** C5 (as stated) fails: the only line of [bare_else_document] is an else
    line (its first significant token is the else keyword) and no if is
    open, but the check reports nothing. *)
Lemma orphaned_else_counterexample :
  ¬ (∀ source doc toks t,
       parse_document source = Some doc →
       tokens doc !! 0 = Some toks →
       head (_significant_tokens toks) = Some t →
       tok_type t = KEYWORD → tok_value t = kw_else →
       ∃ diags dg,
         _check_orphaned_elif_else doc [] = Some diags ∧ dg ∈ diags
         ∧ pos_line (range_start (diag_range dg)) = 0%Z).
Proof.
  intros Hclaim.
  destruct (parse_document bare_else_document) as [doc|] eqn:Hdoc;
    [|by vm_compute in Hdoc].
  destruct (Hclaim _ doc [mkToken KEYWORD kw_else 0 0 6]
              (mkToken KEYWORD kw_else 0 0 6) Hdoc)
    as (diags & dg & Hcheck & Hin & _).
  - vm_compute in Hdoc. by injection Hdoc as <-.
  - done.
  - done.
  - done.
  - vm_compute in Hdoc. injection Hdoc as <-.
    vm_compute in Hcheck. injection Hcheck as <-.
    by apply elem_of_nil in Hin.
Qed.

(** ** Diagnostics reported line by line *)

Lemma on_line_app k diags1 diags2 :
  on_line k (diags1 ++ diags2) = on_line k diags1 ++ on_line k diags2.
Proof. unfold on_line. apply filter_app. Qed.

Lemma on_line_all k diags :
  Forall (λ dg, pos_line (range_start (diag_range dg)) = Z.of_nat k) diags →
  on_line k diags = diags.
Proof.
  induction 1 as [|dg diags Hdg _ IH]; [done|].
  unfold on_line. rewrite filter_cons_True by done.
  f_equal. apply IH.
Qed.

Lemma on_line_none j k diags :
  j ≠ k →
  Forall (λ dg, pos_line (range_start (diag_range dg)) = Z.of_nat j) diags →
  on_line k diags = [].
Proof.
  intros Hne. induction 1 as [|dg diags Hdg _ IH]; [done|].
  unfold on_line. rewrite filter_cons_False by lia. apply IH.
Qed.

Lemma on_line_concat_imap_from {A} (l : list A) :
  ∀ (f : nat → A → list Diagnostic) start k,
  (∀ j a, Forall (λ dg, pos_line (range_start (diag_range dg))
                        = Z.of_nat (start + j)) (f j a)) →
  on_line k (concat (imap f l)) =
    if decide (start ≤ k)
    then from_option (f (k - start)) [] (l !! (k - start)) else [].
Proof.
  induction l as [|a l IH]; intros f start k Hf.
  - simpl. by case_decide.
  - simpl. rewrite on_line_app.
    rewrite (IH (f ∘ S) (S start) k).
    2:{ intros j b. simpl. specialize (Hf (S j) b).
        by rewrite Nat.add_succ_r in Hf. }
    specialize (Hf 0 a). rewrite Nat.add_0_r in Hf.
    destruct (decide (start = k)) as [->|Hne].
    + rewrite on_line_all by done. rewrite decide_False by lia.
      rewrite decide_True by lia. rewrite Nat.sub_diag. simpl.
      by rewrite app_nil_r.
    + rewrite (on_line_none start k) by done. simpl.
      destruct (decide (S start ≤ k)).
      * rewrite decide_True by lia.
        replace (k - start) with (S (k - S start)) by lia. done.
      * by rewrite decide_False by lia.
Qed.

(** When every row reports on its own line only, the diagnostics on line
    [k] are those of row [k]. *)
Lemma on_line_concat_imap {A} (l : list A) (f : nat → A → list Diagnostic) k :
  (∀ j a, Forall (λ dg, pos_line (range_start (diag_range dg)) = Z.of_nat j)
            (f j a)) →
  on_line k (concat (imap f l)) = from_option (f k) [] (l !! k).
Proof.
  intros Hf. rewrite (on_line_concat_imap_from l f 0 k) by done.
  rewrite decide_True by lia. by rewrite Nat.sub_0_r.
Qed.

(** ** Delimiter balance *)

Definition count_type (tt : TokenType) (toks : list Token) : nat :=
  length (filter (λ t, tok_type t = tt) toks).

Lemma count_type_cons tt t toks :
  count_type tt (t :: toks) =
    (if decide (tok_type t = tt) then 1 else 0) + count_type tt toks.
Proof.
  unfold count_type. destruct (decide (tok_type t = tt)).
  - by rewrite filter_cons_True.
  - by rewrite filter_cons_False.
Qed.

(** The depths at the end of a line are the differences of the counts. *)
Lemma depth_fold toks : ∀ paren_depth bracket_depth,
  fold_left depth_step toks (paren_depth, bracket_depth) =
    ((paren_depth + Z.of_nat (count_type PAREN_OPEN toks)
      - Z.of_nat (count_type PAREN_CLOSE toks))%Z,
     (bracket_depth + Z.of_nat (count_type BRACKET_OPEN toks)
      - Z.of_nat (count_type BRACKET_CLOSE toks))%Z).
Proof.
  induction toks as [|t toks IH]; intros paren_depth bracket_depth.
  - unfold count_type. rewrite !filter_nil. simpl. f_equal; lia.
  - cbn [fold_left]. rewrite !count_type_cons. unfold depth_step at 2.
    destruct (tok_type t) eqn:Htype; simpl; rewrite IH; f_equal; lia.
Qed.

Definition unmatched_parens_error (lineno : nat) (text : str)
    : Diagnostic :=
  mkDiagnostic (_whole_line_range (Z.of_nat lineno) text) msg_unmatched_parens
    SeverityError.

Definition unmatched_brackets_error (lineno : nat) (text : str)
    : Diagnostic :=
  mkDiagnostic (_whole_line_range (Z.of_nat lineno) text)
    msg_unmatched_brackets SeverityError.

(** What the check reports for a line of tokens [toks] and text [text]. *)
Definition unmatched_emitted (lineno : nat) (row : list Token * str)
    : list Diagnostic :=
  (if decide (count_type PAREN_OPEN row.1 ≠ count_type PAREN_CLOSE row.1)
   then [unmatched_parens_error lineno row.2] else [])
  ++ (if decide (count_type BRACKET_OPEN row.1
                 ≠ count_type BRACKET_CLOSE row.1)
      then [unmatched_brackets_error lineno row.2] else []).

Lemma unmatched_line_emitted doc diags lineno toks text :
  lines doc !! lineno = Some text →
  unmatched_line doc diags lineno toks =
    Some (diags ++ unmatched_emitted lineno (toks, text)).
Proof.
  intros Htext. unfold unmatched_line, unmatched_emitted.
  rewrite depth_fold, Htext. simpl.
  destruct (decide (count_type PAREN_OPEN toks ≠ count_type PAREN_CLOSE toks))
    as [Hp|Hp%dec_stable];
  destruct (decide (count_type BRACKET_OPEN toks
                    ≠ count_type BRACKET_CLOSE toks)) as [Hb|Hb%dec_stable].
  all: repeat case_bool_decide; try lia; simpl;
    rewrite <- ?app_assoc, ?app_nil_r; done.
Qed.

Lemma unmatched_loop_emitted doc rest : ∀ diags start texts,
  length texts = length rest →
  (∀ i text, texts !! i = Some text → lines doc !! (start + i) = Some text) →
  unmatched_loop doc diags start rest =
    Some (diags ++ concat (imap (λ i row, unmatched_emitted (start + i) row)
                             (zip rest texts))).
Proof.
  induction rest as [|toks rest IH]; intros diags start texts Hlen Htexts.
  - simpl. by rewrite app_nil_r.
  - destruct texts as [|text texts]; [done|].
    change (unmatched_loop doc diags start (toks :: rest))
      with (unmatched_line doc diags start toks
              ≫= λ diags', unmatched_loop doc diags' (S start) rest).
    rewrite (unmatched_line_emitted _ _ _ _ text).
    2:{ specialize (Htexts 0 text eq_refl).
        by rewrite Nat.add_0_r in Htexts. }
    cbn [mbind option_bind]. rewrite (IH _ _ texts).
    + simpl. rewrite Nat.add_0_r, <- app_assoc. do 4 f_equal.
      apply imap_ext. intros i row _. simpl. by rewrite Nat.add_succ_r.
    + simpl in Hlen. lia.
    + intros i text' Htext'. specialize (Htexts (S i) text' Htext').
      by rewrite Nat.add_succ_r in Htexts.
Qed.

Lemma unmatched_emitted_line j row :
  Forall (λ dg, pos_line (range_start (diag_range dg)) = Z.of_nat j)
    (unmatched_emitted j row).
Proof.
  unfold unmatched_emitted. apply Forall_app.
  split; case_decide; by repeat constructor.
Qed.

Definition unterminated_call_line : str :=
  Eval vm_compute in u "x = f(1, 2".

(** C6. For every document, the check appends, for every line, an
    unmatched-parentheses error if and only if the numbers of paren-open and
    paren-close tokens of that line differ, and an unmatched-brackets error
    if and only if the numbers of bracket-open and bracket-close tokens of
    that line differ; each is decided from the tokens of that line alone,
    both may be reported on one line, and at most one of each. The line
    [x = f(1, 2] gets exactly one unmatched-parentheses error and no bracket
    error. *)
Theorem unmatched_delimiters_check (source : str) (doc : ParsedDocument)
    (diags : list Diagnostic) :
  parse_document source = Some doc →
  (∃ new,
     _check_unmatched_parens doc diags = Some (diags ++ new)
     ∧ (∀ k toks text,
          tokens doc !! k = Some toks → lines doc !! k = Some text →
          on_line k new =
            (if decide (count_type PAREN_OPEN toks
                        ≠ count_type PAREN_CLOSE toks)
             then [unmatched_parens_error k text] else [])
            ++ (if decide (count_type BRACKET_OPEN toks
                           ≠ count_type BRACKET_CLOSE toks)
                then [unmatched_brackets_error k text] else []))
     ∧ (∀ k, length (lines doc) ≤ k → on_line k new = []))
  ∧ (∃ doc',
       parse_document unterminated_call_line = Some doc'
       ∧ _check_unmatched_parens doc' [] =
           Some [unmatched_parens_error 0 unterminated_call_line]).
Proof.
  intros Hdoc. split.
  - pose proof (parsed_line_indents _ _ Hdoc) as [_ Htokens].
    assert (length (tokens doc) = length (lines doc)) as Hlen.
    { rewrite Htokens. unfold doc_tokens. by rewrite length_imap. }
    exists (concat (imap unmatched_emitted (zip (tokens doc) (lines doc)))).
    split; [|split].
    + unfold _check_unmatched_parens.
      by rewrite (unmatched_loop_emitted doc (tokens doc) diags 0 (lines doc)).
    + intros k toks text Htoks Htext.
      rewrite on_line_concat_imap by apply unmatched_emitted_line.
      assert (zip (tokens doc) (lines doc) !! k = Some (toks, text)) as ->.
      { apply lookup_zip_with_Some. by exists toks, text. }
      done.
    + intros k Hk.
      rewrite on_line_concat_imap by apply unmatched_emitted_line.
      rewrite lookup_ge_None_2; [done|]. rewrite length_zip_with. lia.
  - eexists. split; [apply parse_document_eq|]. by vm_compute.
Qed.

(** ** Undefined calls *)

(** The next token after index [idx] that is not whitespace is a
    paren-open. *)
Definition followed_by_paren (toks : list Token) (idx : nat) : Prop :=
  ∃ j p, idx < j ∧ toks !! j = Some p ∧ tok_type p = PAREN_OPEN
    ∧ ∀ m w, idx < m < j → toks !! m = Some w → tok_type w = WHITESPACE.

(** The token [t], at index [idx] of its line, is a call of an undefined
    function. *)
Definition undefined_call (doc : ParsedDocument) (toks : list Token)
    (idx : nat) (t : Token) : Prop :=
  tok_type t = IDENTIFIER ∧ followed_by_paren toks idx
  ∧ functions doc !! tok_value t = None
  ∧ (tok_value t ∉ BUILTIN_NAMES) ∧ (tok_value t ∉ KEYWORD_NAMES).

Definition undefined_warning (lineno : nat) (t : Token) : Diagnostic :=
  mkDiagnostic (_line_range (Z.of_nat lineno) (tok_col t) (tok_end_col t))
    (msg_undefined_function (tok_value t)) SeverityWarning.

Definition undefined_call_b (doc : ParsedDocument) (toks : list Token)
    (idx : nat) (t : Token) : bool :=
  bool_decide (tok_type t = IDENTIFIER)
  && match _next_significant (drop (idx + 1) toks) with
     | Some next_tok => bool_decide (tok_type next_tok = PAREN_OPEN)
     | None => false
     end
  && bool_decide (functions doc !! tok_value t = None)
  && bool_decide (tok_value t ∉ BUILTIN_NAMES)
  && bool_decide (tok_value t ∉ KEYWORD_NAMES).

Lemma _next_significant_paren rest :
  (∃ p, _next_significant rest = Some p ∧ tok_type p = PAREN_OPEN)
  ↔ ∃ j p, rest !! j = Some p ∧ tok_type p = PAREN_OPEN
      ∧ ∀ m w, m < j → rest !! m = Some w → tok_type w = WHITESPACE.
Proof.
  induction rest as [|t rest IH]; simpl.
  - split; [by intros (? & ? & _)|by intros (? & ? & ? & _)].
  - destruct (bool_decide (tok_type t ≠ WHITESPACE)) eqn:Hws.
    + apply bool_decide_eq_true in Hws. split.
      * intros (p & [= <-] & Hp). exists 0, t. repeat split; try done.
        intros m w Hm. lia.
      * intros (j & p & Hj & Hp & Hbefore). destruct j as [|j].
        -- injection Hj as <-. by exists t.
        -- exfalso. apply Hws. apply (Hbefore 0 t); [lia|done].
    + apply bool_decide_eq_false in Hws. apply dec_stable in Hws.
      rewrite IH. split.
      * intros (j & p & Hj & Hp & Hbefore). exists (S j), p.
        repeat split; try done. intros [|m] w Hm Hw.
        -- by injection Hw as <-.
        -- apply (Hbefore m); [lia|done].
      * intros (j & p & Hj & Hp & Hbefore). destruct j as [|j].
        -- injection Hj as <-. congruence.
        -- exists j, p. repeat split; try done. intros m w Hm Hw.
           apply (Hbefore (S m)); [lia|done].
Qed.

Lemma followed_by_paren_next toks idx :
  followed_by_paren toks idx
  ↔ ∃ p, _next_significant (drop (idx + 1) toks) = Some p
         ∧ tok_type p = PAREN_OPEN.
Proof.
  rewrite _next_significant_paren. split.
  - intros (j & p & Hj & Hp & Htype & Hbefore).
    exists (j - (idx + 1)), p. rewrite lookup_drop.
    replace (idx + 1 + (j - (idx + 1))) with j by lia.
    repeat split; try done. intros m w Hm. rewrite lookup_drop.
    apply Hbefore. lia.
  - intros (j & p & Hp & Htype & Hbefore). rewrite lookup_drop in Hp.
    exists (idx + 1 + j), p. repeat split; try done; [lia|].
    intros m w Hm Hw. apply (Hbefore (m - (idx + 1))); [lia|].
    rewrite lookup_drop. by replace (idx + 1 + (m - (idx + 1))) with m by lia.
Qed.

Lemma undefined_call_b_spec doc toks idx t :
  undefined_call_b doc toks idx t = true ↔ undefined_call doc toks idx t.
Proof.
  unfold undefined_call_b, undefined_call.
  rewrite !andb_true_iff, !bool_decide_eq_true, followed_by_paren_next.
  split.
  - intros ((((Hid & Hnext) & Hfun) & Hb) & Hk). repeat split; try done.
    destruct (_next_significant _) as [p|]; [|done].
    apply bool_decide_eq_true in Hnext. by exists p.
  - intros (Hid & (p & Hnext & Hp) & Hfun & Hb & Hk). repeat split; try done.
    rewrite Hnext. by apply bool_decide_eq_true.
Qed.

Definition token_warning (doc : ParsedDocument) (lineno : nat)
    (toks : list Token) (idx : nat) (t : Token) : list Diagnostic :=
  if undefined_call_b doc toks idx t then [undefined_warning lineno t] else [].

Definition line_warnings (doc : ParsedDocument) (lineno : nat)
    (toks : list Token) : list Diagnostic :=
  concat (imap (token_warning doc lineno toks) toks).

Lemma undefined_token_warning doc lineno toks diags idx t :
  undefined_token doc lineno toks diags idx t =
    diags ++ token_warning doc lineno toks idx t.
Proof.
  unfold undefined_token, token_warning, undefined_call_b.
  destruct (decide (tok_type t = IDENTIFIER)) as [Hid|Hid].
  2:{ rewrite bool_decide_eq_true_2 by done.
      rewrite (bool_decide_eq_false_2 (tok_type t = IDENTIFIER)) by done.
      simpl. by rewrite app_nil_r. }
  rewrite bool_decide_eq_false_2 by (intros H; by apply H).
  rewrite (bool_decide_eq_true_2 (tok_type t = IDENTIFIER)) by done.
  destruct (_next_significant _) as [next_tok|]; simpl;
    [|by rewrite app_nil_r].
  destruct (bool_decide (tok_type next_tok = PAREN_OPEN)); simpl;
    [|by rewrite app_nil_r].
  destruct (bool_decide (functions doc !! tok_value t = None)
            && bool_decide (tok_value t ∉ BUILTIN_NAMES)
            && bool_decide (tok_value t ∉ KEYWORD_NAMES)); [done|].
  by rewrite app_nil_r.
Qed.

Lemma undefined_tokens_warnings doc lineno toks rest : ∀ diags idx,
  undefined_tokens doc lineno toks diags idx rest =
    diags ++ concat (imap (λ i t, token_warning doc lineno toks (idx + i) t)
                       rest).
Proof.
  induction rest as [|t rest IH]; intros diags idx.
  - simpl. by rewrite app_nil_r.
  - cbn [undefined_tokens]. rewrite IH, undefined_token_warning. simpl.
    rewrite Nat.add_0_r, <- app_assoc. do 3 f_equal.
    apply imap_ext. intros i t' _. simpl. by rewrite Nat.add_succ_r.
Qed.

Lemma undefined_loop_warnings doc rest : ∀ diags lineno,
  undefined_loop doc diags lineno rest =
    diags ++ concat (imap (λ i toks, line_warnings doc (lineno + i) toks)
                       rest).
Proof.
  induction rest as [|toks rest IH]; intros diags lineno.
  - simpl. by rewrite app_nil_r.
  - cbn [undefined_loop]. rewrite IH, undefined_tokens_warnings. simpl.
    rewrite Nat.add_0_r, <- app_assoc. do 3 f_equal.
    apply imap_ext. intros i t' _. simpl. by rewrite Nat.add_succ_r.
Qed.

Lemma elem_of_concat {B} (b : B) (ls : list (list B)) :
  b ∈ concat ls ↔ ∃ l, b ∈ l ∧ l ∈ ls.
Proof.
  induction ls as [|l ls IH]; simpl.
  - split; [by intros ?%elem_of_nil|]. by intros (? & _ & ?%elem_of_nil).
  - rewrite elem_of_app, IH. split.
    + intros [Hb|(l' & Hb & Hl')].
      * exists l. split; [done|by left].
      * exists l'. split; [done|by right].
    + intros (l' & Hb & [->|Hl']%elem_of_cons); [by left|right]. by exists l'.
Qed.



Lemma contiguous_from_lower c toks :
  contiguous_from c toks → ∀ i t, toks !! i = Some t → (c ≤ tok_col t)%Z.
Proof.
  revert c. induction toks as [|a toks IH]; intros c Hcont i t Ht; [done|].
  destruct Hcont as (Hcol & Hend & Hne & Hrest).
  destruct i as [|i].
  - injection Ht as <-. lia.
  - specialize (IH _ Hrest i t Ht).
    destruct (tok_value a); [done|]. simpl in Hend. lia.
Qed.


Lemma token_warning_elem doc lineno toks idx t dg :
  dg ∈ token_warning doc lineno toks idx t →
  undefined_call doc toks idx t ∧ dg = undefined_warning lineno t.
Proof.
  unfold token_warning.
  destruct (undefined_call_b doc toks idx t) eqn:Hcall.
  - intros ->%list_elem_of_singleton. split; [|done].
    by apply undefined_call_b_spec.
  - by intros ?%elem_of_nil.
Qed.

Lemma line_warnings_elem doc lineno toks dg :
  dg ∈ line_warnings doc lineno toks →
  ∃ idx t, toks !! idx = Some t ∧ undefined_call doc toks idx t
           ∧ dg = undefined_warning lineno t.
Proof.
  unfold line_warnings. intros (ws & Hdg & Hws)%elem_of_concat.
  apply elem_of_lookup_imap in Hws as (idx & t & -> & Ht).
  apply token_warning_elem in Hdg as [Hcall ->]. by exists idx, t.
Qed.

Lemma parsed_tokens_contiguous source doc k toks :
  parse_document source = Some doc →
  tokens doc !! k = Some toks →
  contiguous_from 0 toks ∧ Forall (λ t, tok_line t = Z.of_nat k) toks.
Proof.
  intros [_ Htokens]%parsed_line_indents. rewrite Htokens.
  unfold doc_tokens. rewrite list_lookup_imap.
  destruct (lines doc !! k) as [line|]; [|done]. intros [= <-].
  by destruct (tokenize_line_covers line (Z.of_nat k)) as (_ & ? & ? & _).
Qed.


(** ** The semantic token encoder *)

(** The kinds of token the encoder emits an entry for. *)
Definition highlighted_kinds : list TokenType :=
  [KEYWORD; BUILTIN; CONSTANT; LOGICAL_OP; IDENTIFIER; NUMBER; STRING;
   COMMENT; OPERATOR].

Definition is_highlighted (t : Token) : Prop :=
  tok_type t ∈ highlighted_kinds.

#[global] Instance is_highlighted_dec t : Decision (is_highlighted t).
Proof. unfold is_highlighted. apply _. Defined.

Lemma highlighted_not_skipped tt : tt ∈ highlighted_kinds ↔ tt ∉ _SKIP.
Proof.
  destruct tt; (split; [intros Hin Hskip|intros Hskip]);
    try (by apply (bool_decide_unpack _));
    try (by apply (bool_decide_pack _) in Hin);
    try (by apply (bool_decide_pack _) in Hskip);
    exfalso; apply Hskip; by apply (bool_decide_unpack _).
Qed.

(** The type index emitted for a highlighted token. *)
Definition semantic_type (doc : ParsedDocument) (tok : Token) : Z :=
  if bool_decide (tok_type tok = IDENTIFIER) then
    if bool_decide (tok_value tok ∈ func_names doc) then 1
    else if bool_decide (tok_value tok ∈ param_names doc) then 7
    else 2
  else default 0%Z (_TYPE_MAP (tok_type tok)).

(** The entry of [tok] after a token at [(prev_line, prev_col)]. *)
Definition quintuple (doc : ParsedDocument) (prev_line prev_col : Z)
    (tok : Token) : list Z :=
  [tok_line tok - prev_line;
   if 0 <? tok_line tok - prev_line then tok_col tok
   else tok_col tok - prev_col;
   tok_end_col tok - tok_col tok; semantic_type doc tok; 0]%Z.

Fixpoint encode_from (doc : ParsedDocument) (prev_line prev_col : Z)
    (emitted : list Token) : list Z :=
  match emitted with
  | [] => []
  | tok :: rest =>
    quintuple doc prev_line prev_col tok
      ++ encode_from doc (tok_line tok) (tok_col tok) rest
  end.

Lemma encode_token_highlighted doc st tok :
  is_highlighted tok →
  encode_token doc st tok =
    mkEncoderState
      (es_data st ++ quintuple doc (es_prev_line st) (es_prev_col st) tok)
      (tok_line tok) (tok_col tok).
Proof.
  unfold is_highlighted, encode_token, quintuple, semantic_type.
  intros Hin. pose proof Hin as Hskip%highlighted_not_skipped.
  rewrite bool_decide_eq_false_2 by done.
  destruct (tok_type tok); try (by apply (bool_decide_pack _) in Hin); done.
Qed.

Lemma encode_token_skipped doc st tok :
  ¬ is_highlighted tok → encode_token doc st tok = st.
Proof.
  unfold is_highlighted, encode_token. rewrite highlighted_not_skipped.
  intros Hskip%dec_stable. by rewrite bool_decide_eq_true_2.
Qed.

Lemma encode_fold doc toks : ∀ st,
  es_data (fold_left (encode_token doc) toks st) =
    es_data st
    ++ encode_from doc (es_prev_line st) (es_prev_col st)
         (filter is_highlighted toks).
Proof.
  induction toks as [|tok toks IH]; intros st.
  - simpl. by rewrite app_nil_r.
  - cbn [fold_left]. rewrite IH.
    destruct (decide (is_highlighted tok)) as [Hh|Hh].
    + rewrite filter_cons_True by done.
      rewrite encode_token_highlighted by done. simpl.
      by rewrite <- app_assoc.
    + rewrite filter_cons_False by done.
      by rewrite encode_token_skipped.
Qed.

Lemma fold_left_concat {A B} (f : A → B → A) (ls : list (list B)) : ∀ a,
  fold_left (λ a l, fold_left f l a) ls a = fold_left f (concat ls) a.
Proof.
  induction ls as [|l ls IH]; intros a; [done|].
  simpl. by rewrite IH, fold_left_app.
Qed.

(** The highlighted tokens of a document, in the order of the token
    matrix. *)
Definition emitted_tokens (doc : ParsedDocument) : list Token :=
  filter is_highlighted (concat (tokens doc)).

Lemma provide_semantic_tokens_encode doc :
  provide_semantic_tokens doc = encode_from doc 0 0 (emitted_tokens doc).
Proof.
  unfold provide_semantic_tokens.
  rewrite (fold_left_concat (encode_token doc)), encode_fold. done.
Qed.

Lemma length_encode_from doc emitted : ∀ prev_line prev_col,
  length (encode_from doc prev_line prev_col emitted) = 5 * length emitted.
Proof.
  induction emitted as [|tok rest IH]; intros prev_line prev_col; [done|].
  cbn [encode_from]. rewrite length_app, IH. simpl. lia.
Qed.

(** The position the encoder remembers when it reaches entry [n]. *)
Definition previous_position (prev_line prev_col : Z) (emitted : list Token)
    (n : nat) : Z * Z :=
  match n with
  | 0 => (prev_line, prev_col)
  | S m =>
    match emitted !! m with
    | Some tok => (tok_line tok, tok_col tok)
    | None => (prev_line, prev_col)
    end
  end.

(** Entry [n] of the encoding is the quintuple of the [n]-th highlighted
    token after the one before it. *)
Lemma encode_from_entry doc emitted : ∀ prev_line prev_col n tok,
  emitted !! n = Some tok →
  take 5 (drop (5 * n) (encode_from doc prev_line prev_col emitted)) =
    quintuple doc (previous_position prev_line prev_col emitted n).1
      (previous_position prev_line prev_col emitted n).2 tok.
Proof.
  induction emitted as [|t rest IH]; intros prev_line prev_col n tok Hn;
    [done|].
  destruct n as [|n].
  - injection Hn as ->. done.
  - cbn [encode_from].
    replace (5 * S n) with (5 + 5 * n) by lia.
    rewrite <- drop_drop.
    change (drop 5 (quintuple doc prev_line prev_col t
                    ++ encode_from doc (tok_line t) (tok_col t) rest))
      with (encode_from doc (tok_line t) (tok_col t) rest).
    rewrite (IH _ _ n tok Hn). destruct n as [|n]; [done|].
    simpl. simpl in Hn. destruct (rest !! n) eqn:Hprev; [done|].
    apply lookup_ge_None in Hprev. apply lookup_lt_Some in Hn. lia.
Qed.

(** C10. For every document the encoder emits exactly one quintuple for
    each token of kind keyword, builtin, constant, logical-operator,
    identifier, number, string, comment or operator, in the order of the
    token matrix, carrying that token's length and type index, and nothing
    else: tokens of kind whitespace, paren-open, paren-close, bracket-open,
    bracket-close, comma, colon and unknown are exactly the ones that
    contribute no entry. *)
Theorem semantic_tokens_skip_punctuation (doc : ParsedDocument) :
  length (provide_semantic_tokens doc) = 5 * length (emitted_tokens doc)
  ∧ emitted_tokens doc =
      filter (λ t, tok_type t ∈ highlighted_kinds) (concat (tokens doc))
  ∧ (∀ n tok, emitted_tokens doc !! n = Some tok →
       ∃ delta_line delta_col,
         take 5 (drop (5 * n) (provide_semantic_tokens doc)) =
           [delta_line; delta_col; (tok_end_col tok - tok_col tok)%Z;
            semantic_type doc tok; 0%Z])
  ∧ (∀ tt, tt ∈ highlighted_kinds ↔ tt ∉ _SKIP)
  ∧ (∀ tok, tok ∈ emitted_tokens doc →
       tok_type tok ∉ [WHITESPACE; PAREN_OPEN; PAREN_CLOSE; BRACKET_OPEN;
                       BRACKET_CLOSE; COMMA; COLON; UNKNOWN]).
Proof.
  rewrite provide_semantic_tokens_encode.
  split; [apply length_encode_from|]. split; [done|].
  split; [|split].
  - intros n tok Hn. rewrite (encode_from_entry _ _ _ _ _ _ Hn).
    unfold quintuple. by eexists _, _.
  - apply highlighted_not_skipped.
  - intros tok [Hh _]%list_elem_of_filter.
    by apply highlighted_not_skipped in Hh.
Qed.

(** [A] lies before [B] in the document: on an earlier line, or on the same
    line and ending no later than [B] starts. *)
Definition before (A B : Token) : Prop :=
  (tok_line A < tok_line B)%Z
  ∨ (tok_line A = tok_line B ∧ (tok_end_col A ≤ tok_col B)%Z).

Lemma contiguous_from_sorted toks : ∀ c line_no,
  contiguous_from c toks → Forall (λ t, tok_line t = line_no) toks →
  StronglySorted before toks.
Proof.
  induction toks as [|t toks IH]; intros c line_no Hcont Hline;
    [constructor|].
  destruct Hcont as (_ & _ & _ & Hrest).
  apply Forall_cons in Hline as [Ht Hline].
  apply StronglySorted_cons. split; [|by apply (IH _ line_no Hrest)].
  apply Forall_lookup. intros i b Hb. right. split.
  - rewrite Forall_lookup in Hline. rewrite (Hline i b Hb). done.
  - by apply (contiguous_from_lower _ _ Hrest i b).
Qed.

Lemma contiguous_from_spans c toks :
  contiguous_from c toks →
  Forall (λ t, tok_end_col t
               = (tok_col t + Z.of_nat (length (tok_value t)))%Z) toks.
Proof.
  revert c. induction toks as [|t toks IH]; intros c Hcont; [constructor|].
  destruct Hcont as (_ & Hend & _ & Hrest).
  constructor; [done|]. by apply (IH _ Hrest).
Qed.

(** Rows of tokens numbered from [start], each tiling its line. *)
Definition tiled_rows (start : nat) (rows : list (list Token)) : Prop :=
  ∀ i toks, rows !! i = Some toks →
    contiguous_from 0 toks
    ∧ Forall (λ t, tok_line t = Z.of_nat (start + i)) toks.

Lemma tiled_rows_sorted rows : ∀ start,
  tiled_rows start rows → StronglySorted before (concat rows).
Proof.
  induction rows as [|toks rows IH]; intros start Hrows; [constructor|].
  simpl. apply StronglySorted_app.
  destruct (Hrows 0 toks eq_refl) as [Hcont Hline].
  rewrite Nat.add_0_r in Hline.
  assert (tiled_rows (S start) rows) as Hrest.
  { intros i toks' Htoks'. specialize (Hrows (S i) toks' Htoks').
    by rewrite Nat.add_succ_r in Hrows. }
  split; [|split].
  - intros A B HA (toks' & HB & Htoks')%elem_of_concat. left.
    rewrite Forall_forall in Hline. rewrite (Hline A HA).
    apply list_elem_of_lookup in Htoks' as [i Hi].
    destruct (Hrest i toks' Hi) as [_ Hline'].
    rewrite Forall_forall in Hline'. rewrite (Hline' B HB). lia.
  - by apply (contiguous_from_sorted toks 0 (Z.of_nat start)).
  - by apply (IH (S start)).
Qed.

Lemma StronglySorted_filter {A} (R : relation A) (P : A → Prop)
    `{∀ x, Decision (P x)} (l : list A) :
  StronglySorted R l → StronglySorted R (filter P l).
Proof.
  induction 1 as [|x l Hsorted IH Hall]; [constructor|].
  destruct (decide (P x)).
  - rewrite filter_cons_True by done. constructor; [done|].
    rewrite Forall_forall in Hall. apply Forall_forall.
    intros y [_ Hy]%list_elem_of_filter. by apply Hall.
  - by rewrite filter_cons_False.
Qed.

Lemma StronglySorted_lookup {A} (R : relation A) (l : list A) :
  StronglySorted R l →
  ∀ i j a b, i < j → l !! i = Some a → l !! j = Some b → R a b.
Proof.
  induction 1 as [|x l Hsorted IH Hall]; intros i j a b Hij Ha Hb; [done|].
  destruct j as [|j]; [lia|]. destruct i as [|i].
  - injection Ha as <-. rewrite Forall_lookup in Hall. by apply (Hall j).
  - apply (IH i j); [lia|done..].
Qed.

Lemma parsed_emitted_sorted source doc :
  parse_document source = Some doc →
  StronglySorted before (emitted_tokens doc)
  ∧ Forall (λ t, tok_end_col t
                 = (tok_col t + Z.of_nat (length (tok_value t)))%Z)
      (emitted_tokens doc).
Proof.
  intros Hdoc. split.
  - apply StronglySorted_filter. apply (tiled_rows_sorted _ 0).
    intros i toks Htoks. by apply (parsed_tokens_contiguous source doc).
  - apply Forall_forall.
    intros t [_ (toks & Ht & Htoks)%elem_of_concat]%list_elem_of_filter.
    apply list_elem_of_lookup in Htoks as [k Hk].
    destruct (parsed_tokens_contiguous _ _ _ _ Hdoc Hk) as [Hcont _].
    apply contiguous_from_spans in Hcont.
    rewrite Forall_forall in Hcont. by apply Hcont.
Qed.

Lemma take_2_entry (data : list Z) k q :
  take 5 (drop k data) = q → take 2 (drop k data) = take 2 q.
Proof. intros <-. rewrite take_take. done. Qed.

(** C8 (amended). On a parsed document, the first quintuple carries the
    line and the start column of the first emitted token. For two tokens [A]
    then [B] emitted one after the other: if they are on the same line, the
    delta-line of [B] is 0 and its delta-column is the start column of [B]
    minus the START column of [A], that is the length of [A] plus the gap
    between the end of [A] and the start of [B]; if [B] is on a later line,
    its delta-line is the difference of the lines and its column value is its
    absolute start column. *)
Theorem semantic_tokens_delta_encoding (source : str)
    (doc : ParsedDocument) :
  parse_document source = Some doc →
  (∀ B, emitted_tokens doc !! 0 = Some B →
     take 2 (provide_semantic_tokens doc) = [tok_line B; tok_col B])
  ∧ (∀ n A B,
       emitted_tokens doc !! n = Some A →
       emitted_tokens doc !! S n = Some B →
       (tok_line A ≤ tok_line B)%Z
       ∧ (tok_line A = tok_line B →
          take 2 (drop (5 * S n) (provide_semantic_tokens doc))
          = [0%Z; (tok_col B - tok_col A)%Z]
          ∧ (tok_col B - tok_col A
             = Z.of_nat (length (tok_value A))
               + (tok_col B - tok_end_col A))%Z
          ∧ (0 ≤ tok_col B - tok_end_col A)%Z)
       ∧ ((tok_line A < tok_line B)%Z →
          take 2 (drop (5 * S n) (provide_semantic_tokens doc))
          = [(tok_line B - tok_line A)%Z; tok_col B])).
Proof.
  intros Hdoc.
  destruct (parsed_emitted_sorted source doc Hdoc) as [Hsorted Hspans].
  rewrite provide_semantic_tokens_encode. split.
  - intros B HB.
    pose proof (encode_from_entry doc _ 0 0 0 B HB) as Hentry.
    apply take_2_entry in Hentry. rewrite drop_0 in Hentry.
    rewrite Hentry. simpl. rewrite !Z.sub_0_r. by destruct (0 <? _)%Z.
  - intros n A B HA HB.
    pose proof (StronglySorted_lookup _ _ Hsorted n (S n) A B
                  ltac:(lia) HA HB) as Hbefore.
    pose proof (encode_from_entry doc _ 0 0 (S n) B HB) as Hentry.
    apply take_2_entry in Hentry. remember (5 * S n) as k eqn:Hk.
    simpl previous_position in Hentry.
    rewrite HA in Hentry. simpl in Hentry.
    rewrite Forall_lookup in Hspans. pose proof (Hspans n A HA) as HspanA.
    split; [|split].
    + destruct Hbefore as [?|[? _]]; lia.
    + intros Hsame. split; [|split].
      * rewrite Hentry, Hsame, Z.sub_diag. done.
      * lia.
      * destruct Hbefore as [?|[_ ?]]; lia.
    + intros Hlater. rewrite Hentry.
      destruct (0 <? tok_line B - tok_line A)%Z eqn:Hpos; [done|].
      apply Z.ltb_ge in Hpos. lia.
Qed.

(** Two identifiers three columns apart. *)
Definition gap_document : str := Eval vm_compute in u "x   y".

(** C8 (as stated) fails: in [gap_document] the token [y] starts three
    columns after the token [x] ends, and its delta-column is 4. *)
Lemma semantic_tokens_gap_counterexample :
  ¬ (∀ source doc n A B,
       parse_document source = Some doc →
       emitted_tokens doc !! n = Some A →
       emitted_tokens doc !! S n = Some B →
       tok_line A = tok_line B →
       tok_col B = (tok_end_col A + 3)%Z →
       take 2 (drop (5 * S n) (provide_semantic_tokens doc)) = [0%Z; 3%Z]).
Proof.
  intros Hclaim.
  destruct (parse_document gap_document) as [doc|] eqn:Hdoc;
    [|by vm_compute in Hdoc].
  specialize (Hclaim _ doc 0 (mkToken IDENTIFIER [120%N] 0 0 1)
                (mkToken IDENTIFIER [121%N] 0 4 5) Hdoc).
  vm_compute in Hdoc. injection Hdoc as <-.
  assert ([0%Z; 4%Z] = [0%Z; 3%Z]) as Habsurd; [|discriminate].
  by apply Hclaim.
Qed.

(** * Further properties of the pipeline *)

(** ** The shape of tokens *)

(** One iteration of the loop of [tokenize_line] at index [i], where the
    character is [ch]: the token appended and the next index ([None] after a
    comment, which ends the loop). *)
Definition next_token (text : str) (line_no : Z) (i : nat) (ch : N)
    : Token * option nat :=
  if (ch =? ch_hash)%N then
    (mkToken COMMENT (drop i text) line_no (Z.of_nat i)
       (Z.of_nat (length text)), None)
  else if is_blank ch then
    let j := advance_while is_blank (drop i text) i in
    (mkToken WHITESPACE (slice text i j) line_no (Z.of_nat i) (Z.of_nat j),
     Some j)
  else if (ch =? ch_quote)%N then
    let j := advance_while not_quote (drop (S i) text) (S i) in
    let j := if j <? length text then S j else j in
    (mkToken STRING (slice text i j) line_no (Z.of_nat i) (Z.of_nat j),
     Some j)
  else if _DIGIT_START ch then
    let j := advance_while _DIGIT_PART (drop i text) i in
    (mkToken NUMBER (slice text i j) line_no (Z.of_nat i) (Z.of_nat j),
     Some j)
  else if _is_ident_start ch then
    let j := advance_while _is_ident_part (drop (S i) text) (S i) in
    (mkToken (classify_word (slice text i j)) (slice text i j) line_no
       (Z.of_nat i) (Z.of_nat j), Some j)
  else if (i + 1 <? length text)
          && bool_decide (slice text i (i + 2) ∈ _OPERATORS_DOUBLE) then
    (mkToken OPERATOR (slice text i (i + 2)) line_no (Z.of_nat i)
       (Z.of_nat (i + 2)), Some (i + 2))
  else if bool_decide (ch ∈ _OPERATORS_SINGLE) then
    (mkToken OPERATOR [ch] line_no (Z.of_nat i) (Z.of_nat (i + 1)),
     Some (i + 1))
  else
    (mkToken (punctuation ch) [ch] line_no (Z.of_nat i) (Z.of_nat (i + 1)),
     Some (i + 1)).

Lemma tokenize_loop_step fuel text line_no i tokens ch :
  text !! i = Some ch →
  tokenize_loop (S fuel) text line_no i tokens =
    match next_token text line_no i ch with
    | (t, None) => tokens ++ [t]
    | (t, Some j) => tokenize_loop fuel text line_no j (tokens ++ [t])
    end.
Proof.
  intros Hch. cbn [tokenize_loop]. rewrite Hch. unfold next_token.
  destruct (ch =? ch_hash)%N; [done|].
  destruct (is_blank ch); [done|].
  destruct (ch =? ch_quote)%N; [done|].
  destruct (_DIGIT_START ch); [done|].
  destruct (_is_ident_start ch); [done|].
  destruct ((i + 1 <? length text) && _); [done|].
  by destruct (bool_decide (ch ∈ _OPERATORS_SINGLE)).
Qed.

(** The tokens from index [i] on, without the accumulator. *)
Fixpoint tokens_from (fuel : nat) (text : str) (line_no : Z) (i : nat)
    : list Token :=
  match fuel with
  | O => []
  | S fuel =>
    match text !! i with
    | None => []
    | Some ch =>
      match next_token text line_no i ch with
      | (t, None) => [t]
      | (t, Some j) => t :: tokens_from fuel text line_no j
      end
    end
  end.

Lemma tokenize_loop_tokens_from fuel text line_no : ∀ i tokens,
  tokenize_loop fuel text line_no i tokens =
    tokens ++ tokens_from fuel text line_no i.
Proof.
  induction fuel as [|fuel IH]; intros i tokens.
  - simpl. by rewrite app_nil_r.
  - destruct (text !! i) as [ch|] eqn:Hch.
    + rewrite (tokenize_loop_step _ _ _ _ _ ch Hch).
      cbn [tokens_from]. rewrite Hch.
      destruct (next_token text line_no i ch) as [t [j|]]; [|done].
      by rewrite IH, <- app_assoc.
    + simpl. rewrite Hch. by rewrite app_nil_r.
Qed.

Lemma tokenize_line_tokens_from text line_no :
  tokenize_line text line_no = tokens_from (length text) text line_no 0.
Proof. unfold tokenize_line. by rewrite tokenize_loop_tokens_from. Qed.

(** The index [advance_while] stops at holds no character that satisfies
    [p]. *)
Lemma advance_while_stop p rest : ∀ i ch,
  rest !! (advance_while p rest i - i) = Some ch → p ch = false.
Proof.
  induction rest as [|c rest IH]; intros i ch; simpl; [done|].
  destruct (p c) eqn:Hp.
  - pose proof (advance_while_bounds p rest (S i)).
    replace (advance_while p rest (S i) - i)
      with (S (advance_while p rest (S i) - S i)) by lia.
    simpl. apply IH.
  - rewrite Nat.sub_diag. simpl. by intros [= <-].
Qed.

Lemma advance_while_stop_text p (text : str) i ch :
  i ≤ length text →
  text !! advance_while p (drop i text) i = Some ch → p ch = false.
Proof.
  intros Hi Hch. apply (advance_while_stop p (drop i text) i).
  rewrite lookup_drop.
  pose proof (advance_while_bounds p (drop i text) i).
  by replace (i + (advance_while p (drop i text) i - i))
    with (advance_while p (drop i text) i) by lia.
Qed.

Lemma advance_while_slice p (text : str) i :
  Forall (λ ch, p ch = true)
    (slice text i (advance_while p (drop i text) i)).
Proof. unfold slice. apply advance_while_take. Qed.

Definition is_word_kind (tt : TokenType) : Prop :=
  tt = KEYWORD ∨ tt = BUILTIN ∨ tt = CONSTANT ∨ tt = LOGICAL_OP
  ∨ tt = IDENTIFIER.

Lemma classify_word_kind word : is_word_kind (classify_word word).
Proof.
  unfold classify_word, is_word_kind.
  repeat case_bool_decide; tauto.
Qed.

(** What the tokenizer guarantees of a token of kind [tt] that spans the
    columns [[i, j)] of [text]. *)
Definition kind_shape (text : str) (i j : nat) (tt : TokenType) : Prop :=
  match tt with
  | COMMENT => text !! i = Some ch_hash ∧ j = length text
  | WHITESPACE =>
    Forall (λ ch, is_blank ch = true) (slice text i j)
    ∧ ∀ ch, text !! j = Some ch → is_blank ch = false
  | STRING =>
    text !! i = Some ch_quote
    ∧ ((S i < j ∧ text !! (j - 1) = Some ch_quote
        ∧ Forall (λ ch, ch ≠ ch_quote) (slice text (S i) (j - 1)))
       ∨ (j = length text
          ∧ Forall (λ ch, ch ≠ ch_quote) (slice text (S i) j)))
  | NUMBER =>
    Forall (λ ch, _DIGIT_PART ch = true) (slice text i j)
    ∧ ∀ ch, text !! j = Some ch → _DIGIT_PART ch = false
  | KEYWORD | BUILTIN | CONSTANT | LOGICAL_OP | IDENTIFIER =>
    tt = classify_word (slice text i j)
    ∧ (∃ ch, text !! i = Some ch ∧ _is_ident_start ch = true
             ∧ _DIGIT_START ch = false)
    ∧ Forall (λ ch, _is_ident_part ch = true) (slice text i j)
    ∧ ∀ ch, text !! j = Some ch → _is_ident_part ch = false
  | OPERATOR =>
    slice text i j ∈ _OPERATORS_DOUBLE
    ∨ ∃ ch, slice text i j = [ch] ∧ ch ∈ _OPERATORS_SINGLE
  | PAREN_OPEN => slice text i j = [ch_lparen]
  | PAREN_CLOSE => slice text i j = [ch_rparen]
  | BRACKET_OPEN => slice text i j = [ch_lbracket]
  | BRACKET_CLOSE => slice text i j = [ch_rbracket]
  | COMMA => slice text i j = [ch_comma]
  | COLON => slice text i j = [ch_colon]
  | UNKNOWN =>
    ∃ ch, slice text i j = [ch] ∧ ch ≠ ch_hash ∧ is_blank ch = false
      ∧ ch ≠ ch_quote ∧ _DIGIT_START ch = false ∧ _is_ident_start ch = false
      ∧ (ch ∉ _OPERATORS_SINGLE) ∧ punctuation ch = UNKNOWN
  end.

(** A token of [text]: its text is the slice of [text] at its columns, and
    it has the shape of its kind. *)
Definition lexed (text : str) (line_no : Z) (t : Token) : Prop :=
  ∃ i j, i < j ≤ length text
    ∧ tok_col t = Z.of_nat i ∧ tok_end_col t = Z.of_nat j
    ∧ tok_line t = line_no
    ∧ tok_value t = slice text i j
    ∧ kind_shape text i j (tok_type t).

Lemma eqb_N_true (a b : N) : (a =? b)%N = true → a = b.
Proof. apply N.eqb_eq. Qed.

Lemma eqb_N_false (a b : N) : (a =? b)%N = false → a ≠ b.
Proof. apply N.eqb_neq. Qed.

Lemma not_quote_Forall (l : str) :
  Forall (λ ch, not_quote ch = true) l → Forall (λ ch, ch ≠ ch_quote) l.
Proof.
  intros Hall. eapply Forall_impl; [exact Hall|].
  intros ch Hch. unfold not_quote in Hch.
  apply negb_true_iff in Hch. by apply N.eqb_neq.
Qed.

Lemma punctuation_shape text i ch :
  text !! i = Some ch →
  (ch =? ch_hash)%N = false → is_blank ch = false →
  (ch =? ch_quote)%N = false → _DIGIT_START ch = false →
  _is_ident_start ch = false → ch ∉ _OPERATORS_SINGLE →
  kind_shape text i (i + 1) (punctuation ch).
Proof.
  intros Hch Hhash Hblank Hquote Hdigit Hstart Hop.
  pose proof (slice_single _ _ _ Hch) as Hslice.
  unfold punctuation.
  destruct (ch =? ch_lparen)%N eqn:H1;
    [apply N.eqb_eq in H1; simpl; by rewrite Hslice, H1|].
  destruct (ch =? ch_rparen)%N eqn:H2;
    [apply N.eqb_eq in H2; simpl; by rewrite Hslice, H2|].
  destruct (ch =? ch_lbracket)%N eqn:H3;
    [apply N.eqb_eq in H3; simpl; by rewrite Hslice, H3|].
  destruct (ch =? ch_rbracket)%N eqn:H4;
    [apply N.eqb_eq in H4; simpl; by rewrite Hslice, H4|].
  destruct (ch =? ch_comma)%N eqn:H5;
    [apply N.eqb_eq in H5; simpl; by rewrite Hslice, H5|].
  destruct (ch =? ch_colon)%N eqn:H6;
    [apply N.eqb_eq in H6; simpl; by rewrite Hslice, H6|].
  simpl. exists ch. repeat split; try done.
  - by apply N.eqb_neq.
  - by apply N.eqb_neq.
  - unfold punctuation. by rewrite H1, H2, H3, H4, H5, H6.
Qed.

(** Every iteration appends a token of [text] that starts at [i], and goes
    on right after it. *)
Lemma next_token_lexed text line_no i ch :
  text !! i = Some ch →
  lexed text line_no (next_token text line_no i ch).1
  ∧ tok_col (next_token text line_no i ch).1 = Z.of_nat i
  ∧ match (next_token text line_no i ch).2 with
    | Some j =>
      tok_end_col (next_token text line_no i ch).1 = Z.of_nat j
      ∧ i < j ≤ length text
    | None => tok_type (next_token text line_no i ch).1 = COMMENT
    end.
Proof.
  intros Hch. pose proof (lookup_lt_Some _ _ _ Hch) as Hlt.
  assert (∀ tt j, i < j ≤ length text → kind_shape text i j tt →
    lexed text line_no
      (mkToken tt (slice text i j) line_no (Z.of_nat i) (Z.of_nat j))
    ∧ Z.of_nat i = Z.of_nat i
    ∧ Z.of_nat j = Z.of_nat j ∧ i < j ≤ length text) as Hmk.
  { intros tt j Hj Hshape. split; [|done]. by exists i, j. }
  unfold next_token.
  destruct (ch =? ch_hash)%N eqn:Hhash.
  { apply N.eqb_eq in Hhash. subst ch. simpl. split; [|done].
    exists i, (length text). repeat split; try done; try lia.
    unfold slice. rewrite take_ge; [done|]. rewrite length_drop. lia. }
  destruct (is_blank ch) eqn:Hblank.
  { pose proof (advance_while_drop is_blank text (S i) ltac:(lia)) as Hadv.
    assert (advance_while is_blank (drop i text) i
            = advance_while is_blank (drop (S i) text) (S i)) as Heq.
    { rewrite (drop_S _ _ _ Hch). simpl. by rewrite Hblank. }
    simpl. apply Hmk; [lia|]. simpl. split.
    - apply advance_while_slice.
    - intros c. apply advance_while_stop_text. lia. }
  destruct (ch =? ch_quote)%N eqn:Hquote.
  { apply N.eqb_eq in Hquote. subst ch.
    pose proof (advance_while_drop not_quote text (S i) ltac:(lia)) as Hadv.
    pose proof (advance_while_slice not_quote text (S i)) as Hin.
    apply not_quote_Forall in Hin.
    set (j0 := advance_while not_quote (drop (S i) text) (S i)) in *.
    simpl. destruct (j0 <? length text) eqn:Hclosed.
    - apply Nat.ltb_lt in Hclosed. apply Hmk; [lia|]. simpl.
      split; [done|]. left. rewrite Nat.sub_0_r. split; [lia|].
      split; [|done].
      destruct (lookup_lt_is_Some_2 text j0 Hclosed) as [c Hc].
      pose proof (advance_while_stop_text not_quote text (S i) c
                    ltac:(lia) Hc) as Hstop.
      unfold not_quote in Hstop. apply negb_false_iff in Hstop.
      apply N.eqb_eq in Hstop. by subst c.
    - apply Nat.ltb_ge in Hclosed. apply Hmk; [lia|]. simpl.
      split; [done|]. right. split; [lia|done]. }
  destruct (_DIGIT_START ch) eqn:Hdigit.
  { pose proof (advance_while_drop _DIGIT_PART text (S i) ltac:(lia)) as Hadv.
    assert (advance_while _DIGIT_PART (drop i text) i
            = advance_while _DIGIT_PART (drop (S i) text) (S i)) as Heq.
    { rewrite (drop_S _ _ _ Hch). simpl.
      change (_DIGIT_PART ch) with (_DIGIT_START ch). by rewrite Hdigit. }
    simpl. apply Hmk; [lia|]. simpl. split.
    - apply advance_while_slice.
    - intros c. apply advance_while_stop_text. lia. }
  destruct (_is_ident_start ch) eqn:Hstart.
  { pose proof (advance_while_drop _is_ident_part text (S i) ltac:(lia))
      as Hadv.
    set (j := advance_while _is_ident_part (drop (S i) text) (S i)) in *.
    simpl. apply Hmk; [lia|].
    assert (tt_shape : ∀ tt, tt = classify_word (slice text i j) →
      kind_shape text i j tt).
    { intros tt Htt.
      assert (tt = classify_word (slice text i j)
        ∧ (∃ c, text !! i = Some c ∧ _is_ident_start c = true
                ∧ _DIGIT_START c = false)
        ∧ Forall (λ c, _is_ident_part c = true) (slice text i j)
        ∧ ∀ c, text !! j = Some c → _is_ident_part c = false) as Hword.
      { split; [done|]. split; [by exists ch|]. split.
        - unfold slice. rewrite (drop_S _ _ _ Hch).
          replace (j - i) with (S (j - S i)) by lia. simpl.
          constructor.
          + unfold _is_ident_start, _IDENT_START in Hstart.
            unfold _is_ident_part, _IDENT_PART.
            by rewrite Hstart.
          + apply (advance_while_slice _is_ident_part text (S i)).
        - intros c. apply advance_while_stop_text. lia. }
      pose proof (classify_word_kind (slice text i j)) as Hkind.
      rewrite <- Htt in Hkind.
      destruct Hkind as [->|[->|[->|[->| ->]]]]; exact Hword. }
    by apply tt_shape. }
  destruct ((i + 1 <? length text) && _) eqn:Hdouble.
  { apply andb_prop in Hdouble as [Hlen Hin]. apply Nat.ltb_lt in Hlen.
    apply bool_decide_eq_true in Hin.
    simpl. apply Hmk; [lia|]. simpl. by left. }
  destruct (bool_decide (ch ∈ _OPERATORS_SINGLE)) eqn:Hsingle.
  { apply bool_decide_eq_true in Hsingle. simpl.
    rewrite <- (slice_single _ _ _ Hch). apply Hmk; [lia|]. simpl. right.
    exists ch. split; [by apply slice_single|done]. }
  apply bool_decide_eq_false in Hsingle. simpl.
  rewrite <- (slice_single _ _ _ Hch). apply Hmk; [lia|].
  by apply punctuation_shape.
Qed.

(** The tokens tile the columns from [i] to the end of [text]. *)
Fixpoint tiles (text : str) (i : nat) (toks : list Token) : Prop :=
  match toks with
  | [] => i = length text
  | t :: rest =>
    tok_col t = Z.of_nat i
    ∧ ∃ j, tok_end_col t = Z.of_nat j ∧ i < j ∧ tiles text j rest
  end.

Lemma tokens_from_lexed text line_no fuel : ∀ i,
  i ≤ length text → length text - i ≤ fuel →
  Forall (lexed text line_no) (tokens_from fuel text line_no i)
  ∧ tiles text i (tokens_from fuel text line_no i).
Proof.
  induction fuel as [|fuel IH]; intros i Hi Hfuel.
  - simpl. split; [constructor|lia].
  - cbn [tokens_from]. destruct (text !! i) as [ch|] eqn:Hch.
    2:{ apply lookup_ge_None in Hch. split; [constructor|simpl; lia]. }
    pose proof (next_token_lexed text line_no i ch Hch)
      as (Hlexed & Hcol & Hnext).
    destruct (next_token text line_no i ch) as [t [j|]]; simpl in *.
    + destruct Hnext as [Hend Hj].
      destruct (IH j ltac:(lia) ltac:(lia)) as [Hall Htiles].
      split; [by constructor|]. split; [done|]. exists j.
      repeat split; try done; lia.
    + split; [by repeat constructor|]. split; [done|].
      destruct Hlexed as (i' & j' & Hij & Hcol' & Hend' & _ & _ & Hshape).
      rewrite Hnext in Hshape. simpl in Hshape. destruct Hshape as [_ ->].
      exists (length text). simpl. repeat split; try done.
      apply lookup_lt_Some in Hch. lia.
Qed.

Lemma tokenize_line_lexed text line_no :
  Forall (lexed text line_no) (tokenize_line text line_no)
  ∧ tiles text 0 (tokenize_line text line_no).
Proof.
  rewrite tokenize_line_tokens_from. apply tokens_from_lexed; lia.
Qed.

(** Consecutive tokens: the second starts where the first ends. *)
Lemma tiles_lookup text toks : ∀ i n t,
  tiles text i toks → toks !! n = Some t →
  ∃ a b, tok_col t = Z.of_nat a ∧ tok_end_col t = Z.of_nat b ∧ i ≤ a < b
    ∧ tiles text b (drop (S n) toks).
Proof.
  induction toks as [|x toks IH]; intros i n t Htiles Hn; [done|].
  destruct Htiles as (Hcol & j & Hend & Hij & Hrest).
  destruct n as [|n].
  - injection Hn as <-. exists i, j. by repeat split.
  - destruct (IH j n t Hrest Hn) as (a & b & Ha & Hb & Hab & Htail).
    exists a, b. repeat split; try done; lia.
Qed.

Lemma tiles_adjacent text toks i n a b :
  tiles text i toks → toks !! n = Some a → toks !! S n = Some b →
  tok_col b = tok_end_col a.
Proof.
  intros Htiles Ha Hb.
  destruct (tiles_lookup _ _ _ _ _ Htiles Ha) as (x & y & _ & Hy & _ & Htail).
  rewrite (drop_S _ _ _ Hb) in Htail. destruct Htail as [Hcol _]. lia.
Qed.

Lemma tiles_le text toks : ∀ i, tiles text i toks → i ≤ length text.
Proof.
  induction toks as [|t toks IH]; intros i Htiles; simpl in Htiles; [lia|].
  destruct Htiles as (_ & j & _ & Hlt & Hrest). specialize (IH j Hrest). lia.
Qed.

Lemma tiles_last text toks i n t :
  tiles text i toks → toks !! n = Some t →
  tok_end_col t = Z.of_nat (length text) → S n = length toks.
Proof.
  intros Htiles Ht Hend.
  destruct (tiles_lookup _ _ _ _ _ Htiles Ht) as (x & y & _ & Hy & _ & Htail).
  assert (y = length text) as -> by lia.
  destruct (drop (S n) toks) as [|t' rest] eqn:Hdrop.
  - apply (f_equal length) in Hdrop. rewrite length_drop in Hdrop.
    simpl in Hdrop. apply lookup_lt_Some in Ht. lia.
  - destruct Htail as (Hcol & j & Hj & Hlt & Hrest).
    apply tiles_le in Hrest. lia.
Qed.

Lemma slice_cons (text : str) i j ch :
  text !! i = Some ch → i < j → slice text i j = ch :: slice text (S i) j.
Proof.
  intros Hch Hij. unfold slice. rewrite (drop_S _ _ _ Hch).
  by replace (j - i) with (S (j - S i)) by lia.
Qed.

Lemma slice_snoc (text : str) i j ch :
  text !! (j - 1) = Some ch → i < j →
  slice text i j = slice text i (j - 1) ++ [ch].
Proof.
  intros Hch Hij. unfold slice.
  replace (j - i) with (S (j - 1 - i)) by lia.
  rewrite (take_S_r _ _ ch); [done|].
  rewrite lookup_drop. by replace (i + (j - 1 - i)) with (j - 1) by lia.
Qed.

(** X1. The text of every token is the slice of the line between its
    columns, which lie within the line, and its line is the line number
    given. *)
Theorem token_text_is_line_slice (text : str) (line_no : Z) :
  Forall (λ t, ∃ i j, i < j ≤ length text
                 ∧ tok_col t = Z.of_nat i ∧ tok_end_col t = Z.of_nat j
                 ∧ tok_line t = line_no ∧ tok_value t = slice text i j)
    (tokenize_line text line_no).
Proof.
  destruct (tokenize_line_lexed text line_no) as [Hall _].
  eapply Forall_impl; [exact Hall|].
  intros t (i & j & Hij & Hcol & Hend & Hline & Hval & _).
  by exists i, j.
Qed.

Lemma lexed_word text line_no t :
  lexed text line_no t → is_word_kind (tok_type t) →
  tok_type t = classify_word (tok_value t)
  ∧ Forall (λ ch, _is_ident_part ch = true) (tok_value t)
  ∧ ∃ ch rest, tok_value t = ch :: rest ∧ _is_ident_start ch = true
               ∧ _DIGIT_START ch = false.
Proof.
  intros (i & j & Hij & _ & _ & _ & Hval & Hshape) Hkind.
  assert (tok_type t = classify_word (slice text i j)
    ∧ (∃ ch, text !! i = Some ch ∧ _is_ident_start ch = true
             ∧ _DIGIT_START ch = false)
    ∧ Forall (λ ch, _is_ident_part ch = true) (slice text i j)
    ∧ ∀ ch, text !! j = Some ch → _is_ident_part ch = false) as Hword.
  { destruct Hkind as [Hk|[Hk|[Hk|[Hk|Hk]]]]; rewrite Hk in Hshape |- *;
      exact Hshape. }
  destruct Hword as (Htype & (ch & Hch & Hstart & Hdigit) & Hpart & _).
  rewrite Hval. split; [done|]. split; [done|].
  exists ch, (slice text (S i) j). split; [|done].
  apply slice_cons; [done|lia].
Qed.

(** X2. A word token is classified by the vocabularies: it is a keyword,
    builtin, constant or logical operator exactly when its text is in the
    set of that rank, in this order, and an identifier otherwise, so an
    identifier is never a reserved word. Its text is made of identifier
    characters and starts with one that is not a digit. *)
Theorem word_tokens_follow_vocabulary (text : str) (line_no : Z) :
  Forall (λ t, is_word_kind (tok_type t) →
            (tok_type t = KEYWORD ↔ (tok_value t ∈ KEYWORD_NAMES))
            ∧ (tok_type t = BUILTIN ↔
               (tok_value t ∉ KEYWORD_NAMES) ∧ (tok_value t ∈ BUILTIN_NAMES))
            ∧ (tok_type t = CONSTANT ↔
               (tok_value t ∉ KEYWORD_NAMES) ∧ (tok_value t ∉ BUILTIN_NAMES)
               ∧ (tok_value t ∈ CONSTANT_NAMES))
            ∧ (tok_type t = LOGICAL_OP ↔
               (tok_value t ∉ KEYWORD_NAMES) ∧ (tok_value t ∉ BUILTIN_NAMES)
               ∧ (tok_value t ∉ CONSTANT_NAMES)
               ∧ (tok_value t ∈ LOGICAL_OP_NAMES))
            ∧ (tok_type t = IDENTIFIER ↔
               (tok_value t ∉ KEYWORD_NAMES) ∧ (tok_value t ∉ BUILTIN_NAMES)
               ∧ (tok_value t ∉ CONSTANT_NAMES)
               ∧ (tok_value t ∉ LOGICAL_OP_NAMES))
            ∧ Forall (λ ch, _is_ident_part ch = true) (tok_value t)
            ∧ ∃ ch rest, tok_value t = ch :: rest
                ∧ _is_ident_start ch = true ∧ _DIGIT_START ch = false)
    (tokenize_line text line_no).
Proof.
  destruct (tokenize_line_lexed text line_no) as [Hall _].
  eapply Forall_impl; [exact Hall|].
  intros t Hlexed Hkind.
  destruct (lexed_word _ _ _ Hlexed Hkind) as (Htype & Hpart & Hfirst).
  rewrite Htype. unfold classify_word.
  repeat case_bool_decide; intuition congruence.
Qed.

Lemma ident_start_is_part ch :
  _is_ident_start ch = true → _is_ident_part ch = true.
Proof.
  unfold _is_ident_start, _IDENT_START, _is_ident_part, _IDENT_PART.
  by intros ->.
Qed.

Lemma digit_is_ident_part ch : _DIGIT_PART ch = true → _is_ident_part ch = true.
Proof.
  unfold _DIGIT_PART, _is_ident_part, _IDENT_PART.
  intros [H|H]%orb_prop; rewrite H; by rewrite ?orb_true_r.
Qed.

(** The first character of a token, by kind. *)
Lemma lexed_first text line_no t :
  lexed text line_no t →
  ∃ i ch, tok_col t = Z.of_nat i ∧ text !! i = Some ch
    ∧ (tok_type t = WHITESPACE → is_blank ch = true)
    ∧ (tok_type t = NUMBER → _DIGIT_PART ch = true)
    ∧ (is_word_kind (tok_type t) → _is_ident_start ch = true).
Proof.
  intros Hlexed.
  pose proof Hlexed as (i & j & Hij & Hcol & _ & _ & Hval & Hshape).
  destruct (lookup_lt_is_Some_2 text i ltac:(lia)) as [ch Hch].
  exists i, ch. split; [done|]. split; [done|].
  pose proof (slice_cons text i j ch Hch ltac:(lia)) as Hslice.
  split; [|split].
  - intros Htype. rewrite Htype in Hshape. destruct Hshape as [Hall _].
    rewrite Hslice in Hall. by apply Forall_cons in Hall as [? _].
  - intros Htype. rewrite Htype in Hshape. destruct Hshape as [Hall _].
    rewrite Hslice in Hall. by apply Forall_cons in Hall as [? _].
  - intros Hkind.
    destruct (lexed_word _ _ _ Hlexed Hkind) as (_ & _ & c & rest & Hc & ? & _).
    rewrite Hval, Hslice in Hc. by injection Hc as -> _.
Qed.

(** The character right after a token, by kind. *)
Lemma lexed_after text line_no t :
  lexed text line_no t →
  ∃ j, tok_end_col t = Z.of_nat j
    ∧ (tok_type t = WHITESPACE → ∀ ch, text !! j = Some ch →
         is_blank ch = false)
    ∧ (tok_type t = NUMBER → ∀ ch, text !! j = Some ch →
         _DIGIT_PART ch = false)
    ∧ (is_word_kind (tok_type t) → ∀ ch, text !! j = Some ch →
         _is_ident_part ch = false)
    ∧ (tok_type t = COMMENT → j = length text).
Proof.
  intros (i & j & Hij & _ & Hend & _ & _ & Hshape).
  exists j. split; [done|]. split; [|split; [|split]].
  - intros Htype. rewrite Htype in Hshape. by destruct Hshape.
  - intros Htype. rewrite Htype in Hshape. by destruct Hshape.
  - intros Hkind.
    destruct Hkind as [Hk|[Hk|[Hk|[Hk|Hk]]]]; rewrite Hk in Hshape;
      by destruct Hshape as (_ & _ & _ & ?).
  - intros Htype. rewrite Htype in Hshape. by destruct Hshape.
Qed.

(** X3. Runs are maximal.  For every two consecutive tokens of a line the
    second starts where the first ends; whitespace is not followed by
    whitespace, a number is not followed by a number, a word is followed
    neither by a word nor by a number, and nothing follows a comment. *)
Theorem tokens_are_maximal_runs (text : str) (line_no : Z) :
  Forall (λ pair,
            tok_col pair.2 = tok_end_col pair.1
            ∧ (tok_type pair.1 = WHITESPACE → tok_type pair.2 ≠ WHITESPACE)
            ∧ (tok_type pair.1 = NUMBER → tok_type pair.2 ≠ NUMBER)
            ∧ (is_word_kind (tok_type pair.1) →
               ¬ is_word_kind (tok_type pair.2)
               ∧ tok_type pair.2 ≠ NUMBER)
            ∧ tok_type pair.1 ≠ COMMENT)
    (zip (tokenize_line text line_no) (drop 1 (tokenize_line text line_no))).
Proof.
  destruct (tokenize_line_lexed text line_no) as [Hall Htiles].
  apply Forall_lookup. intros n [a b] Hpair. simpl.
  apply lookup_zip_with_Some in Hpair as (a' & b' & [= <- <-] & Ha & Hb).
  rewrite lookup_drop in Hb. simpl in Hb.
  pose proof (tiles_adjacent _ _ _ _ _ _ Htiles Ha Hb) as Hadj.
  rewrite Forall_lookup in Hall.
  destruct (lexed_after _ _ _ (Hall _ _ Ha))
    as (j & Hj & Hws & Hnum & Hword & Hcomment).
  destruct (lexed_first _ _ _ (Hall _ _ Hb))
    as (i & ch & Hi & Hch & Hws' & Hnum' & Hword').
  assert (i = j) as -> by lia.
  split; [done|]. split; [|split; [|split]].
  - intros Htype Htype'.
    specialize (Hws Htype ch Hch). specialize (Hws' Htype'). congruence.
  - intros Htype Htype'.
    specialize (Hnum Htype ch Hch). specialize (Hnum' Htype'). congruence.
  - intros Hkind. specialize (Hword Hkind ch Hch). split.
    + intros Hkind'. specialize (Hword' Hkind').
      apply ident_start_is_part in Hword'. congruence.
    + intros Htype'. specialize (Hnum' Htype').
      apply digit_is_ident_part in Hnum'. congruence.
  - intros Htype. specialize (Hcomment Htype). subst j.
    apply lookup_lt_Some in Hch. lia.
Qed.

Lemma last_lookup_pred {A} (l : list A) n x :
  l !! n = Some x → S n = length l → last l = Some x.
Proof. intros Hx Hn. rewrite last_lookup. by replace (pred (length l)) with n by lia. Qed.

Lemma elem_of_double_operator (w : str) :
  w ∈ _OPERATORS_DOUBLE → ch_hash ∉ w.
Proof.
  unfold _OPERATORS_DOUBLE. rewrite elem_of_list_to_set.
  rewrite !elem_of_cons, elem_of_nil.
  intros [->|[->|[->|[->|[]]]]]; by apply (bool_decide_unpack _).
Qed.

(** X4. A [#] outside a string literal starts a comment: it occurs in
    comment and string tokens only.  A comment token starts with [#], runs
    to the end of the line and is the last token of the line. *)
Theorem comment_runs_to_end_of_line (text : str) (line_no : Z) :
  Forall (λ t,
            (ch_hash ∈ tok_value t →
             tok_type t = COMMENT ∨ tok_type t = STRING)
            ∧ (tok_type t = COMMENT →
               head (tok_value t) = Some ch_hash
               ∧ tok_end_col t = Z.of_nat (length text)
               ∧ last (tokenize_line text line_no) = Some t))
    (tokenize_line text line_no).
Proof.
  destruct (tokenize_line_lexed text line_no) as [Hall Htiles].
  apply Forall_lookup. intros n t Ht.
  rewrite Forall_lookup in Hall. pose proof (Hall n t Ht) as Hlexed.
  split.
  - intros Hin.
    destruct (decide (tok_type t = COMMENT)) as [|Hc]; [by left|].
    destruct (decide (tok_type t = STRING)) as [|Hs]; [by right|].
    exfalso.
    destruct Hlexed as (i & j & Hij & _ & _ & _ & Hval & Hshape).
    rewrite Hval in Hin.
    assert (∀ (P : N → bool), Forall (λ c, P c = true) (slice text i j) →
            P ch_hash = false → False) as Hno.
    { intros P HP Hfalse. rewrite Forall_forall in HP.
      specialize (HP _ Hin). congruence. }
    destruct (tok_type t); simpl in Hshape; try done.
    + destruct Hshape as (_ & _ & Hpart & _). by apply (Hno _ Hpart).
    + destruct Hshape as (_ & _ & Hpart & _). by apply (Hno _ Hpart).
    + destruct Hshape as (_ & _ & Hpart & _). by apply (Hno _ Hpart).
    + destruct Hshape as (_ & _ & Hpart & _). by apply (Hno _ Hpart).
    + destruct Hshape as (_ & _ & Hpart & _). by apply (Hno _ Hpart).
    + destruct Hshape as [Hpart _]. by apply (Hno _ Hpart).
    + destruct Hshape as [Hdouble|(c & Hc1 & Hsingle)].
      * by apply (elem_of_double_operator _ Hdouble).
      * rewrite Hc1 in Hin. apply list_elem_of_singleton in Hin as <-.
        by apply (bool_decide_pack _) in Hsingle.
    + rewrite Hshape in Hin. by apply list_elem_of_singleton in Hin.
    + rewrite Hshape in Hin. by apply list_elem_of_singleton in Hin.
    + rewrite Hshape in Hin. by apply list_elem_of_singleton in Hin.
    + rewrite Hshape in Hin. by apply list_elem_of_singleton in Hin.
    + rewrite Hshape in Hin. by apply list_elem_of_singleton in Hin.
    + rewrite Hshape in Hin. by apply list_elem_of_singleton in Hin.
    + destruct Hshape as [Hpart _]. by apply (Hno _ Hpart).
    + destruct Hshape as (c & Hc1 & Hne & _). rewrite Hc1 in Hin.
      by apply list_elem_of_singleton in Hin as <-.
  - intros Htype.
    destruct Hlexed as (i & j & Hij & _ & Hend & _ & Hval & Hshape).
    rewrite Htype in Hshape. destruct Hshape as [Hch ->].
    split; [|split; [done|]].
    + rewrite Hval, (slice_cons _ _ _ _ Hch) by lia. done.
    + apply (last_lookup_pred _ n); [done|].
      by apply (tiles_last text _ 0 n t).
Qed.

(** X5. A string token starts with a quote and holds no other quote but the
    closing one; when the closing quote is missing the token runs to the end
    of the line.  A number token is made of digits and a whitespace token of
    spaces and tabs. *)
Theorem literal_token_shapes (text : str) (line_no : Z) :
  Forall (λ t,
            (tok_type t = STRING →
             ∃ body, Forall (λ ch, ch ≠ ch_quote) body
               ∧ (tok_value t = ch_quote :: body ++ [ch_quote]
                  ∨ (tok_value t = ch_quote :: body
                     ∧ tok_end_col t = Z.of_nat (length text))))
            ∧ (tok_type t = NUMBER →
               Forall (λ ch, _DIGIT_PART ch = true) (tok_value t))
            ∧ (tok_type t = WHITESPACE →
               Forall (λ ch, ch = ch_space ∨ ch = ch_tab) (tok_value t)))
    (tokenize_line text line_no).
Proof.
  destruct (tokenize_line_lexed text line_no) as [Hall _].
  eapply Forall_impl; [exact Hall|].
  intros t (i & j & Hij & Hcol & Hend & _ & Hval & Hshape).
  split; [|split]; intros Htype; rewrite Htype in Hshape; rewrite Hval.
  - destruct Hshape as [Hopen [(Hlen & Hclose & Hbody)|[-> Hbody]]].
    + exists (slice text (S i) (j - 1)). split; [done|]. left.
      rewrite (slice_cons _ _ _ _ Hopen) by lia.
      by rewrite (slice_snoc _ _ _ _ Hclose) by lia.
    + exists (slice text (S i) (length text)). split; [done|]. right.
      split; [|done]. apply slice_cons; [done|lia].
  - by destruct Hshape.
  - destruct Hshape as [Hblank _]. eapply Forall_impl; [exact Hblank|].
    intros ch [H|H]%orb_prop; apply eqb_N_true in H; tauto.
Qed.

(** The kind the tokenizer gives to a token whose text is [v]: the dispatch
    of the loop of [tokenize_line], read on the text of the token alone. *)
Definition kind_of_text (v : str) : TokenType :=
  match v with
  | [] => UNKNOWN
  | ch :: _ =>
    if (ch =? ch_hash)%N then COMMENT
    else if is_blank ch then WHITESPACE
    else if (ch =? ch_quote)%N then STRING
    else if _DIGIT_START ch then NUMBER
    else if _is_ident_start ch then classify_word v
    else if bool_decide (v ∈ _OPERATORS_DOUBLE) then OPERATOR
    else if bool_decide (ch ∈ _OPERATORS_SINGLE) then OPERATOR
    else punctuation ch
  end.

Lemma double_operator_length (w : str) :
  w ∈ _OPERATORS_DOUBLE → length w = 2.
Proof.
  unfold _OPERATORS_DOUBLE. rewrite elem_of_list_to_set.
  rewrite !elem_of_cons, elem_of_nil.
  by intros [->|[->|[->|[->|[]]]]].
Qed.

Lemma next_token_kind text line_no i ch :
  text !! i = Some ch →
  tok_type (next_token text line_no i ch).1
    = kind_of_text (tok_value (next_token text line_no i ch).1).
Proof.
  intros Hch.
  assert (∃ rest, tok_value (next_token text line_no i ch).1 = ch :: rest)
    as [rest Hv].
  { destruct (next_token_lexed text line_no i ch Hch) as (Hlexed & Hcol & _).
    destruct Hlexed as (i' & j & Hij & Hcol' & _ & _ & Hval & _).
    assert (i' = i) as -> by lia.
    exists (slice text (S i) j). rewrite Hval. apply slice_cons; [done|lia]. }
  revert Hv. unfold next_token.
  destruct (ch =? ch_hash)%N eqn:H1; simpl.
  { intros ->. simpl. by rewrite H1. }
  destruct (is_blank ch) eqn:H2; simpl.
  { intros ->. simpl. by rewrite H1, H2. }
  destruct (ch =? ch_quote)%N eqn:H3; simpl.
  { intros ->. simpl. by rewrite H1, H2, H3. }
  destruct (_DIGIT_START ch) eqn:H4; simpl.
  { intros ->. simpl. by rewrite H1, H2, H3, H4. }
  destruct (_is_ident_start ch) eqn:H5; simpl.
  { intros ->. simpl. by rewrite H1, H2, H3, H4, H5. }
  destruct ((i + 1 <? length text)
            && bool_decide (slice text i (i + 2) ∈ _OPERATORS_DOUBLE)) eqn:H6;
    simpl.
  { intros Hv. apply andb_prop in H6 as [_ H6]. rewrite Hv in H6 |- *.
    simpl. by rewrite H1, H2, H3, H4, H5, H6. }
  assert (bool_decide ([ch] ∈ _OPERATORS_DOUBLE) = false) as H7.
  { apply bool_decide_eq_false. by intros ?%double_operator_length. }
  destruct (bool_decide (ch ∈ _OPERATORS_SINGLE)) eqn:H8; simpl;
    intros _; by rewrite H1, H2, H3, H4, H5, H7, H8.
Qed.

Lemma tokens_from_kind text line_no fuel : ∀ i,
  Forall (λ t, tok_type t = kind_of_text (tok_value t))
    (tokens_from fuel text line_no i).
Proof.
  induction fuel as [|fuel IH]; intros i; [constructor|].
  cbn [tokens_from]. destruct (text !! i) as [ch|] eqn:Hch; [|constructor].
  pose proof (next_token_kind text line_no i ch Hch) as Hkind.
  destruct (next_token text line_no i ch) as [t [j|]]; simpl in Hkind.
  - constructor; [done|apply IH].
  - by repeat constructor.
Qed.

(** X6. The kind of a token depends on its text alone: two tokens with the
    same text, of any two lines, have the same kind. *)
Theorem token_kind_determined_by_text
    (text1 text2 : str) (line1 line2 : Z) (t1 t2 : Token) :
  t1 ∈ tokenize_line text1 line1 → t2 ∈ tokenize_line text2 line2 →
  tok_value t1 = tok_value t2 → tok_type t1 = tok_type t2.
Proof.
  intros H1 H2 Hvalue.
  pose proof (tokens_from_kind text1 line1 (length text1) 0) as Hk1.
  pose proof (tokens_from_kind text2 line2 (length text2) 0) as Hk2.
  rewrite <- tokenize_line_tokens_from in Hk1, Hk2.
  rewrite Forall_forall in Hk1, Hk2.
  rewrite (Hk1 _ H1), (Hk2 _ H2). by rewrite Hvalue.
Qed.

(** X7. The vocabulary of symbols.py and the tokenizer agree: every keyword,
    builtin, constant, logical operator and operator of the tables is lexed,
    alone on a line, as one token of its kind, and every operator token of
    any line has its text in [OPERATORS]. *)
Theorem vocabulary_is_lexed_as_declared (text : str) (line_no : Z) :
  Forall (λ w, map tok_type (tokenize_line w line_no) = [KEYWORD]) KEYWORDS
  ∧ Forall (λ w, map tok_type (tokenize_line w line_no) = [BUILTIN]) BUILTINS
  ∧ Forall (λ w, map tok_type (tokenize_line w line_no) = [CONSTANT]) CONSTANTS
  ∧ Forall (λ w, map tok_type (tokenize_line w line_no) = [LOGICAL_OP])
      LOGICAL_OPS
  ∧ Forall (λ w, map tok_type (tokenize_line w line_no) = [OPERATOR]) OPERATORS
  ∧ Forall (λ t, tok_type t = OPERATOR → tok_value t ∈ OPERATORS)
      (tokenize_line text line_no).
Proof.
  repeat split; try (repeat constructor; vm_compute; reflexivity).
  destruct (tokenize_line_lexed text line_no) as [Hall _].
  eapply Forall_impl; [exact Hall|].
  intros t (i & j & _ & _ & _ & _ & Hval & Hshape) Htype.
  rewrite Htype in Hshape. rewrite Hval.
  destruct Hshape as [Hdouble|(ch & -> & Hsingle)].
  - revert Hdouble. unfold _OPERATORS_DOUBLE.
    rewrite elem_of_list_to_set, !elem_of_cons, elem_of_nil.
    intros [->|[->|[->|[->|[]]]]]; by apply (bool_decide_unpack _).
  - revert Hsingle. unfold _OPERATORS_SINGLE.
    rewrite elem_of_list_to_set, !elem_of_cons, elem_of_nil.
    intros [->|[->|[->|[->|[->|[->|[->|[->|[]]]]]]]]];
      by apply (bool_decide_unpack _).
Qed.

(** ** The lines of a document *)

(** ['\n'.join(lines)] *)
Fixpoint join_lines (lines : list str) : str :=
  match lines with
  | [] => []
  | [line] => line
  | line :: rest => line ++ ch_newline :: join_lines rest
  end.

Lemma split_on_nonempty sep s : split_on sep s ≠ [].
Proof.
  destruct s as [|ch s]; simpl; [done|].
  destruct (ch =? sep)%N; [done|]. by destruct (split_on sep s).
Qed.

Lemma join_lines_cons line rest :
  rest ≠ [] → join_lines (line :: rest) = line ++ ch_newline :: join_lines rest.
Proof. by destruct rest. Qed.

Lemma join_split_on s : join_lines (split_on ch_newline s) = s.
Proof.
  induction s as [|ch s IH]; [done|]. simpl.
  pose proof (split_on_nonempty ch_newline s) as Hne.
  destruct (ch =? ch_newline)%N eqn:Hch.
  - apply eqb_N_true in Hch as ->.
    rewrite join_lines_cons by done. simpl. by rewrite IH.
  - destruct (split_on ch_newline s) as [|cur rest]; [done|].
    destruct rest as [|next rest].
    + simpl in *. by rewrite IH.
    + rewrite join_lines_cons by done. rewrite join_lines_cons in IH by done.
      by rewrite <- IH.
Qed.

Lemma split_on_no_sep sep s : Forall (λ line, sep ∉ line) (split_on sep s).
Proof.
  induction s as [|ch s IH]; simpl.
  - repeat constructor. by intros ?%elem_of_nil.
  - destruct (ch =? sep)%N eqn:Hch.
    + constructor; [|done]. by intros ?%elem_of_nil.
    + apply eqb_N_false in Hch.
      destruct (split_on sep s) as [|cur rest].
      * repeat constructor. by intros ->%list_elem_of_singleton.
      * apply Forall_cons in IH as [Hcur Hrest]. constructor; [|done].
        intros [->|?]%elem_of_cons; done.
Qed.

Lemma join_lines_snoc_empty init :
  init ≠ [] → join_lines (init ++ [[]]) = join_lines init ++ [ch_newline].
Proof.
  induction init as [|line init IH]; [done|]. intros _.
  destruct init as [|next init]; [reflexivity|].
  change ((line :: next :: init) ++ [[]])
    with (line :: ((next :: init) ++ [[]])).
  rewrite join_lines_cons by done. rewrite IH by done.
  rewrite (join_lines_cons line (next :: init)) by done.
  by rewrite <- app_assoc.
Qed.

(** X8. The lines of a document hold no newline, there is at least one, and
    joined by newlines they give back the source text, up to one trailing
    newline of the source. *)
Theorem lines_rebuild_source (source : str) :
  ∃ doc, parse_document source = Some doc
    ∧ lines doc ≠ []
    ∧ Forall (λ line, ch_newline ∉ line) (lines doc)
    ∧ (source = join_lines (lines doc)
       ∨ source = join_lines (lines doc) ++ [ch_newline]).
Proof.
  exists (parsed source). split; [apply parse_document_eq|]. simpl.
  split; [apply split_lines_nonempty|].
  unfold split_lines.
  pose proof (join_split_on source) as Hjoin.
  pose proof (split_on_no_sep ch_newline source) as Hno.
  pose proof (split_on_nonempty ch_newline source) as Hne.
  destruct (bool_decide (last (split_on ch_newline source) = Some []))
    eqn:Hlast.
  - apply bool_decide_eq_true in Hlast.
    apply last_Some in Hlast as [init Hinit]. rewrite Hinit in *.
    rewrite length_app, Nat.add_sub. simpl.
    rewrite take_app_length.
    apply Forall_app in Hno as [Hno _].
    destruct init as [|line init].
    + simpl in *. split; [|by left].
      repeat constructor. by intros ?%elem_of_nil.
    + split; [done|]. right. rewrite <- Hjoin.
      by apply join_lines_snoc_empty.
  - destruct (split_on ch_newline source) as [|line rest]; [done|].
    split; [done|]. by left.
Qed.

Lemma join_lines_last init (line : str) :
  line ≠ [] → last (join_lines (init ++ [line])) = last line.
Proof.
  intros Hne. induction init as [|first init IH]; [done|].
  change ((first :: init) ++ [line]) with (first :: (init ++ [line])).
  rewrite join_lines_cons by (by destruct init).
  rewrite last_app, last_cons, IH.
  destruct (last line) eqn:Hlast; [done|].
  by apply last_None in Hlast.
Qed.

(** The lines of a text: what [split('\n')] and the removal of a last empty
    line leave. *)
Lemma split_lines_rebuild source :
  Forall (λ line, ch_newline ∉ line) (split_lines source)
  ∧ (last source = Some ch_newline →
     source = join_lines (split_lines source) ++ [ch_newline])
  ∧ (last source ≠ Some ch_newline →
     source = join_lines (split_lines source)).
Proof.
  unfold split_lines.
  pose proof (join_split_on source) as Hjoin.
  pose proof (split_on_no_sep ch_newline source) as Hno.
  pose proof (split_on_nonempty ch_newline source) as Hne.
  destruct (bool_decide (last (split_on ch_newline source) = Some []))
    eqn:Hlast.
  - apply bool_decide_eq_true in Hlast.
    apply last_Some in Hlast as [init Hinit]. rewrite Hinit in *.
    rewrite length_app, Nat.add_sub. simpl.
    rewrite take_app_length.
    apply Forall_app in Hno as [Hno _].
    destruct init as [|line init].
    + simpl in *. subst source. split; [|by split].
      repeat constructor. by intros ?%elem_of_nil.
    + rewrite join_lines_snoc_empty in Hjoin by done.
      split; [done|]. split; [done|].
      intros Hlast. destruct Hlast. by rewrite <- Hjoin, last_snoc.
  - apply bool_decide_eq_false in Hlast.
    destruct (split_on ch_newline source) as [|line rest] eqn:Hsplit;
      [done|].
    split; [done|]. split; [|done].
    intros Hnl. exfalso.
    destruct (last (line :: rest)) as [final|] eqn:Hfinal.
    2:{ by apply last_None in Hfinal. }
    pose proof Hfinal as [init Hinit]%last_Some.
    assert (final ≠ []) as Hfne by (intros ->; by apply Hlast).
    rewrite Hinit in Hjoin, Hno.
    rewrite <- Hjoin, (join_lines_last init final Hfne) in Hnl.
    apply Forall_app in Hno as [_ Hfinal_no].
    apply Forall_cons in Hfinal_no as [Hfinal_no _].
    by apply last_Some_elem_of in Hnl.
Qed.

(** C2. For every input text [parse_document] returns a document; it never
    fails (no index is out of range).  The lines of the document are the
    lines of the text: there is at least one, none holds a newline, and
    joined by newlines they give the text back, followed by one newline
    exactly when the text ends with one.  The token matrix and the
    indentation list have one entry per line: the tokenization and the
    indentation of that line.  For the empty text the document is one empty
    line, with no token and indentation 0. *)
Theorem parse_document_total (source : str) :
  (∃ doc, parse_document source = Some doc
          ∧ lines doc = split_lines source
          ∧ 1 ≤ length (lines doc)
          ∧ Forall (λ line, ch_newline ∉ line) (lines doc)
          ∧ (last source = Some ch_newline →
             source = join_lines (lines doc) ++ [ch_newline])
          ∧ (last source ≠ Some ch_newline →
             source = join_lines (lines doc))
          ∧ length (tokens doc) = length (lines doc)
          ∧ length (line_indents doc) = length (lines doc)
          ∧ tokens doc = doc_tokens (lines doc)
          ∧ line_indents doc = measure_indent <$> lines doc)
  ∧ (∃ doc, parse_document [] = Some doc
            ∧ lines doc = [[]] ∧ tokens doc = [[]]
            ∧ line_indents doc = [0%Z]).
Proof.
  split.
  - exists (parsed source). split; [apply parse_document_eq|].
    cbn [lines tokens line_indents parsed].
    destruct (split_lines_rebuild source) as (Hno & Hnl & Hplain).
    split; [done|]. split.
    { pose proof (split_lines_nonempty source).
      destruct (split_lines source); [done|simpl; lia]. }
    split; [done|]. split; [done|]. split; [done|].
    unfold doc_tokens. rewrite length_imap, length_fmap. done.
  - eexists. split; [apply parse_document_eq|]. done.
Qed.

(** ** Indentation *)

Lemma measure_indent_loop_stop (rest : str) acc :
  (∀ ch, head rest = Some ch → is_blank ch = false) →
  measure_indent_loop rest acc = acc.
Proof.
  destruct rest as [|ch rest]; [done|]. intros Hhead.
  specialize (Hhead ch eq_refl). unfold is_blank in Hhead.
  apply orb_false_elim in Hhead as [H1 H2]. simpl. by rewrite H1, H2.
Qed.

Lemma measure_indent_loop_app (blanks rest : str) : ∀ acc,
  Forall (λ ch, is_blank ch = true) blanks →
  (∀ ch, head rest = Some ch → is_blank ch = false) →
  measure_indent_loop (blanks ++ rest) acc = measure_indent_loop blanks acc.
Proof.
  induction blanks as [|ch blanks IH]; intros acc Hblank Hrest.
  - simpl. by apply measure_indent_loop_stop.
  - apply Forall_cons in Hblank as [Hch Hblank]. simpl.
    destruct (ch =? ch_space)%N; [by apply IH|].
    destruct (ch =? ch_tab)%N; [by apply IH|done].
Qed.

Lemma measure_indent_loop_bounds (blanks : str) : ∀ acc,
  Forall (λ ch, is_blank ch = true) blanks →
  (acc + Z.of_nat (length blanks) ≤ measure_indent_loop blanks acc
   ≤ acc + 4 * Z.of_nat (length blanks))%Z.
Proof.
  induction blanks as [|ch blanks IH]; intros acc Hblank; [simpl; lia|].
  apply Forall_cons in Hblank as [Hch Hblank].
  unfold is_blank in Hch. cbn [measure_indent_loop length].
  destruct (ch =? ch_space)%N.
  - specialize (IH (acc + 1)%Z Hblank). lia.
  - simpl in Hch. rewrite Hch. specialize (IH (acc + 4)%Z Hblank). lia.
Qed.

Lemma blank_kind ch rest :
  is_blank ch = true → kind_of_text (ch :: rest) = WHITESPACE.
Proof.
  intros Hblank. unfold kind_of_text. rewrite Hblank.
  destruct (ch =? ch_hash)%N eqn:Hhash; [|done].
  apply eqb_N_true in Hhash as ->. done.
Qed.

(** X9. The indentation of a line is the width of its leading whitespace
    token, a space counting for one column and a tab for four, so it lies
    between the length of that token and four times that length; it is 0
    when the line does not start with a whitespace token. *)
Theorem indentation_is_leading_whitespace (line : str) (line_no : Z) :
  match tokenize_line line line_no with
  | t :: _ =>
    if bool_decide (tok_type t = WHITESPACE)
    then measure_indent line = measure_indent (tok_value t)
         ∧ (Z.of_nat (length (tok_value t)) ≤ measure_indent line
            ≤ 4 * Z.of_nat (length (tok_value t)))%Z
    else measure_indent line = 0%Z
  | [] => measure_indent line = 0%Z
  end.
Proof.
  destruct (tokenize_line_lexed line line_no) as [Hall Htiles].
  pose proof (tokens_from_kind line line_no (length line) 0) as Hkind.
  rewrite <- tokenize_line_tokens_from in Hkind.
  destruct (tokenize_line line line_no) as [|t toks].
  { simpl in Htiles. by destruct line. }
  apply Forall_cons in Hall as [Hlexed _].
  apply Forall_cons in Hkind as [Hkind _].
  destruct Htiles as (Hcol & _).
  destruct Hlexed as (i & j & Hij & Hcol' & _ & _ & Hval & Hshape).
  assert (i = 0) as -> by lia.
  assert (line = slice line 0 j ++ drop j line) as Hsplit.
  { unfold slice. by rewrite drop_0, Nat.sub_0_r, take_drop. }
  case_bool_decide as Htype.
  - rewrite Htype in Hshape. destruct Hshape as [Hblank Hstop].
    assert (measure_indent line = measure_indent (tok_value t)) as Heq.
    { rewrite Hval. unfold measure_indent. rewrite Hsplit at 1.
      apply measure_indent_loop_app; [done|].
      intros ch Hch. apply Hstop.
      by rewrite head_lookup, lookup_drop, Nat.add_0_r in Hch. }
    split; [done|]. rewrite Heq, Hval. unfold measure_indent.
    pose proof (measure_indent_loop_bounds _ 0%Z Hblank). lia.
  - destruct line as [|ch rest]; [simpl in Hij; lia|].
    unfold measure_indent. apply measure_indent_loop_stop.
    intros ch' [= <-].
    destruct (is_blank ch) eqn:Hblank; [|done].
    rewrite Hval, (slice_cons _ 0 j ch) in Hkind by (done || lia).
    by rewrite blank_kind in Hkind.
Qed.

(** ** The function table *)

(** The function the pass creates from line [k], when line [k] is a
    recognised header. *)
Definition header_at (rows : list (list Token * Z)) (k : nat)
    : option FuncDef :=
  row ← rows !! k;
  if registers_header k row
  then _parse_func_header (row_sig row) (Z.of_nat k) row.2 else None.

(** Two objects that differ at most in [end_line], the one field the pass
    mutates. *)
Definition same_header (f g : FuncDef) : Prop :=
  set_end_line 0 f = set_end_line 0 g.

Lemma same_header_set_end_line v f : same_header f (set_end_line v f).
Proof. done. Qed.

Lemma same_header_eq f g :
  same_header f g → g = set_end_line (fd_end_line g) f.
Proof.
  destruct f, g. unfold same_header, set_end_line. simpl. congruence.
Qed.

Lemma same_header_fields f g :
  same_header f g →
  fd_name f = fd_name g ∧ fd_line f = fd_line g ∧ fd_col f = fd_col g
  ∧ fd_params f = fd_params g ∧ fd_body_indent f = fd_body_indent g.
Proof.
  destruct f, g. unfold same_header, set_end_line. simpl.
  by intros [= -> -> -> -> ->].
Qed.

(** The store grows, and its objects change in [end_line] only. *)
Definition store_le (s s' : list FuncDef) : Prop :=
  ∀ r f, s !! r = Some f → ∃ f', s' !! r = Some f' ∧ same_header f f'.

Lemma store_le_refl s : store_le s s.
Proof. intros r f Hf. by exists f. Qed.

Lemma store_le_trans s1 s2 s3 :
  store_le s1 s2 → store_le s2 s3 → store_le s1 s3.
Proof.
  intros H12 H23 r f Hf.
  destruct (H12 r f Hf) as (f2 & Hf2 & Hsame2).
  destruct (H23 r f2 Hf2) as (f3 & Hf3 & Hsame3).
  exists f3. split; [done|]. unfold same_header in *. congruence.
Qed.

Lemma store_le_alter v r0 s : store_le s (alter (set_end_line v) r0 s).
Proof.
  intros r f Hf. destruct (decide (r = r0)) as [->|Hne].
  - exists (set_end_line v f). split; [|done].
    by rewrite list_lookup_alter_eq, Hf.
  - exists f. split; [|done]. by rewrite list_lookup_alter_ne.
Qed.

Lemma store_le_app s h : store_le s (s ++ [h]).
Proof.
  intros r f Hf. exists f. split; [|done]. by apply lookup_app_l_Some.
Qed.

Lemma update_extent_store_le k d st :
  store_le (ps_store st) (ps_store (update_extent k d st)).
Proof.
  unfold update_extent. destruct (ps_current_func st); [|apply store_le_refl].
  destruct (_ <=? _)%Z; simpl; apply store_le_alter.
Qed.

Lemma close_at_end_store_le n st :
  store_le (ps_store st) (ps_store (close_at_end n st)).
Proof.
  unfold close_at_end. destruct (ps_current_func st); [|apply store_le_refl].
  apply store_le_alter.
Qed.

Lemma close_at_end_functions n st :
  ps_functions (close_at_end n st) = ps_functions st.
Proof. unfold close_at_end. by destruct (ps_current_func st). Qed.

(** The step of the pass on a recognised header line. *)
Lemma row_step_header st k row h :
  registers_header k row = true →
  _parse_func_header (row_sig row) (Z.of_nat k) row.2 = Some h →
  row_step st k row =
    mkPassState (ps_store (update_extent k row.2 st) ++ [h])
      (<[fd_name h := length (ps_store st)]> (ps_functions st))
      (register_params h (ps_variables st))
      (Some (length (ps_store st))) row.2.
Proof.
  unfold registers_header, row_step, row_sig, line_step.
  destruct (_significant_tokens row.1) as [|sig0 sig'] eqn:Hsig; [done|].
  intros [Hkw _]%andb_prop Hparse.
  change (head (sig0 :: sig')) with (Some sig0). cbv beta iota zeta.
  rewrite Hkw, Hparse.
  by rewrite update_extent_store_length, update_extent_functions,
    update_extent_variables.
Qed.

(** The step of the pass on any other line. *)
Lemma row_step_no_header st k row :
  registers_header k row = false →
  ps_functions (row_step st k row) = ps_functions st
  ∧ store_le (ps_store st) (ps_store (row_step st k row))
  ∧ length (ps_store (row_step st k row)) = length (ps_store st).
Proof.
  unfold registers_header, row_step, row_sig, line_step.
  destruct (_significant_tokens row.1) as [|sig0 sig'] eqn:Hsig.
  { intros _. split; [done|]. split; [apply store_le_refl|done]. }
  change (head (sig0 :: sig')) with (Some sig0). cbv beta iota zeta.
  intros Hreg.
  destruct (is_function_keyword sig0); simpl in Hreg.
  - apply bool_decide_eq_false in Hreg.
    destruct (_parse_func_header _ _ _) as [h|]; [by destruct Hreg|].
    simpl. rewrite update_extent_functions, update_extent_store_length.
    split; [done|]. split; [apply update_extent_store_le|done].
  - simpl. rewrite update_extent_functions, update_extent_store_length.
    split; [done|]. split; [apply update_extent_store_le|done].
Qed.

Lemma header_at_Some rows k h :
  header_at rows k = Some h ↔
  ∃ row, rows !! k = Some row ∧ registers_header k row = true
         ∧ _parse_func_header (row_sig row) (Z.of_nat k) row.2 = Some h.
Proof.
  unfold header_at. destruct (rows !! k) as [row|]; simpl.
  - destruct (registers_header k row) eqn:Hreg.
    + split; [intros Hh; by exists row|]. by intros (? & [= <-] & _ & ?).
    + split; [done|]. intros (? & [= <-] & ? & _). congruence.
  - split; [done|]. by intros (? & ? & _).
Qed.

Lemma header_at_None rows k row :
  rows !! k = Some row → registers_header k row = false →
  header_at rows k = None.
Proof. intros Hrow Hreg. unfold header_at. rewrite Hrow. simpl. by rewrite Hreg. Qed.

Lemma registers_header_parse k row :
  registers_header k row = true →
  ∃ h, _parse_func_header (row_sig row) (Z.of_nat k) row.2 = Some h.
Proof.
  unfold registers_header. destruct (row_sig row); [done|].
  intros [_ Hsome%bool_decide_eq_true]%andb_prop. by destruct Hsome as [h ->]; exists h.
Qed.

Section function_table.
Variable rows : list (list Token * Z).

(** The invariant of the pass before line [k]: the table maps each name to
    the object of the last header of that name above line [k], and holds no
    other name. *)
Definition table_inv (k : nat) (st : PassState) : Prop :=
  refs_valid st
  ∧ ∀ name,
      match ps_functions st !! name with
      | None => ∀ j h, j < k → header_at rows j = Some h → fd_name h ≠ name
      | Some r =>
        ∃ f L h, ps_store st !! r = Some f ∧ L < k
          ∧ header_at rows L = Some h ∧ fd_name h = name ∧ same_header h f
          ∧ ∀ j h', L < j < k → header_at rows j = Some h' →
              fd_name h' ≠ name
      end.

Lemma table_inv_initial : table_inv 0 initial_state.
Proof.
  split; [apply refs_valid_initial|]. intros name. simpl.
  rewrite lookup_empty. intros j h Hj. lia.
Qed.

Lemma row_step_table_inv k row st :
  rows !! k = Some row → table_inv k st → table_inv (S k) (row_step st k row).
Proof.
  intros Hrow [Hvalid Hinv].
  split; [by apply row_step_valid|]. intros name.
  destruct (registers_header k row) eqn:Hreg.
  - destruct (registers_header_parse k row Hreg) as [h Hparse].
    assert (header_at rows k = Some h) as Hk
      by (apply header_at_Some; by exists row).
    rewrite (row_step_header st k row h Hreg Hparse). simpl.
    destruct (decide (fd_name h = name)) as [Hname|Hname].
    + rewrite <- Hname, lookup_insert_eq.
      exists h, k, h. rewrite lookup_app_r, update_extent_store_length,
        Nat.sub_diag by (rewrite update_extent_store_length; lia).
      repeat split; try done; try lia.
    + rewrite lookup_insert_ne by done.
      specialize (Hinv name).
      destruct (ps_functions st !! name) as [r|] eqn:Hr.
      * destruct Hinv as (f & L & h0 & Hf & HL & Hh0 & Hn0 & Hsame & Hlast).
        destruct (update_extent_store_le k row.2 st r f Hf)
          as (f' & Hf' & Hsame').
        exists f', L, h0. rewrite (lookup_app_l_Some _ _ _ _ Hf').
        repeat split; try done; try lia.
        { unfold same_header in *. congruence. }
        intros j h' Hj Hh'. destruct (decide (j = k)) as [->|Hjk].
        -- rewrite Hk in Hh'. by injection Hh' as <-.
        -- apply (Hlast j h'); [lia|done].
      * intros j h' Hj Hh'. destruct (decide (j = k)) as [->|Hjk].
        -- rewrite Hk in Hh'. by injection Hh' as <-.
        -- apply (Hinv j h'); [lia|done].
  - destruct (row_step_no_header st k row Hreg) as (Hfun & Hstore & _).
    rewrite Hfun. specialize (Hinv name).
    pose proof (header_at_None rows k row Hrow Hreg) as Hk.
    destruct (ps_functions st !! name) as [r|] eqn:Hr.
    + destruct Hinv as (f & L & h0 & Hf & HL & Hh0 & Hn0 & Hsame & Hlast).
      destruct (Hstore r f Hf) as (f' & Hf' & Hsame').
      exists f', L, h0. repeat split; try done; try lia.
      { unfold same_header in *. congruence. }
      intros j h' Hj Hh'. destruct (decide (j = k)) as [->|Hjk].
      * congruence.
      * apply (Hlast j h'); [lia|done].
    + intros j h' Hj Hh'. destruct (decide (j = k)) as [->|Hjk].
      * congruence.
      * apply (Hinv j h'); [lia|done].
Qed.

Lemma final_table_inv name :
  match ps_functions (run_lines initial_state 0 rows) !! name with
  | None =>
    ∀ j h, j < length rows → header_at rows j = Some h → fd_name h ≠ name
  | Some r =>
    ∃ f L h,
      ps_store (close_at_end (length rows) (run_lines initial_state 0 rows))
        !! r = Some f
      ∧ L < length rows
      ∧ header_at rows L = Some h ∧ fd_name h = name ∧ same_header h f
      ∧ ∀ j h', L < j < length rows → header_at rows j = Some h' →
          fd_name h' ≠ name
  end.
Proof.
  pose proof (run_lines_invariant table_inv rows 0 initial_state
                table_inv_initial) as Hrun.
  simpl in Hrun. destruct Hrun as [Hvalid Hinv].
  { intros k row st Hrow. by apply row_step_table_inv. }
  set (st := run_lines initial_state 0 rows) in *.
  specialize (Hinv name).
  destruct (ps_functions st !! name) as [r|]; [|done].
  destruct Hinv as (f & L & h0 & Hf & HL & Hh0 & Hn0 & Hsame & Hlast).
  destruct (close_at_end_store_le (length rows) st r f Hf)
    as (f' & Hf' & Hsame').
  exists f', L, h0. repeat split; try done.
  unfold same_header in *. congruence.
Qed.
End function_table.

Lemma header_at_range rows k h : header_at rows k = Some h → k < length rows.
Proof.
  intros (row & Hrow & _)%header_at_Some. by apply lookup_lt_Some in Hrow.
Qed.

(** X10. The function table holds exactly the names of the recognised
    headers, and for each name the function of the last header of that name:
    an entry differs from what [_parse_func_header] returned for that line in
    [end_line] only, and its key is its name. *)
Theorem function_table_holds_last_definition (source : str) (name : str) :
  ∃ doc, parse_document source = Some doc ∧
    let rows := zip (tokens doc) (line_indents doc) in
    match functions doc !! name with
    | Some f =>
      fd_name f = name
      ∧ ∃ L h, header_at rows L = Some h ∧ fd_name h = name
          ∧ fd_line f = Z.of_nat L
          ∧ f = set_end_line (fd_end_line f) h
          ∧ ∀ j h', header_at rows j = Some h' → fd_name h' = name → j ≤ L
    | None => ∀ j h, header_at rows j = Some h → fd_name h ≠ name
    end.
Proof.
  exists (parsed source). split; [apply parse_document_eq|]. simpl.
  fold (doc_rows (split_lines source)).
  set (rows := doc_rows (split_lines source)).
  pose proof (final_table_inv rows name) as Hinv.
  rewrite lookup_omap. unfold final_state. fold rows.
  rewrite <- (length_doc_rows (split_lines source)). fold rows.
  rewrite close_at_end_functions.
  destruct (ps_functions _ !! name) as [r|]; simpl.
  - destruct Hinv as (f & L & h & Hf & HL & Hh & Hname & Hsame & Hlast).
    rewrite Hf.
    destruct (same_header_fields _ _ Hsame) as (Hn & Hl & _).
    split; [congruence|]. exists L, h. repeat split; try done.
    + rewrite <- Hl.
      apply header_at_Some in Hh as (row & _ & _ & Hparse).
      by apply _parse_func_header_Some in Hparse as (? & _).
    + by apply same_header_eq.
    + intros j h' Hh' Hname'.
      destruct (decide (j ≤ L)) as [|Hgt]; [done|]. exfalso.
      apply (Hlast j h'); [|done..].
      apply header_at_range in Hh'. lia.
  - intros j h Hh. apply (Hinv j h); [|done]. by apply header_at_range in Hh.
Qed.

Lemma parsed_function_name source name f :
  functions (parsed source) !! name = Some f → fd_name f = name.
Proof.
  simpl. rewrite lookup_omap.
  pose proof (final_table_inv (doc_rows (split_lines source)) name) as Hinv.
  unfold final_state. rewrite close_at_end_functions.
  rewrite <- (length_doc_rows (split_lines source)).
  destruct (ps_functions _ !! name) as [r|]; [|done]. simpl.
  destruct Hinv as (f' & L & h & Hf & _ & _ & Hname & Hsame & _).
  rewrite Hf. intros [= <-].
  destruct (same_header_fields _ _ Hsame) as (Hn & _). congruence.
Qed.

Lemma header_of_line rows f L d :
  header_of rows f L d → fd_line f = Z.of_nat L.
Proof.
  intros (row & _ & _ & _ & Hparse).
  by apply _parse_func_header_Some in Hparse as (? & _).
Qed.

Lemma header_of_name rows f g L d d' :
  header_of rows f L d → header_of rows g L d' → fd_name f = fd_name g.
Proof.
  intros (row & Hrow & Hd & _ & Hf) (row' & Hrow' & Hd' & _ & Hg).
  assert (row' = row) as -> by congruence.
  apply _parse_func_header_Some in Hf as (_ & _ & _ & t & Ht & _ & Hnf & _).
  apply _parse_func_header_Some in Hg as (_ & _ & _ & t' & Ht' & _ & Hng & _).
  simpl in *. congruence.
Qed.

(** The extents of two functions of the table, the first declared above the
    second. *)
Lemma parsed_extents_ordered source n1 n2 f1 f2 :
  functions (parsed source) !! n1 = Some f1 →
  functions (parsed source) !! n2 = Some f2 →
  n1 ≠ n2 →
  fd_line f1 ≠ fd_line f2
  ∧ ((fd_line f1 < fd_line f2)%Z → (fd_end_line f1 ≤ fd_line f2)%Z).
Proof.
  intros H1 H2 Hne.
  pose proof (parsed_function_name _ _ _ H1) as Hn1.
  pose proof (parsed_function_name _ _ _ H2) as Hn2.
  destruct (parsed_function_extent source _ n1 f1 (parse_document_eq source)
              H1) as [(L1 & d1 & E1 & Hh1 & HE1 & Hr1 & _ & Hnone1 & _) _].
  destruct (parsed_function_extent source _ n2 f2 (parse_document_eq source)
              H2) as [(L2 & d2 & E2 & Hh2 & HE2 & Hr2 & _ & Hnone2 & _) _].
  rewrite (header_of_line _ _ _ _ Hh1), (header_of_line _ _ _ _ Hh2), HE1.
  split.
  - intros HL. assert (L1 = L2) as -> by lia.
    pose proof (header_of_name _ _ _ _ _ _ Hh1 Hh2). congruence.
  - intros HL.
    destruct (decide (E1 ≤ L2)) as [|Hgt]; [lia|]. exfalso.
    destruct Hh2 as (row & Hrow & _ & Hreg & _).
    pose proof (Hnone1 L2 row ltac:(lia) Hrow). congruence.
Qed.

(** X11. Two functions of the table are declared on different lines, and the
    body of the one declared first ends at the latest on the line where the
    other is declared: the line ranges [(line, end_line]] of the functions of
    the table are pairwise disjoint. *)
Theorem function_extents_are_disjoint (source : str) :
  ∃ doc, parse_document source = Some doc ∧
    ∀ n1 n2 f1 f2,
      functions doc !! n1 = Some f1 → functions doc !! n2 = Some f2 →
      n1 ≠ n2 →
      fd_line f1 ≠ fd_line f2
      ∧ ((fd_line f1 < fd_line f2)%Z → (fd_end_line f1 ≤ fd_line f2)%Z)
      ∧ ∀ line : Z,
          (fd_line f1 < line ≤ fd_end_line f1)%Z →
          ¬ (fd_line f2 < line ≤ fd_end_line f2)%Z.
Proof.
  exists (parsed source). split; [apply parse_document_eq|].
  intros n1 n2 f1 f2 H1 H2 Hne.
  destruct (parsed_extents_ordered source n1 n2 f1 f2 H1 H2 Hne)
    as [Hlines H12].
  destruct (parsed_extents_ordered source n2 n1 f2 f1 H2 H1 ltac:(done))
    as [_ H21].
  repeat split; try done. intros line Hin1 Hin2. lia.
Qed.

(** ** Parameters *)

Lemma parsed_function_header source name f :
  functions (parsed source) !! name = Some f →
  ∃ L h, header_at (doc_rows (split_lines source)) L = Some h
    ∧ fd_name h = name ∧ same_header h f.
Proof.
  simpl. rewrite lookup_omap.
  pose proof (final_table_inv (doc_rows (split_lines source)) name) as Hinv.
  unfold final_state. rewrite close_at_end_functions.
  rewrite <- (length_doc_rows (split_lines source)).
  destruct (ps_functions _ !! name) as [r|]; [|done]. simpl.
  destruct Hinv as (f' & L & h & Hf & _ & Hh & Hname & Hsame & _).
  rewrite Hf. intros [= <-]. by exists L, h.
Qed.

Lemma collect_params_tokens rest : ∀ params,
  ∃ new, collect_params rest params = params ++ new
    ∧ Forall (λ p, ∃ t, t ∈ rest ∧ tok_type t = IDENTIFIER
                ∧ p = mkParamInfo (tok_value t) (tok_line t) (tok_col t)) new.
Proof.
  induction rest as [|t rest IH]; intros params; simpl.
  { exists []. by rewrite app_nil_r. }
  destruct (bool_decide (tok_type t = PAREN_CLOSE)).
  { exists []. by rewrite app_nil_r. }
  destruct (bool_decide (tok_type t = IDENTIFIER)) eqn:Hid.
  - apply bool_decide_eq_true in Hid.
    destruct (IH (params ++ [mkParamInfo (tok_value t) (tok_line t)
                               (tok_col t)])) as (new & -> & Hnew).
    exists (mkParamInfo (tok_value t) (tok_line t) (tok_col t) :: new).
    split; [by rewrite <- app_assoc|]. constructor.
    + exists t. split; [left|done].
    + eapply Forall_impl; [exact Hnew|].
      intros p (t' & Ht' & Hp). exists t'. split; [by right|done].
  - destruct (IH params) as (new & -> & Hnew). exists new. split; [done|].
    eapply Forall_impl; [exact Hnew|].
    intros p (t' & Ht' & Hp). exists t'. split; [by right|done].
Qed.

Lemma find_paren_open_ge rest : ∀ idx n,
  find_paren_open rest idx = Some n → idx ≤ n.
Proof.
  induction rest as [|t rest IH]; intros idx n; simpl; [done|].
  destruct (bool_decide _); [intros [= <-]; lia|].
  intros Hn%IH. lia.
Qed.

(** The parameters of a header: identifier tokens of the line, after the
    token of the name. *)
Lemma _parse_func_header_params sig lineno indent h :
  _parse_func_header sig lineno indent = Some h →
  ∃ name_tok, sig !! 1 = Some name_tok ∧ fd_col h = tok_col name_tok
    ∧ Forall (λ p, ∃ i t, 3 ≤ i ∧ sig !! i = Some t
                ∧ tok_type t = IDENTIFIER
                ∧ p = mkParamInfo (tok_value t) (tok_line t) (tok_col t))
        (fd_params h).
Proof.
  unfold _parse_func_header. destruct (_ <? _); [done|].
  destruct sig as [|sig0 [|name_tok sig']]; [done..|].
  destruct (bool_decide (tok_type name_tok = IDENTIFIER)); [|done]. simpl.
  rewrite drop_0.
  destruct (find_paren_open sig' 2) as [idx|] eqn:Hidx; [|done].
  intros [= <-]. simpl. exists name_tok. split; [done|]. split; [done|].
  apply find_paren_open_ge in Hidx.
  destruct (collect_params_tokens
              (drop (idx + 1) (sig0 :: name_tok :: sig')) [])
    as (new & -> & Hnew).
  simpl. eapply Forall_impl; [exact Hnew|].
  intros p (t & Ht & Hid & Hp).
  apply list_elem_of_lookup in Ht as [i Hi]. rewrite lookup_drop in Hi.
  exists (idx + 1 + i), t. repeat split; try done. lia.
Qed.

Lemma registrations_from_intro rest : ∀ st k0 i row r,
  rest !! i = Some row →
  r ∈ line_registrations (run_lines st k0 (take i rest)) (k0 + i) row →
  r ∈ registrations_from st k0 rest.
Proof.
  induction rest as [|row0 rest IH]; intros st k0 i row r Hrow Hr; [done|].
  simpl. apply elem_of_app. destruct i as [|i].
  - injection Hrow as ->. left. by rewrite Nat.add_0_r in Hr.
  - right. apply (IH _ (S k0) i row); [done|].
    rewrite firstn_cons, run_lines_cons in Hr.
    by replace (S k0 + i) with (k0 + S i) by lia.
Qed.

Lemma header_line_registrations st k row h :
  registers_header k row = true →
  _parse_func_header (row_sig row) (Z.of_nat k) row.2 = Some h →
  line_registrations st k row = param_registration h <$> fd_params h.
Proof.
  unfold registers_header, line_registrations.
  destruct (row_sig row) as [|sig0 sig']; [done|].
  intros [-> _]%andb_prop ->. done.
Qed.

Lemma tokenize_line_spans text line_no :
  Forall (λ t, (tok_col t < tok_end_col t)%Z) (tokenize_line text line_no).
Proof.
  destruct (tokenize_line_lexed text line_no) as [Hall _].
  eapply Forall_impl; [exact Hall|].
  intros t (i & j & Hij & -> & -> & _). lia.
Qed.

Lemma StronglySorted_significant (R : relation Token) toks :
  StronglySorted R toks → StronglySorted R (_significant_tokens toks).
Proof.
  unfold _significant_tokens.
  induction 1 as [|x l Hsorted IH Hall]; [constructor|]. simpl.
  destruct (is_significant x); [|done]. constructor; [done|].
  rewrite Forall_forall in Hall. apply Forall_forall.
  intros y Hy. apply Hall.
  by apply list_elem_of_In, filter_In in Hy as [?%list_elem_of_In _].
Qed.

Lemma row_sig_sorted line k :
  StronglySorted before
    (row_sig (tokenize_line line (Z.of_nat k), measure_indent line))
  ∧ Forall (λ t, tok_line t = Z.of_nat k ∧ (tok_col t < tok_end_col t)%Z
              ∧ t ∈ tokenize_line line (Z.of_nat k))
      (row_sig (tokenize_line line (Z.of_nat k), measure_indent line)).
Proof.
  destruct (tokenize_line_covers line (Z.of_nat k))
    as (_ & Hcont & Hline & _).
  unfold row_sig, _significant_tokens. simpl. split.
  - apply StronglySorted_significant.
    by apply (contiguous_from_sorted _ 0 (Z.of_nat k)).
  - apply Forall_forall. intros t Ht.
    apply list_elem_of_In, filter_In in Ht as [Ht _].
    apply list_elem_of_In in Ht.
    rewrite Forall_forall in Hline. split; [by apply Hline|].
    split; [|done].
    pose proof (tokenize_line_spans line (Z.of_nat k)) as Hne.
    rewrite Forall_forall in Hne. by apply Hne.
Qed.

(** X12. Every parameter of a function of the table is an identifier token
    of the header line, to the right of the function's name, recorded at
    that token's position, and the variable table holds an entry for it
    under the key ['function:parameter'], with that name and the function as
    scope. *)
Theorem parameters_are_registered (source : str) :
  ∃ doc, parse_document source = Some doc ∧
    ∀ name f, functions doc !! name = Some f →
      Forall (λ p,
                param_line p = fd_line f ∧ (fd_col f < param_col p)%Z
                ∧ (∃ toks t,
                     tokens doc !! Z.to_nat (fd_line f) = Some toks
                     ∧ t ∈ toks ∧ tok_type t = IDENTIFIER
                     ∧ tok_value t = param_name p
                     ∧ tok_col t = param_col p)
                ∧ ∃ v,
                    variables doc !! (name ++ [ch_colon] ++ param_name p)
                      = Some v
                    ∧ vd_name v = param_name p ∧ vd_scope v = name)
        (fd_params f).
Proof.
  exists (parsed source). split; [apply parse_document_eq|].
  intros name f Hf.
  destruct (parsed_function_header source name f Hf)
    as (L & h & Hh & Hname & Hsame).
  destruct (same_header_fields _ _ Hsame) as (_ & Hl & Hc & Hp & _).
  rewrite <- Hl, <- Hc, <- Hp. clear Hl Hc Hp Hsame Hf f.
  apply header_at_Some in Hh as (row & Hrow & Hreg & Hparse).
  destruct (doc_rows_lookup _ _ _ Hrow) as (line & Hline & ->).
  pose proof (_parse_func_header_Some _ _ _ _ Hparse) as (HL & _).
  destruct (_parse_func_header_params _ _ _ _ Hparse)
    as (name_tok & Hname_tok & Hcol & Hparams).
  destruct (row_sig_sorted line L) as [Hsorted Hsig].
  rewrite Forall_lookup in Hsig.
  apply Forall_forall. intros p Hpin.
  rewrite Forall_forall in Hparams.
  destruct (Hparams p Hpin) as (i & t & Hi & Ht & Hid & Hpeq).
  destruct (Hsig _ _ Ht) as (Htl & _ & Htin).
  destruct (Hsig _ _ Hname_tok) as (Hnl & Hnspan & _).
  assert (param_name p = tok_value t ∧ param_line p = tok_line t
          ∧ param_col p = tok_col t) as (Hpn & Hpl & Hpc) by (by subst p).
  rewrite Hpl, Hpc.
  split; [congruence|]. split; [|split].
  - pose proof (StronglySorted_lookup _ _ Hsorted 1 i name_tok t
                  ltac:(lia) Hname_tok Ht) as [Hlt|[_ Hle]]; lia.
  - exists (tokenize_line line (Z.of_nat L)), t.
    rewrite HL, Nat2Z.id. simpl. unfold doc_tokens.
    rewrite list_lookup_imap, Hline. done.
  - pose proof (parsed_variables source _ (parse_document_eq source)
                  (name ++ [ch_colon] ++ param_name p)) as Hvars.
    pose proof (parsed_registrations_colon_free source _
                  (parse_document_eq source)) as Hfree.
    cbn [tokens line_indents variables parsed] in Hvars, Hfree.
    fold (doc_rows (split_lines source)) in Hvars, Hfree.
    set (r := param_registration h p).
    assert (r ∈ registrations (doc_rows (split_lines source))) as Hr.
    { apply (registrations_from_intro _ _ 0 L _ _ Hrow). simpl.
      rewrite (header_line_registrations _ _ _ h Hreg Hparse).
      apply list_elem_of_fmap. by exists p. }
    assert (reg_key r = name ++ [ch_colon] ++ param_name p) as Hkey
      by (by rewrite <- Hname).
    change (variables (parsed source))
      with (ps_variables (final_state (split_lines source))).
    rewrite Hvars.
    destruct (head (filter _ _)) as [r0|] eqn:Hhead.
    + apply head_Some_elem_of, list_elem_of_filter in Hhead as [Hkey0 Hr0].
      rewrite Forall_forall in Hfree.
      destruct (Hfree r Hr) as [Hrn Hrs]. destruct (Hfree r0 Hr0) as [Hn0 Hs0].
      rewrite <- Hkey in Hkey0. unfold reg_key in Hkey0.
      apply var_key_inj in Hkey0 as [Hscope Hn]; [|done..].
      exists (reg_def r0). split; [done|]. simpl.
      rewrite Hscope, Hn. simpl. done.
    + apply head_None in Hhead.
      assert (r ∈ filter (λ r, reg_key r = name ++ [ch_colon] ++ param_name p)
                    (registrations (doc_rows (split_lines source)))) as Hin
        by (by apply list_elem_of_filter).
      rewrite Hhead in Hin. by apply elem_of_nil in Hin.
Qed.

(** ** Where definitions point *)

(** An identifier token named [name] at column [col] of line [line]. *)
Definition identifier_at (doc : ParsedDocument) (name : str) (line col : Z)
    : Prop :=
  ∃ toks t, (0 ≤ line)%Z ∧ tokens doc !! Z.to_nat line = Some toks
    ∧ t ∈ toks ∧ tok_type t = IDENTIFIER ∧ tok_value t = name
    ∧ tok_col t = col
    ∧ tok_end_col t = (col + Z.of_nat (length name))%Z.

Lemma tokenize_line_end_col text line_no :
  Forall (λ t, tok_end_col t
               = (tok_col t + Z.of_nat (length (tok_value t)))%Z)
    (tokenize_line text line_no).
Proof.
  destruct (tokenize_line_covers text line_no) as (_ & Hcont & _).
  by apply contiguous_from_spans in Hcont.
Qed.

Lemma parsed_row_identifier source k row i t :
  doc_rows (split_lines source) !! k = Some row →
  row_sig row !! i = Some t → tok_type t = IDENTIFIER →
  identifier_at (parsed source) (tok_value t) (Z.of_nat k) (tok_col t).
Proof.
  intros Hrow Ht Hid.
  destruct (doc_rows_lookup _ _ _ Hrow) as (line & Hline & ->).
  destruct (row_sig_sorted line k) as [_ Hsig].
  rewrite Forall_lookup in Hsig. destruct (Hsig _ _ Ht) as (_ & _ & Hin).
  exists (tokenize_line line (Z.of_nat k)), t.
  split; [lia|]. rewrite Nat2Z.id. split.
  { simpl. unfold doc_tokens. by rewrite list_lookup_imap, Hline. }
  repeat split; try done.
  pose proof (tokenize_line_end_col line (Z.of_nat k)) as Hend.
  rewrite Forall_forall in Hend. by apply Hend.
Qed.

Lemma parsed_function_token source name f :
  functions (parsed source) !! name = Some f →
  identifier_at (parsed source) name (fd_line f) (fd_col f).
Proof.
  intros Hf.
  destruct (parsed_function_header source name f Hf)
    as (L & h & Hh & Hname & Hsame).
  destruct (same_header_fields _ _ Hsame) as (_ & Hl & Hc & _).
  rewrite <- Hl, <- Hc.
  apply header_at_Some in Hh as (row & Hrow & Hreg & Hparse).
  apply _parse_func_header_Some in Hparse
    as (-> & _ & _ & t & Ht & Hid & Hn & ->).
  rewrite <- Hname, Hn. by apply (parsed_row_identifier _ _ row 1).
Qed.

Lemma assignment_of_Some sig lineno scope r :
  assignment_of sig lineno scope = Some r →
  ∃ sig0, sig !! 0 = Some sig0 ∧ tok_type sig0 = IDENTIFIER
    ∧ r = mkRegistration scope (tok_value sig0) lineno (tok_col sig0).
Proof.
  unfold assignment_of. destruct sig as [|sig0 [|sig1 [|sig2 sig']]]; try done.
  destruct (bool_decide (tok_type sig0 = IDENTIFIER)) eqn:Hid; [|done].
  apply bool_decide_eq_true in Hid.
  destruct (_ && _); [|done]. intros [= <-]. by exists sig0.
Qed.

Lemma parsed_variable_token source key v :
  variables (parsed source) !! key = Some v →
  identifier_at (parsed source) (vd_name v) (vd_line v) (vd_col v).
Proof.
  rewrite (parsed_variables source _ (parse_document_eq source)).
  cbn [tokens line_indents parsed]. fold (doc_rows (split_lines source)).
  destruct (head _) as [r|] eqn:Hhead; [|done]. intros [= <-].
  apply head_Some_elem_of, list_elem_of_filter in Hhead as [_ Hr].
  apply registrations_origin in Hr as (k & row & Hrow & Horigin). simpl.
  destruct Horigin as [(f & p & Hreg & Hparse & Hp & ->)|(_ & Hassign & _)].
  - destruct (_parse_func_header_params _ _ _ _ Hparse)
      as (_ & _ & _ & Hparams).
    rewrite Forall_forall in Hparams.
    destruct (Hparams p Hp) as (i & t & _ & Ht & Hid & ->). simpl.
    destruct (doc_rows_lookup _ _ _ Hrow) as (line & Hline & Hroweq).
    destruct (row_sig_sorted line k) as [_ Hsig].
    rewrite Forall_lookup in Hsig. rewrite <- Hroweq in Hsig.
    destruct (Hsig _ _ Ht) as (-> & _).
    by apply (parsed_row_identifier _ _ row i).
  - apply assignment_of_Some in Hassign as (sig0 & Hsig0 & Hid & ->). simpl.
    by apply (parsed_row_identifier _ _ row 0).
Qed.

(** X13. Every entry of the function table and of the variable table points
    at an identifier token of the document: on the recorded line there is an
    identifier token with the recorded name that starts at the recorded
    column and spans the length of the name. *)
Theorem definitions_point_at_identifiers (source : str) :
  ∃ doc, parse_document source = Some doc
    ∧ (∀ name f, functions doc !! name = Some f →
         identifier_at doc name (fd_line f) (fd_col f))
    ∧ (∀ key v, variables doc !! key = Some v →
         identifier_at doc (vd_name v) (vd_line v) (vd_col v)).
Proof.
  exists (parsed source). split; [apply parse_document_eq|]. split.
  - apply parsed_function_token.
  - apply parsed_variable_token.
Qed.

(** ** Expected indentation *)

(** A line the text-based checks look at: not blank and not a comment. *)
Definition is_statement (line : str) : bool :=
  negb (bool_decide (strip line = []) || startswith (strip line) [ch_hash]).

(** A line that announces a block: it ends with a colon and starts with a
    block keyword. *)
Definition opens_block (line : str) : bool :=
  endswith (strip line) [ch_colon] && _line_opens_block (strip line).

Definition indent_warning (lineno : nat) (line : str) : Diagnostic :=
  mkDiagnostic (_whole_line_range (Z.of_nat lineno) line) msg_expected_indent
    SeverityWarning.

(** The last statement above line [k]. *)
Definition previous_statement (lines : list str) (k : nat) : option str :=
  last (filter (λ line, is_statement line = true) (take k lines)).

(** Line [k] follows a block opener without being indented more. *)
Definition expects_block (lines : list str) (k : nat) (line : str) : bool :=
  match previous_statement lines k with
  | Some prev =>
    opens_block prev && (measure_indent line <=? measure_indent prev)%Z
  | None => false
  end.

Definition indentation_step (st : Z * bool) (line : str) : Z * bool :=
  if is_statement line then (measure_indent line, opens_block line) else st.

Definition indentation_emitted (st : Z * bool) (lineno : nat) (line : str)
    : list Diagnostic :=
  if is_statement line && st.2 && (measure_indent line <=? st.1)%Z
  then [indent_warning lineno line] else [].

Lemma indentation_line_step doc st diags lineno line :
  line_indents doc !! lineno = Some (measure_indent line) →
  indentation_line doc (st, diags) lineno line =
    Some (indentation_step st line,
          diags ++ indentation_emitted st lineno line).
Proof.
  intros Hindent. destruct st as [prev_indent prev_opener].
  unfold indentation_line, indentation_step, indentation_emitted,
    is_statement, opens_block.
  destruct (bool_decide (strip line = []) || startswith (strip line) [ch_hash]).
  { simpl. by rewrite app_nil_r. }
  rewrite Hindent. simpl.
  destruct (prev_opener && (measure_indent line <=? prev_indent)%Z);
    [done|]. by rewrite app_nil_r.
Qed.

(** The state of the check before line [k]. *)
Definition indentation_state (lines : list str) (k : nat) : Z * bool :=
  fold_left indentation_step (take k lines) (0%Z, false).

Lemma indentation_loop_run doc rest : ∀ st diags start,
  (∀ i line, rest !! i = Some line →
     line_indents doc !! (start + i) = Some (measure_indent line)) →
  indentation_loop doc (st, diags) start rest =
    Some (fold_left indentation_step rest st,
          diags ++ concat (imap (λ i line,
                     indentation_emitted
                       (fold_left indentation_step (take i rest) st)
                       (start + i) line) rest)).
Proof.
  induction rest as [|line rest IH]; intros st diags start Hindents.
  - simpl. by rewrite app_nil_r.
  - change (indentation_loop doc (st, diags) start (line :: rest))
      with (indentation_line doc (st, diags) start line
              ≫= λ st', indentation_loop doc st' (S start) rest).
    rewrite indentation_line_step.
    2:{ specialize (Hindents 0 line eq_refl).
        by rewrite Nat.add_0_r in Hindents. }
    cbn [mbind option_bind]. rewrite IH.
    + simpl. rewrite Nat.add_0_r, <- app_assoc. do 5 f_equal.
      apply imap_ext. intros i line' _. simpl. by rewrite Nat.add_succ_r.
    + intros i line' Hline'. specialize (Hindents (S i) line' Hline').
      by rewrite Nat.add_succ_r in Hindents.
Qed.

Lemma indentation_state_previous lines :
  fold_left indentation_step lines (0%Z, false) =
    match last (filter (λ line, is_statement line = true) lines) with
    | Some prev => (measure_indent prev, opens_block prev)
    | None => (0%Z, false)
    end.
Proof.
  induction lines as [|line lines IH] using rev_ind; [done|].
  rewrite fold_left_app, filter_app. simpl. rewrite IH.
  unfold indentation_step at 1.
  destruct (is_statement line) eqn:Hst.
  - rewrite filter_cons_True by done. rewrite filter_nil.
    by rewrite last_snoc.
  - rewrite filter_cons_False by congruence. rewrite filter_nil.
    by rewrite app_nil_r.
Qed.

Lemma indentation_emitted_line st j line :
  Forall (λ dg, pos_line (range_start (diag_range dg)) = Z.of_nat j)
    (indentation_emitted st j line).
Proof.
  unfold indentation_emitted. destruct (_ && _); by repeat constructor.
Qed.

(** X14. [_check_indentation] appends to [diags], and never fails on a
    parsed document.  Line [k] gets exactly one warning when it is a
    statement (not blank, not a comment), the last statement above it ends
    with a colon and starts with a block keyword, and line [k] is not
    indented more than that statement; it gets nothing otherwise. *)
Theorem indentation_check (source : str) :
  ∃ doc new, parse_document source = Some doc
    ∧ (∀ diags, _check_indentation doc diags = Some (diags ++ new))
    ∧ (∀ k line, lines doc !! k = Some line →
         on_line k new =
           if is_statement line && expects_block (lines doc) k line
           then [indent_warning k line] else [])
    ∧ (∀ k, length (lines doc) ≤ k → on_line k new = []).
Proof.
  exists (parsed source).
  set (doc := parsed source).
  exists (concat (imap (λ i line,
            indentation_emitted (indentation_state (lines doc) i) i line)
            (lines doc))).
  split; [apply parse_document_eq|]. split; [|split].
  - intros diags. unfold _check_indentation.
    rewrite indentation_loop_run.
    2:{ intros i line Hline. subst doc. simpl in *.
        by rewrite list_lookup_fmap, Hline. }
    done.
  - intros k line Hline.
    rewrite (on_line_concat_imap _ _ k)
      by (intros; apply indentation_emitted_line).
    rewrite Hline. simpl. unfold indentation_emitted, expects_block,
      indentation_state, previous_statement.
    rewrite indentation_state_previous.
    destruct (last _) as [prev|]; simpl.
    + by rewrite andb_assoc.
    + by rewrite andb_false_r.
  - intros k Hk.
    rewrite (on_line_concat_imap _ _ k)
      by (intros; apply indentation_emitted_line).
    by rewrite lookup_ge_None_2.
Qed.

(** ** Block structure *)

(** The keyword a line starts with: the text of its first significant
    token, when that token is a keyword. *)
Definition first_keyword (toks : list Token) : option str :=
  match _significant_tokens toks with
  | sig0 :: _ =>
    if bool_decide (tok_type sig0 = KEYWORD) then Some (tok_value sig0)
    else None
  | [] => None
  end.

Definition structure_error (lineno : nat) (text : str) (msg : str)
    : Diagnostic :=
  mkDiagnostic (_whole_line_range (Z.of_nat lineno) text) msg SeverityError.

(** What the check reports for a line of tokens [row.1] and text [row.2]. *)
Definition block_emitted (lineno : nat) (row : list Token * str)
    : list Diagnostic :=
  match first_keyword row.1 with
  | None => []
  | Some kw =>
    let s := strip row.2 in
    if bool_decide (kw = kw_function) then
      if negb (bool_decide (ch_lparen ∈ s)) || negb (endswith s [ch_colon])
      then [structure_error lineno row.2 msg_function_form]
      else if negb (bool_decide (ch_rparen ∈ s))
      then [structure_error lineno row.2 msg_missing_paren]
      else []
    else if bool_decide (kw ∈ [kw_if; kw_while; kw_elif]) then
      if endswith s [ch_colon] then []
      else [structure_error lineno row.2 (msg_must_end kw)]
    else if bool_decide (kw = kw_else) then
      if endswith s [ch_colon] then []
      else [structure_error lineno row.2 msg_else_must_end]
    else []
  end.

Lemma block_structure_line_emitted doc diags lineno toks text :
  lines doc !! lineno = Some text →
  block_structure_line doc diags lineno toks =
    Some (diags ++ block_emitted lineno (toks, text)).
Proof.
  intros Htext. unfold block_structure_line, block_emitted, first_keyword.
  simpl. destruct (_significant_tokens toks) as [|sig0 sig'].
  { by rewrite app_nil_r. }
  destruct (bool_decide (tok_type sig0 = KEYWORD)); simpl.
  2:{ by rewrite app_nil_r. }
  rewrite Htext. simpl.
  destruct (bool_decide (tok_value sig0 = kw_function)) eqn:Hfn.
  - apply bool_decide_eq_true in Hfn. rewrite Hfn.
    replace (bool_decide (kw_function ∈ [kw_if; kw_while; kw_elif]))
      with false by (by vm_compute).
    replace (bool_decide (kw_function = kw_else))
      with false by (by vm_compute).
    destruct (negb (bool_decide (ch_lparen ∈ strip text))
              || negb (endswith (strip text) [ch_colon])); [done|].
    destruct (negb (bool_decide (ch_rparen ∈ strip text))); [done|].
    simpl. by rewrite app_nil_r.
  - simpl.
    destruct (bool_decide (tok_value sig0 ∈ [kw_if; kw_while; kw_elif]))
      eqn:Hkw.
    + assert (bool_decide (tok_value sig0 = kw_else) = false) as ->.
      { apply bool_decide_eq_false. intros Helse.
        apply bool_decide_eq_true in Hkw. rewrite Helse in Hkw.
        revert Hkw. by apply (bool_decide_unpack _). }
      destruct (endswith (strip text) [ch_colon]); simpl; [|done].
      by rewrite app_nil_r.
    + simpl. destruct (bool_decide (tok_value sig0 = kw_else)); simpl.
      * destruct (endswith (strip text) [ch_colon]); simpl; [|done].
        by rewrite app_nil_r.
      * by rewrite app_nil_r.
Qed.

Lemma block_structure_loop_emitted doc rest : ∀ diags start texts,
  length texts = length rest →
  (∀ i text, texts !! i = Some text → lines doc !! (start + i) = Some text) →
  block_structure_loop doc diags start rest =
    Some (diags ++ concat (imap (λ i row, block_emitted (start + i) row)
                             (zip rest texts))).
Proof.
  induction rest as [|toks rest IH]; intros diags start texts Hlen Htexts.
  - simpl. by rewrite app_nil_r.
  - destruct texts as [|text texts]; [done|].
    change (block_structure_loop doc diags start (toks :: rest))
      with (block_structure_line doc diags start toks
              ≫= λ diags', block_structure_loop doc diags' (S start) rest).
    rewrite (block_structure_line_emitted _ _ _ _ text).
    2:{ specialize (Htexts 0 text eq_refl).
        by rewrite Nat.add_0_r in Htexts. }
    cbn [mbind option_bind]. rewrite (IH _ _ texts).
    + simpl. rewrite Nat.add_0_r, <- app_assoc. do 4 f_equal.
      apply imap_ext. intros i row _. simpl. by rewrite Nat.add_succ_r.
    + simpl in Hlen. lia.
    + intros i text' Htext'. specialize (Htexts (S i) text' Htext').
      by rewrite Nat.add_succ_r in Htexts.
Qed.

Lemma block_emitted_line j row :
  Forall (λ dg, pos_line (range_start (diag_range dg)) = Z.of_nat j)
    (block_emitted j row).
Proof.
  unfold block_emitted. destruct (first_keyword row.1); [|constructor].
  simpl. repeat (case_bool_decide || destruct (negb _ || negb _)
                 || destruct (negb _) || destruct (endswith _ _));
    by repeat constructor.
Qed.

(** The condition under which a line gets a structural error. *)
Definition ill_formed_block (toks : list Token) (text : str) : Prop :=
  ∃ kw, first_keyword toks = Some kw ∧ kw ∈ BLOCK_OPENERS
    ∧ (endswith (strip text) [ch_colon] = false
       ∨ (kw = kw_function
          ∧ ((ch_lparen ∉ strip text) ∨ (ch_rparen ∉ strip text)))).

Lemma block_emitted_spec k toks text :
  length (block_emitted k (toks, text)) ≤ 1
  ∧ Forall (λ dg, diag_severity dg = SeverityError
              ∧ diag_range dg = _whole_line_range (Z.of_nat k) text)
      (block_emitted k (toks, text))
  ∧ (block_emitted k (toks, text) ≠ [] ↔ ill_formed_block toks text).
Proof.
  unfold block_emitted, ill_formed_block. simpl.
  destruct (first_keyword toks) as [kw|].
  2:{ split; [simpl; lia|]. split; [constructor|].
      split; [done|]. by intros (kw & ? & _). }
  assert (kw_function ∈ BLOCK_OPENERS) as Hfn by (by apply (bool_decide_unpack _)).
  assert (kw_else ∈ BLOCK_OPENERS) as Helse by (by apply (bool_decide_unpack _)).
  assert (∀ w, w ∈ [kw_if; kw_while; kw_elif] → w ∈ BLOCK_OPENERS) as Hcond.
  { intros w. unfold BLOCK_OPENERS. rewrite !elem_of_cons. tauto. }
  assert (∀ w, w ∈ BLOCK_OPENERS →
            w = kw_function ∨ w ∈ [kw_if; kw_while; kw_elif] ∨ w = kw_else)
    as Hcases.
  { intros w. unfold BLOCK_OPENERS. rewrite !elem_of_cons. tauto. }
  destruct (bool_decide (kw = kw_function)) eqn:H1.
  { apply bool_decide_eq_true in H1 as ->.
    destruct (bool_decide (ch_lparen ∈ strip text)) eqn:Hl;
      destruct (endswith (strip text) [ch_colon]) eqn:He;
      destruct (bool_decide (ch_rparen ∈ strip text)) eqn:Hr; simpl;
      (split; [lia|]); (split; [by repeat constructor|]);
      try apply bool_decide_eq_true in Hl; try apply bool_decide_eq_false in Hl;
      try apply bool_decide_eq_true in Hr; try apply bool_decide_eq_false in Hr.
    all: split; [intros Hne|].
    all: try (exists kw_function; split; [done|]; split; [done|]; tauto).
    all: try done.
    all: intros (w & [= <-] & _ & [?|(_ & [?|?])]); done. }
  apply bool_decide_eq_false in H1.
  destruct (bool_decide (kw ∈ [kw_if; kw_while; kw_elif])) eqn:H2.
  { apply bool_decide_eq_true in H2.
    destruct (endswith (strip text) [ch_colon]) eqn:He; simpl;
      (split; [lia|]); (split; [by repeat constructor|]).
    - split; [done|]. intros (w & [= <-] & _ & [?|(? & _)]); done.
    - split; [|done]. intros _. exists kw. split; [done|].
      split; [by apply Hcond|by left]. }
  apply bool_decide_eq_false in H2.
  destruct (bool_decide (kw = kw_else)) eqn:H3.
  { apply bool_decide_eq_true in H3 as ->.
    destruct (endswith (strip text) [ch_colon]) eqn:He; simpl;
      (split; [lia|]); (split; [by repeat constructor|]).
    - split; [done|]. intros (w & [= <-] & _ & [?|(? & _)]); done.
    - split; [|done]. intros _. exists kw_else. split; [done|].
      split; [done|by left]. }
  apply bool_decide_eq_false in H3.
  split; [simpl; lia|]. split; [constructor|]. split; [done|].
  intros (w & [= <-] & Hin & _). apply Hcases in Hin. tauto.
Qed.

(** X15. [_check_block_structure] appends to [diags] and never fails on a
    parsed document.  Every line gets at most one diagnostic, an error that
    spans the whole line, and it gets one exactly when its first significant
    token is a block keyword and either the stripped line does not end with
    a colon, or the keyword is the function keyword and the stripped line
    lacks an opening or a closing parenthesis. *)
Theorem block_structure_check (source : str) :
  ∃ doc new, parse_document source = Some doc
    ∧ (∀ diags, _check_block_structure doc diags = Some (diags ++ new))
    ∧ (∀ k toks text,
         tokens doc !! k = Some toks → lines doc !! k = Some text →
         length (on_line k new) ≤ 1
         ∧ Forall (λ dg, diag_severity dg = SeverityError
                     ∧ diag_range dg = _whole_line_range (Z.of_nat k) text)
             (on_line k new)
         ∧ (on_line k new ≠ [] ↔ ill_formed_block toks text))
    ∧ (∀ k, length (lines doc) ≤ k → on_line k new = []).
Proof.
  exists (parsed source).
  set (doc := parsed source).
  exists (concat (imap block_emitted (zip (tokens doc) (lines doc)))).
  assert (length (tokens doc) = length (lines doc)) as Hlen.
  { subst doc. simpl. unfold doc_tokens. by rewrite length_imap. }
  split; [apply parse_document_eq|]. split; [|split].
  - intros diags. unfold _check_block_structure.
    by rewrite (block_structure_loop_emitted doc (tokens doc) diags 0
                  (lines doc)).
  - intros k toks text Htoks Htext.
    rewrite on_line_concat_imap by apply block_emitted_line.
    assert (zip (tokens doc) (lines doc) !! k = Some (toks, text)) as ->.
    { apply lookup_zip_with_Some. by exists toks, text. }
    apply block_emitted_spec.
  - intros k Hk.
    rewrite on_line_concat_imap by apply block_emitted_line.
    rewrite lookup_ge_None_2; [done|]. rewrite length_zip_with. lia.
Qed.

(** ** The whole analysis *)

(** What each check appends for a document. *)
Definition indentation_warnings (doc : ParsedDocument) : list Diagnostic :=
  concat (imap (λ i line,
            indentation_emitted (indentation_state (lines doc) i) i line)
            (lines doc)).

Definition structure_errors (doc : ParsedDocument) : list Diagnostic :=
  concat (imap block_emitted (zip (tokens doc) (lines doc))).

Definition orphan_errors (doc : ParsedDocument) : list Diagnostic :=
  orphan_errors_from ∅ 0 (lines doc).

Definition unmatched_errors (doc : ParsedDocument) : list Diagnostic :=
  concat (imap unmatched_emitted (zip (tokens doc) (lines doc))).

Definition undefined_warnings (doc : ParsedDocument) : list Diagnostic :=
  concat (imap (line_warnings doc) (tokens doc)).

Lemma parsed_lengths source :
  length (tokens (parsed source)) = length (lines (parsed source))
  ∧ line_indents (parsed source) = measure_indent <$> lines (parsed source).
Proof. simpl. unfold doc_tokens. by rewrite length_imap. Qed.

Lemma parsed_check_indentation source diags :
  _check_indentation (parsed source) diags =
    Some (diags ++ indentation_warnings (parsed source)).
Proof.
  unfold _check_indentation. rewrite indentation_loop_run; [done|].
  intros i line Hline. simpl in *. by rewrite list_lookup_fmap, Hline.
Qed.

Lemma parsed_check_block_structure source diags :
  _check_block_structure (parsed source) diags =
    Some (diags ++ structure_errors (parsed source)).
Proof.
  unfold _check_block_structure.
  rewrite (block_structure_loop_emitted _ _ diags 0 (lines (parsed source)));
    [done| |done].
  symmetry. apply parsed_lengths.
Qed.

Lemma parsed_check_orphaned source diags :
  _check_orphaned_elif_else (parsed source) diags =
    Some (diags ++ orphan_errors (parsed source)).
Proof.
  unfold _check_orphaned_elif_else. rewrite orphan_loop_run; [done|].
  intros i line Hline. simpl in *. by rewrite list_lookup_fmap, Hline.
Qed.

Lemma parsed_check_unmatched source diags :
  _check_unmatched_parens (parsed source) diags =
    Some (diags ++ unmatched_errors (parsed source)).
Proof.
  unfold _check_unmatched_parens.
  rewrite (unmatched_loop_emitted _ _ diags 0 (lines (parsed source)));
    [done| |done].
  symmetry. apply parsed_lengths.
Qed.

Lemma check_undefined_references_app doc diags :
  _check_undefined_references doc diags = diags ++ undefined_warnings doc.
Proof. unfold _check_undefined_references. by rewrite undefined_loop_warnings. Qed.

Lemma parsed_analyze source :
  analyze (parsed source) =
    Some (indentation_warnings (parsed source)
          ++ structure_errors (parsed source)
          ++ orphan_errors (parsed source)
          ++ unmatched_errors (parsed source)
          ++ undefined_warnings (parsed source)).
Proof.
  unfold analyze.
  rewrite parsed_check_indentation. cbn [mbind option_bind app].
  rewrite parsed_check_block_structure. cbn [mbind option_bind].
  rewrite parsed_check_orphaned. cbn [mbind option_bind].
  rewrite parsed_check_unmatched. cbn [mbind option_bind].
  rewrite check_undefined_references_app.
  by rewrite <- !app_assoc.
Qed.

(** X16. [analyze] never fails on a parsed document.  Each of the five
    checks appends to the list it is given a list of its own that does not
    depend on what was reported before, and the result of [analyze] is the
    concatenation of these five lists in the order of the checks. *)
Theorem analyze_concatenates_checks (source : str) :
  ∃ doc n1 n2 n3 n4 n5, parse_document source = Some doc
    ∧ (∀ diags, _check_indentation doc diags = Some (diags ++ n1))
    ∧ (∀ diags, _check_block_structure doc diags = Some (diags ++ n2))
    ∧ (∀ diags, _check_orphaned_elif_else doc diags = Some (diags ++ n3))
    ∧ (∀ diags, _check_unmatched_parens doc diags = Some (diags ++ n4))
    ∧ (∀ diags, _check_undefined_references doc diags = diags ++ n5)
    ∧ analyze doc = Some (n1 ++ n2 ++ n3 ++ n4 ++ n5).
Proof.
  exists (parsed source), (indentation_warnings (parsed source)),
    (structure_errors (parsed source)), (orphan_errors (parsed source)),
    (unmatched_errors (parsed source)), (undefined_warnings (parsed source)).
  split; [apply parse_document_eq|].
  split; [apply parsed_check_indentation|].
  split; [apply parsed_check_block_structure|].
  split; [apply parsed_check_orphaned|].
  split; [apply parsed_check_unmatched|].
  split; [apply check_undefined_references_app|].
  apply parsed_analyze.
Qed.

(** ** Where diagnostics lie *)

(** A range within one line of the document. *)
Definition range_on_line (doc : ParsedDocument) (r : Range) : Prop :=
  ∃ k text, lines doc !! k = Some text
    ∧ pos_line (range_start r) = Z.of_nat k
    ∧ pos_line (range_end r) = Z.of_nat k
    ∧ (0 ≤ pos_character (range_start r) ≤ pos_character (range_end r)
       ≤ Z.of_nat (length text))%Z.

Lemma whole_line_on_line doc k text :
  lines doc !! k = Some text →
  range_on_line doc (_whole_line_range (Z.of_nat k) text).
Proof. intros Htext. exists k, text. simpl. repeat split; try done; lia. Qed.

Lemma orphan_errors_from_range doc rest : ∀ table start dg,
  (∀ i line, rest !! i = Some line → lines doc !! (start + i) = Some line) →
  dg ∈ orphan_errors_from table start rest →
  range_on_line doc (diag_range dg).
Proof.
  induction rest as [|line rest IH]; intros table start dg Hlines Hdg.
  { by apply elem_of_nil in Hdg. }
  simpl in Hdg. apply elem_of_app in Hdg as [Hdg|Hdg].
  - pose proof (Hlines 0 line eq_refl) as Hline.
    rewrite Nat.add_0_r in Hline.
    unfold orphan_emitted in Hdg.
    destruct (classify_line line), (table !! measure_indent line);
      try (by apply elem_of_nil in Hdg);
      apply list_elem_of_singleton in Hdg as ->;
      by apply whole_line_on_line.
  - apply (IH (orphan_table_step table start line) (S start) dg); [|done].
    intros i line' Hline'. specialize (Hlines (S i) line' Hline').
    by rewrite Nat.add_succ_r in Hlines.
Qed.

Lemma analyze_ranges source :
  Forall (λ dg, range_on_line (parsed source) (diag_range dg))
    (indentation_warnings (parsed source)
     ++ structure_errors (parsed source)
     ++ orphan_errors (parsed source)
     ++ unmatched_errors (parsed source)
     ++ undefined_warnings (parsed source)).
Proof.
  set (doc := parsed source).
  repeat (apply Forall_app; split); apply Forall_forall; intros dg Hdg.
  - apply elem_of_concat in Hdg as (l & Hdg & Hl).
    apply elem_of_lookup_imap in Hl as (k & line & -> & Hline).
    unfold indentation_emitted in Hdg.
    destruct (_ && _); [|by apply elem_of_nil in Hdg].
    apply list_elem_of_singleton in Hdg as ->.
    by apply whole_line_on_line.
  - apply elem_of_concat in Hdg as (l & Hdg & Hl).
    apply elem_of_lookup_imap in Hl as (k & [toks text] & -> & Hrow).
    apply lookup_zip_with_Some in Hrow as (? & ? & [= <- <-] & _ & Htext).
    destruct (block_emitted_spec k toks text) as (_ & Hall & _).
    rewrite Forall_forall in Hall. destruct (Hall dg Hdg) as [_ ->].
    by apply whole_line_on_line.
  - apply (orphan_errors_from_range doc (lines doc) ∅ 0 dg); [|done].
    by intros i line Hline.
  - apply elem_of_concat in Hdg as (l & Hdg & Hl).
    apply elem_of_lookup_imap in Hl as (k & [toks text] & -> & Hrow).
    apply lookup_zip_with_Some in Hrow as (? & ? & [= <- <-] & _ & Htext).
    unfold unmatched_emitted in Hdg. simpl in Hdg.
    apply elem_of_app in Hdg as [Hdg|Hdg]; case_decide;
      try (by apply elem_of_nil in Hdg);
      apply list_elem_of_singleton in Hdg as ->;
      by apply whole_line_on_line.
  - apply elem_of_concat in Hdg as (l & Hdg & Hl).
    apply elem_of_lookup_imap in Hl as (k & toks & -> & Htoks).
    apply line_warnings_elem in Hdg as (idx & t & Ht & _ & ->).
    subst doc. simpl in Htoks. unfold doc_tokens in Htoks.
    rewrite list_lookup_imap in Htoks.
    destruct (split_lines source !! k) as [line|] eqn:Hline; [|done].
    injection Htoks as <-.
    pose proof (tokenize_line_lexed line (Z.of_nat k)) as [Hall _].
    rewrite Forall_lookup in Hall.
    destruct (Hall _ _ Ht) as (i & j & Hij & Hcol & Hend & _).
    exists k, line. simpl. rewrite Hcol, Hend.
    repeat split; try done; lia.
Qed.

(** X17. Every diagnostic of [analyze] lies within one line of the
    document: its range starts and ends on the same existing line, at
    characters [0 <= start <= end <= length of that line]. *)
Theorem diagnostics_lie_within_document (source : str) :
  ∃ doc diags, parse_document source = Some doc
    ∧ analyze doc = Some diags
    ∧ Forall (λ dg, range_on_line doc (diag_range dg)) diags.
Proof.
  exists (parsed source). eexists.
  split; [apply parse_document_eq|].
  split; [apply parsed_analyze|]. apply analyze_ranges.
Qed.

(** ** Lines led by a keyword *)

Lemma blank_isspace ch : is_blank ch = true → isspace ch = true.
Proof.
  unfold is_blank. intros [H|H]%orb_prop; apply eqb_N_true in H; by subst.
Qed.

Lemma ident_part_not_space ch : _is_ident_part ch = true → isspace ch = false.
Proof.
  unfold _is_ident_part, _IDENT_PART, isspace, in_range.
  intros H. apply not_true_iff_false. revert H.
  rewrite !orb_true_iff, !andb_true_iff, !N.leb_le, !N.eqb_eq.
  vm_compute (ord _). lia.
Qed.

Lemma lstrip_spaces (blanks s : str) :
  Forall (λ ch, isspace ch = true) blanks → lstrip (blanks ++ s) = lstrip s.
Proof.
  induction 1 as [|ch blanks Hch _ IH]; [done|]. simpl. by rewrite Hch.
Qed.

Lemma lstrip_head (s : str) ch rest :
  s = ch :: rest → isspace ch = false → lstrip s = s.
Proof. intros -> Hch. simpl. by rewrite Hch. Qed.

Lemma lstrip_keeps_suffix (y : str) ch rest :
  y = ch :: rest → isspace ch = false →
  ∀ x, ∃ z, lstrip (x ++ y) = z ++ y.
Proof.
  intros Hy Hch x. induction x as [|c x IH].
  - exists []. simpl. by apply (lstrip_head _ ch rest).
  - simpl. destruct (isspace c); [done|]. by exists (c :: x).
Qed.

(** Stripping on the right keeps a prefix that ends with a character that
    is not whitespace. *)
Lemma rstrip_keeps_prefix (a b : str) ch :
  last a = Some ch → isspace ch = false → ∃ b', rstrip (a ++ b) = a ++ b'.
Proof.
  intros Hlast Hch. unfold rstrip. rewrite reverse_app.
  apply last_Some in Hlast as [a' ->].
  destruct (lstrip_keeps_suffix (reverse (a' ++ [ch])) ch (reverse a')
              ltac:(by rewrite reverse_snoc) Hch (reverse b)) as [z ->].
  exists (reverse z). by rewrite reverse_app, reverse_involutive.
Qed.

Lemma filter_head_split {A} (f : A → bool) (l : list A) x r :
  List.filter f l = x :: r →
  ∃ pre post, l = pre ++ x :: post ∧ Forall (λ y, f y = false) pre
    ∧ f x = true.
Proof.
  induction l as [|y l IH]; [done|]. simpl.
  destruct (f y) eqn:Hy.
  - intros [= -> _]. by exists [], l.
  - intros (pre & post & -> & Hpre & Hx)%IH.
    exists (y :: pre), post. repeat split; try done. by constructor.
Qed.

(** The tokens before the first significant token of a line are
    whitespace. *)
Lemma first_significant_split text line_no sig0 sig' :
  _significant_tokens (tokenize_line text line_no) = sig0 :: sig' →
  ∃ blanks rest, text = blanks ++ tok_value sig0 ++ rest
    ∧ Forall (λ ch, is_blank ch = true) blanks
    ∧ lexed text line_no sig0.
Proof.
  intros (pre & post & Htoks & Hpre & _)%filter_head_split.
  destruct (tokenize_line_lexed text line_no) as [Hall Htiles].
  destruct (tokenize_line_covers text line_no) as (Hcat & _).
  rewrite drop_0 in Hcat. rewrite Htoks in Hall, Hcat.
  exists (concat (tok_value <$> pre)), (concat (tok_value <$> post)).
  split; [|split].
  - rewrite <- Hcat. rewrite fmap_app, concat_app. simpl. done.
  - apply Forall_concat, Forall_fmap, Forall_lookup.
    intros n t Ht. simpl.
    assert (tokenize_line text line_no !! n = Some t) as Hn
      by (rewrite Htoks; by apply lookup_app_l_Some).
    rewrite Forall_lookup in Hall, Hpre.
    pose proof (Hall n t ltac:(by apply lookup_app_l_Some)) as Hlexed.
    specialize (Hpre n t Ht). unfold is_significant in Hpre.
    apply negb_false_iff, orb_prop in Hpre as [Hw|Hc].
    + apply bool_decide_eq_true in Hw.
      destruct Hlexed as (i & j & _ & _ & _ & _ & -> & Hshape).
      rewrite Hw in Hshape. by destruct Hshape.
    + exfalso. apply bool_decide_eq_true in Hc.
      destruct (lexed_after _ _ _ Hlexed) as (j & Hj & _ & _ & _ & Hend).
      specialize (Hend Hc). subst j.
      pose proof (tiles_last _ _ _ _ _ Htiles Hn Hj) as Hlen.
      apply lookup_lt_Some in Ht. rewrite Htoks, length_app in Hlen.
      simpl in Hlen. lia.
  - rewrite Forall_forall in Hall. apply Hall.
    apply elem_of_app. right. by left.
Qed.

(** The stripped text of a line whose first significant token is a word
    starts with that word. *)
Lemma word_led_strip text line_no sig0 sig' :
  _significant_tokens (tokenize_line text line_no) = sig0 :: sig' →
  is_word_kind (tok_type sig0) →
  ∃ rest, strip text = tok_value sig0 ++ rest.
Proof.
  intros Hsig Hkind.
  destruct (first_significant_split _ _ _ _ Hsig)
    as (blanks & rest & Htext & Hblanks & Hlexed).
  destruct (lexed_word _ _ _ Hlexed Hkind)
    as (_ & Hpart & ch & w & Hval & Hstart & _).
  assert (lstrip text = tok_value sig0 ++ rest) as Hl.
  { rewrite Htext at 1. rewrite lstrip_spaces.
    2:{ eapply Forall_impl; [exact Hblanks|]. apply blank_isspace. }
    apply (lstrip_head _ ch (w ++ rest)); [by rewrite Hval|].
    by apply ident_part_not_space, ident_start_is_part. }
  unfold strip. rewrite Hl.
  assert (∃ c, last (tok_value sig0) = Some c ∧ isspace c = false)
    as (c & Hlast & Hc).
  { rewrite Hval in Hpart |- *.
    destruct (last (ch :: w)) as [c|] eqn:Hlast.
    - exists c. split; [done|]. apply ident_part_not_space.
      rewrite Forall_forall in Hpart. apply Hpart.
      by apply last_Some_elem_of.
    - by apply last_None in Hlast. }
  by apply (rstrip_keeps_prefix _ _ c).
Qed.

Lemma startswith_app_self (a r : str) : startswith (a ++ r) a = true.
Proof.
  unfold startswith. apply bool_decide_eq_true. by rewrite take_app_length.
Qed.

(** No keyword is a prefix of another. *)
Definition prefix_free_b (a b : str) : bool :=
  bool_decide (a = b)
  || (negb (bool_decide (take (length a) b = a))
      && negb (bool_decide (take (length b) a = b))).

Lemma keywords_prefix_free a b :
  a ∈ KEYWORDS → b ∈ KEYWORDS →
  a = b ∨ (take (length a) b ≠ a ∧ take (length b) a ≠ b).
Proof.
  assert (forallb (λ a, forallb (prefix_free_b a) KEYWORDS) KEYWORDS = true)
    as Hall by (vm_compute; reflexivity).
  intros Ha%list_elem_of_In Hb%list_elem_of_In.
  rewrite forallb_forall in Hall. specialize (Hall a Ha).
  rewrite forallb_forall in Hall. specialize (Hall b Hb).
  unfold prefix_free_b in Hall.
  apply orb_prop in Hall as [Heq|Hne].
  - left. by apply bool_decide_eq_true in Heq.
  - right. apply andb_prop in Hne as [H1 H2].
    apply negb_true_iff, bool_decide_eq_false in H1, H2. done.
Qed.

Lemma take_app_prefix (a r b : str) :
  take (length b) (a ++ r) = b →
  take (length b) a = b ∨ take (length a) b = a.
Proof.
  intros Htake. destruct (decide (length b ≤ length a)) as [Hle|Hgt].
  - left. by rewrite take_app_le in Htake.
  - right. rewrite <- Htake.
    rewrite take_take. replace (length a `min` length b) with (length a) by lia.
    by rewrite take_app_length.
Qed.

Lemma startswith_keyword (a b r : str) :
  a ∈ KEYWORDS → b ∈ KEYWORDS →
  startswith (a ++ r) b = bool_decide (a = b).
Proof.
  intros Ha Hb.
  destruct (keywords_prefix_free a b Ha Hb) as [->|[Hab Hba]].
  - rewrite startswith_app_self. symmetry. by apply bool_decide_eq_true.
  - rewrite (bool_decide_eq_false_2 (a = b)).
    2:{ intros ->. apply Hab. by rewrite firstn_all. }
    unfold startswith. apply bool_decide_eq_false.
    intros [?|?]%take_app_prefix; done.
Qed.

Lemma first_keyword_Some toks kw :
  first_keyword toks = Some kw →
  ∃ sig0 sig', _significant_tokens toks = sig0 :: sig'
    ∧ tok_type sig0 = KEYWORD ∧ tok_value sig0 = kw.
Proof.
  unfold first_keyword. destruct (_significant_tokens toks) as [|sig0 sig'];
    [done|].
  case_bool_decide; [|done]. intros [= <-]. by exists sig0, sig'.
Qed.

Lemma classify_word_keyword kw :
  classify_word kw = KEYWORD → kw ∈ KEYWORDS.
Proof.
  unfold classify_word. case_bool_decide as Hin.
  - intros _. unfold KEYWORD_NAMES in Hin.
    by apply elem_of_list_to_set in Hin.
  - repeat case_bool_decide; intros Heq; discriminate Heq.
Qed.

Lemma block_openers_are_keywords b : b ∈ BLOCK_OPENERS → b ∈ KEYWORDS.
Proof.
  unfold BLOCK_OPENERS, KEYWORDS. rewrite !elem_of_cons, !elem_of_nil.
  intros [->|[->|[->|[->|[->|[]]]]]]; tauto.
Qed.

Lemma existsb_bool_decide (f : str → bool) (kw : str) (l : list str) :
  (∀ b, b ∈ l → f b = bool_decide (kw = b)) →
  existsb f l = bool_decide (kw ∈ l).
Proof.
  induction l as [|b l IH]; intros Hf.
  - symmetry. apply bool_decide_eq_false_2. by intros ?%elem_of_nil.
  - cbn [existsb]. rewrite (Hf b) by left.
    rewrite IH by (intros b' Hb'; apply Hf; by right).
    destruct (decide (kw = b)) as [->|Hne].
    + rewrite bool_decide_eq_true_2 by done.
      symmetry. apply bool_decide_eq_true_2. left.
    + rewrite (bool_decide_eq_false_2 (kw = b)) by done. simpl.
      apply bool_decide_ext. rewrite elem_of_cons. tauto.
Qed.

(** X18. The token-based and the text-based checks read a line led by a
    keyword alike.  When the first significant token of a line is a keyword,
    the stripped line starts with that keyword, so the line is a statement
    for the text-based checks; it starts with a block keyword exactly when
    the token is one; and the dangling elif/else check classifies it as an
    if, elif or else exactly when the token is that keyword (and, for if and
    else, the stripped line ends with a colon). *)
Theorem keyword_lines_read_alike (line : str) (line_no : Z) (kw : str) :
  first_keyword (tokenize_line line line_no) = Some kw →
  kw ∈ KEYWORDS
  ∧ startswith (strip line) kw = true
  ∧ is_statement line = true
  ∧ _line_opens_block (strip line) = bool_decide (kw ∈ BLOCK_OPENERS)
  ∧ classify_line line =
      if bool_decide (kw = kw_if) then
        if endswith (strip line) [ch_colon] then IfLine else OtherLine
      else if bool_decide (kw = kw_elif) then ElifLine
      else if bool_decide (kw = kw_else) then
        if endswith (strip line) [ch_colon] then ElseLine else OtherLine
      else OtherLine.
Proof.
  intros (sig0 & sig' & Hsig & Htype & Hval)%first_keyword_Some.
  assert (is_word_kind (tok_type sig0)) as Hkind by (by left).
  destruct (word_led_strip _ _ _ _ Hsig Hkind) as [rest Hstrip].
  destruct (first_significant_split _ _ _ _ Hsig) as (_ & _ & _ & _ & Hlexed).
  destruct (lexed_word _ _ _ Hlexed Hkind)
    as (Hclass & _ & ch & w & Hw & Hstart & _).
  rewrite Hval in Hstrip, Hclass, Hw. clear Hval Hlexed Hsig Hkind.
  assert (kw ∈ KEYWORDS) as Hkw.
  { apply classify_word_keyword. congruence. }
  assert (∀ b, b ∈ KEYWORDS →
            startswith (strip line) b = bool_decide (kw = b)) as Hsw.
  { intros b Hb. rewrite Hstrip. by apply startswith_keyword. }
  assert (bool_decide (strip line = []) = false) as Hempty.
  { apply bool_decide_eq_false. rewrite Hstrip, Hw. intros H.
    discriminate H. }
  assert (startswith (strip line) [ch_hash] = false) as Hhash.
  { unfold startswith. apply bool_decide_eq_false. rewrite Hstrip, Hw.
    intros H. injection H as ->. vm_compute in Hstart. discriminate Hstart. }
  split; [done|]. split; [|split; [|split]].
  - rewrite Hstrip. apply startswith_app_self.
  - unfold is_statement. by rewrite Hempty, Hhash.
  - unfold _line_opens_block. apply existsb_bool_decide.
    intros b Hb. by apply Hsw, block_openers_are_keywords.
  - unfold classify_line. rewrite Hempty, Hhash.
    rewrite (Hsw kw_if), (Hsw kw_elif), (Hsw kw_else)
      by (unfold KEYWORDS; rewrite !elem_of_cons; tauto).
    generalize (endswith (strip line) [ch_colon]). intros e.
    clear -Hkw. unfold KEYWORDS in Hkw.
    rewrite !elem_of_cons, elem_of_nil in Hkw.
    destruct Hkw as [->|[->|[->|[->|[->|[->|[->|[->|[]]]]]]]]];
      destruct e; vm_compute; reflexivity.
Qed.

(** ** Dangling elif and else, read by token *)

Lemma keyword_led_text (line : str) (line_no : Z) (kw : str) :
  first_keyword (tokenize_line line line_no) = Some kw →
  kw ∈ KEYWORDS
  ∧ (∀ b, b ∈ KEYWORDS → startswith (strip line) b = bool_decide (kw = b))
  ∧ bool_decide (strip line = []) = false
  ∧ startswith (strip line) [ch_hash] = false.
Proof.
  intros (sig0 & sig' & Hsig & Htype & Hval)%first_keyword_Some.
  assert (is_word_kind (tok_type sig0)) as Hkind by (by left).
  destruct (word_led_strip _ _ _ _ Hsig Hkind) as [rest Hstrip].
  destruct (first_significant_split _ _ _ _ Hsig) as (_ & _ & _ & _ & Hlexed).
  destruct (lexed_word _ _ _ Hlexed Hkind)
    as (Hclass & _ & ch & w & Hw & Hstart & _).
  rewrite Hval in Hstrip, Hclass, Hw.
  assert (kw ∈ KEYWORDS) as Hkw.
  { apply classify_word_keyword. congruence. }
  split; [done|]. split; [|split].
  - intros b Hb. rewrite Hstrip. by apply startswith_keyword.
  - apply bool_decide_eq_false. rewrite Hstrip, Hw. intros Heq.
    discriminate Heq.
  - unfold startswith. apply bool_decide_eq_false. rewrite Hstrip, Hw.
    intros Heq. injection Heq as ->. vm_compute in Hstart.
    discriminate Hstart.
Qed.

(** The kind of a line led by the keyword [kw]: an if or an else when the
    keyword is that one and the stripped line ends with a colon, an elif when
    the keyword is the elif keyword, another statement otherwise. *)
Definition keyword_class (kw : str) (line : str) : LineClass :=
  if bool_decide (kw = kw_if) then
    if endswith (strip line) [ch_colon] then IfLine else OtherLine
  else if bool_decide (kw = kw_elif) then ElifLine
  else if bool_decide (kw = kw_else) then
    if endswith (strip line) [ch_colon] then ElseLine else OtherLine
  else OtherLine.

(** The kind of a line read by its first significant token, as
    [_check_block_structure] reads a line: a blank line or a comment is
    skipped, a line led by a keyword has the kind of that keyword, and every
    other line is another statement. *)
Definition token_class (toks : list Token) (line : str) : LineClass :=
  if is_statement line then
    match first_keyword toks with
    | Some kw => keyword_class kw line
    | None => OtherLine
    end
  else Skipped.

(** The stripped line starts with the characters of the if, the elif or the
    else keyword. *)
Definition branch_prefix (line : str) : bool :=
  startswith (strip line) kw_if || startswith (strip line) kw_elif
  || startswith (strip line) kw_else.

(** A line of tokens [row.1] and text [row.2] whose first word, when it
    starts with the characters of a branch keyword, is a keyword: the line is
    led by a keyword token, or it is not a statement that starts with those
    characters.  It excludes the lines led by a longer word, such as an
    identifier that goes on after the characters of the keyword. *)
Definition branch_led_by_keyword (row : list Token * str) : bool :=
  match first_keyword row.1 with
  | Some _ => true
  | None => negb (is_statement row.2 && branch_prefix row.2)
  end.

(** The first [k] lines of the document are such lines. *)
Definition branches_led_by_keyword (doc : ParsedDocument) (k : nat) : bool :=
  forallb branch_led_by_keyword (take k (zip (tokens doc) (lines doc))).

(** An if is open at indentation [d] before line [k], the lines being read by
    token: some earlier line is an if at indentation [d], and every line
    between it and [k] that has indentation [d] is skipped, an if or an
    elif. *)
Definition open_if_by_token (doc : ParsedDocument) (d : Z) (k : nat)
    : Prop :=
  ∃ j toks line, j < k
    ∧ tokens doc !! j = Some toks ∧ lines doc !! j = Some line
    ∧ measure_indent line = d ∧ token_class toks line = IfLine
    ∧ ∀ m toks' line', j < m < k →
        tokens doc !! m = Some toks' → lines doc !! m = Some line' →
        measure_indent line' = d → keeps_open (token_class toks' line').

Lemma keyword_led_class (line : str) (line_no : Z) (kw : str) :
  first_keyword (tokenize_line line line_no) = Some kw →
  is_statement line = true ∧ classify_line line = keyword_class kw line.
Proof.
  intros (Hkw & Hsw & Hempty & Hhash)%keyword_led_text.
  unfold is_statement, classify_line, keyword_class.
  rewrite Hempty, Hhash. split; [done|].
  rewrite (Hsw kw_if), (Hsw kw_elif), (Hsw kw_else)
    by (unfold KEYWORDS; rewrite !elem_of_cons; tauto).
  generalize (endswith (strip line) [ch_colon]). intros e.
  clear -Hkw. unfold KEYWORDS in Hkw.
  rewrite !elem_of_cons, elem_of_nil in Hkw.
  destruct Hkw as [->|[->|[->|[->|[->|[->|[->|[->|[]]]]]]]]];
    destruct e; vm_compute; reflexivity.
Qed.

(** On such a line the text and the tokens give the same kind. *)
Lemma class_by_token (line : str) (line_no : Z) :
  branch_led_by_keyword (tokenize_line line line_no, line) = true →
  classify_line line = token_class (tokenize_line line line_no) line.
Proof.
  unfold branch_led_by_keyword, token_class. cbn [fst snd].
  destruct (first_keyword (tokenize_line line line_no)) as [kw|] eqn:Hfirst.
  - intros _. by destruct (keyword_led_class _ _ _ Hfirst) as [-> ->].
  - unfold is_statement, branch_prefix, classify_line.
    destruct (bool_decide (strip line = [])
              || startswith (strip line) [ch_hash]); [done|].
    simpl. intros Hplain. apply negb_true_iff in Hplain.
    apply orb_false_iff in Hplain as [Hplain ->].
    apply orb_false_iff in Hplain as [-> ->]. done.
Qed.

Lemma parsed_row source doc k toks line :
  parse_document source = Some doc →
  tokens doc !! k = Some toks → lines doc !! k = Some line →
  toks = tokenize_line line (Z.of_nat k).
Proof.
  intros [_ Htokens]%parsed_line_indents Htoks Hline.
  rewrite Htokens in Htoks. unfold doc_tokens in Htoks.
  rewrite list_lookup_imap, Hline in Htoks. simpl in Htoks. congruence.
Qed.

Lemma parsed_row_tokens source doc k line :
  parse_document source = Some doc → lines doc !! k = Some line →
  tokens doc !! k = Some (tokenize_line line (Z.of_nat k)).
Proof.
  intros [_ Htokens]%parsed_line_indents Hline.
  rewrite Htokens. unfold doc_tokens.
  by rewrite list_lookup_imap, Hline.
Qed.

Lemma branches_led_lookup doc k j toks line :
  branches_led_by_keyword doc k = true → j < k →
  tokens doc !! j = Some toks → lines doc !! j = Some line →
  branch_led_by_keyword (toks, line) = true.
Proof.
  unfold branches_led_by_keyword. rewrite forallb_forall.
  intros Hall Hj Htoks Hline. apply Hall, list_elem_of_In.
  apply list_elem_of_lookup. exists j.
  apply lookup_take_Some. split; [|done].
  apply lookup_zip_with_Some. by exists toks, line.
Qed.

Lemma branches_led_le doc k k' :
  k ≤ k' → branches_led_by_keyword doc k' = true →
  branches_led_by_keyword doc k = true.
Proof.
  unfold branches_led_by_keyword. rewrite !forallb_forall.
  intros Hle Hall row Hrow. apply Hall.
  apply list_elem_of_In in Hrow. apply list_elem_of_In.
  apply list_elem_of_lookup in Hrow as [j Hrow].
  apply lookup_take_Some in Hrow as [Hrow Hj].
  apply list_elem_of_lookup. exists j.
  apply lookup_take_Some. split; [done|lia].
Qed.

Lemma row_class source doc k j toks line :
  parse_document source = Some doc →
  branches_led_by_keyword doc k = true → j < k →
  tokens doc !! j = Some toks → lines doc !! j = Some line →
  token_class toks line = classify_line line.
Proof.
  intros Hdoc Hled Hj Htoks Hline.
  pose proof (branches_led_lookup _ _ _ _ _ Hled Hj Htoks Hline) as Hrow.
  rewrite (parsed_row _ _ _ _ _ Hdoc Htoks Hline) in Hrow |- *.
  symmetry. by apply class_by_token.
Qed.

(** Where the first [k] lines are such lines, the ifs open before line [k]
    are the same read by text and read by token. *)
Lemma open_if_by_token_text source doc d k :
  parse_document source = Some doc →
  branches_led_by_keyword doc k = true →
  open_if (lines doc) d k ↔ open_if_by_token doc d k.
Proof.
  intros Hdoc Hled. split.
  - intros (j & line & Hj & Hline & Hd & Hif & Hbetween).
    pose proof (parsed_row_tokens _ _ _ _ Hdoc Hline) as Htoks.
    exists j, (tokenize_line line (Z.of_nat j)), line.
    split; [done|]. split; [done|]. split; [done|]. split; [done|]. split.
    + by rewrite (row_class _ _ _ _ _ _ Hdoc Hled Hj Htoks Hline).
    + intros m toks' line' Hm Htoks' Hline' Hd'.
      rewrite (row_class _ _ k m _ _ Hdoc Hled ltac:(lia) Htoks' Hline').
      by apply (Hbetween m).
  - intros (j & toks & line & Hj & Htoks & Hline & Hd & Hif & Hbetween).
    exists j, line.
    split; [done|]. split; [done|]. split; [done|]. split.
    + by rewrite <- (row_class _ _ _ _ _ _ Hdoc Hled Hj Htoks Hline).
    + intros m line' Hm Hline' Hd'.
      pose proof (parsed_row_tokens _ _ _ _ Hdoc Hline') as Htoks'.
      rewrite <- (row_class _ _ k m _ _ Hdoc Hled ltac:(lia) Htoks' Hline').
      by apply (Hbetween m).
Qed.

(** C5 (amended). [_check_orphaned_elif_else] never fails on a parsed
    document and only appends to [diags], nothing for a line past the end;
    its table after the first [k] lines is [orphan_table (lines doc) k], and
    a line changes the entry of its own indentation only.
    A line is read by its first significant token ([token_class]): an if is
    led by the if keyword and ends with a colon, an elif is led by the elif
    keyword, an else is led by the else keyword and ends with a colon; every
    other statement, an else without its colon included, is another
    statement.  The statement covers the lines up to which every word that
    starts with the characters of a branch keyword is that keyword
    ([branches_led_by_keyword]); it says nothing of the lines from the first
    one led by a longer word on.  There,
    - the table holds exactly the indentations with an open if;
    - the check reports exactly one error on an elif and on an else whose
      indentation has no open if, and nothing on any other line;
    - a skipped line leaves the table as it is, an if and an elif with an
      open if set the entry of their indentation to their line, an elif
      without one leaves the table as it is, an else and any other statement
      remove the entry of their indentation;
    - in particular an elif at indentation 0 with no if at indentation 0
      above it gets exactly one error. *)
Theorem orphaned_elif_else_check (source : str) (doc : ParsedDocument)
    (diags : list Diagnostic) :
  parse_document source = Some doc →
  ∃ new,
    _check_orphaned_elif_else doc diags = Some (diags ++ new)
    ∧ (∀ k, length (lines doc) ≤ k → on_line k new = [])
    ∧ (∀ k, k ≤ length (lines doc) →
         ∃ out, orphan_loop doc (∅, diags) 0 (take k (lines doc))
                = Some (orphan_table (lines doc) k, out))
    ∧ (∀ k line d, lines doc !! k = Some line → d ≠ measure_indent line →
         orphan_table (lines doc) (S k) !! d
         = orphan_table (lines doc) k !! d)
    ∧ (∀ k, k ≤ length (lines doc) →
         branches_led_by_keyword doc k = true →
         ∀ d, is_Some (orphan_table (lines doc) k !! d)
              ↔ open_if_by_token doc d k)
    ∧ (∀ k toks line,
         tokens doc !! k = Some toks → lines doc !! k = Some line →
         branches_led_by_keyword doc (S k) = true →
         (token_class toks line = ElifLine →
          ¬ open_if_by_token doc (measure_indent line) k →
          on_line k new = [orphan_elif_error k line])
         ∧ (token_class toks line = ElseLine →
            ¬ open_if_by_token doc (measure_indent line) k →
            on_line k new = [orphan_else_error k line])
         ∧ ((token_class toks line = ElifLine
             ∨ token_class toks line = ElseLine →
             open_if_by_token doc (measure_indent line) k) →
            on_line k new = [])
         ∧ (token_class toks line = Skipped →
            orphan_table (lines doc) (S k) = orphan_table (lines doc) k)
         ∧ (token_class toks line = IfLine →
            orphan_table (lines doc) (S k) !! measure_indent line
            = Some (Z.of_nat k))
         ∧ (token_class toks line = ElifLine →
            open_if_by_token doc (measure_indent line) k →
            orphan_table (lines doc) (S k) !! measure_indent line
            = Some (Z.of_nat k))
         ∧ (token_class toks line = ElifLine →
            ¬ open_if_by_token doc (measure_indent line) k →
            orphan_table (lines doc) (S k) = orphan_table (lines doc) k)
         ∧ (token_class toks line = ElseLine
            ∨ token_class toks line = OtherLine →
            orphan_table (lines doc) (S k) !! measure_indent line = None)
         ∧ (token_class toks line = ElifLine → measure_indent line = 0%Z →
            (∀ j toks' l, j < k →
               tokens doc !! j = Some toks' → lines doc !! j = Some l →
               measure_indent l = 0%Z → token_class toks' l ≠ IfLine) →
            on_line k new = [orphan_elif_error k line])).
Proof.
  intros Hdoc.
  destruct (orphan_check_by_text source doc diags Hdoc)
    as (new & Hcheck & Hlines & Hpast & Htable & Hstep & Hzero).
  exists new. split; [done|]. split; [done|]. split; [|split; [|split]].
  - intros k Hk. by destruct (Htable k Hk) as [Hout _].
  - intros k line d Hline Hd.
    destruct (Hstep k line Hline) as [Hother _]. by apply Hother.
  - intros k Hk Hled d.
    destruct (Htable k Hk) as [_ Hopen]. rewrite Hopen.
    by apply (open_if_by_token_text source).
  - intros k toks line Htoks Hline Hled.
    rewrite (row_class source doc (S k) k toks line Hdoc Hled ltac:(lia)
               Htoks Hline).
    assert (branches_led_by_keyword doc k = true) as Hbefore
      by (apply (branches_led_le doc k (S k)); [lia|done]).
    pose proof (open_if_by_token_text source doc (measure_indent line) k
                  Hdoc Hbefore) as Hopen.
    destruct (Hlines k line Hline) as (Helif & Helse & Hnone).
    destruct (Hstep k line Hline)
      as (_ & Hskip & Hif & Hrefresh & Hkeep & Hclose).
    split; [intros Hc Hclosed; apply Helif; [done|by rewrite Hopen]|].
    split; [intros Hc Hclosed; apply Helse; [done|by rewrite Hopen]|].
    split; [intros Hc; apply Hnone; intros Hcase; apply Hopen; by apply Hc|].
    split; [done|]. split; [done|].
    split; [intros Hc Hop; apply Hrefresh; [done|by apply Hopen]|].
    split; [intros Hc Hclosed; apply Hkeep; [done|by rewrite Hopen]|].
    split; [done|].
    intros Hc Hindent Habove. apply (Hzero k line Hline Hc Hindent).
    intros j l Hj Hl Hl0.
    pose proof (parsed_row_tokens _ _ _ _ Hdoc Hl) as Htoks'.
    rewrite <- (row_class source doc k j _ l Hdoc Hbefore Hj Htoks' Hl).
    by apply (Habove j _ l).
Qed.

(** A line led by a longer word: an identifier that starts with the
    characters of the elif keyword. *)
Definition longer_word_document : list N :=
  Eval vm_compute in u "अथवा_यदिक = 1".

(** Such a line is outside the statement above.  Read by token the line of
    [longer_word_document] is another statement, led by an identifier; read
    by its text it is an elif, and the check reports it. *)
Lemma longer_word_read_by_text :
  first_keyword (tokenize_line longer_word_document 0) = None
  ∧ branches_led_by_keyword (parsed longer_word_document) 1 = false
  ∧ token_class (tokenize_line longer_word_document 0) longer_word_document
    = OtherLine
  ∧ classify_line longer_word_document = ElifLine
  ∧ _check_orphaned_elif_else (parsed longer_word_document) []
    = Some [orphan_elif_error 0 longer_word_document].
Proof. repeat split; vm_compute; reflexivity. Qed.

(** * Queries at a position *)

(** ** The token under the cursor *)

Definition spans (t : Token) (character : Z) : Prop :=
  (tok_col t ≤ character < tok_end_col t)%Z.

Lemma token_at_Some toks character t :
  token_at toks character = Some t →
  t ∈ toks ∧ spans t character ∧ tok_type t ≠ WHITESPACE.
Proof.
  induction toks as [|t0 toks IH]; [done|]. simpl.
  destruct ((tok_col t0 <=? character)%Z && (character <? tok_end_col t0)%Z)
    eqn:Hin.
  - case_bool_decide as Hws.
    + intros [= <-]. split; [left|]. split; [|done].
      apply andb_prop in Hin as [?%Z.leb_le ?%Z.ltb_lt]. done.
    + intros (? & ? & ?)%IH. split; [by right|done].
  - intros (? & ? & ?)%IH. split; [by right|done].
Qed.

Lemma token_at_unique toks character t :
  (∀ i j a b, toks !! i = Some a → toks !! j = Some b →
     spans a character → spans b character → i = j) →
  t ∈ toks → spans t character → tok_type t ≠ WHITESPACE →
  token_at toks character = Some t.
Proof.
  induction toks as [|t0 toks IH]; intros Huniq Hin Hspan Hws.
  { by apply elem_of_nil in Hin. }
  assert (∀ i j a b, toks !! i = Some a → toks !! j = Some b →
            spans a character → spans b character → i = j) as Huniq'.
  { intros i j a b Ha Hb Hsa Hsb.
    pose proof (Huniq (S i) (S j) a b Ha Hb Hsa Hsb). lia. }
  assert (spans t0 character → t = t0) as Hsame.
  { intros Hs0. apply elem_of_cons in Hin as [->|Hin]; [done|].
    apply list_elem_of_lookup in Hin as [j Hj].
    pose proof (Huniq 0 (S j) t0 t eq_refl Hj Hs0 Hspan). lia. }
  simpl.
  destruct ((tok_col t0 <=? character)%Z && (character <? tok_end_col t0)%Z)
    eqn:Hin0.
  - apply andb_prop in Hin0 as [?%Z.leb_le ?%Z.ltb_lt].
    rewrite <- Hsame by done.
    by rewrite bool_decide_eq_true_2.
  - apply IH; try done.
    apply elem_of_cons in Hin as [->|Hin]; [|done].
    destruct Hspan as [?%Z.leb_le ?%Z.ltb_lt]. simpl in *.
    by rewrite andb_false_iff in Hin0; destruct Hin0; congruence.
Qed.

(** At most one token of a line spans a given character. *)
Lemma tokenize_line_spans_unique text line_no character i j a b :
  tokenize_line text line_no !! i = Some a →
  tokenize_line text line_no !! j = Some b →
  spans a character → spans b character → i = j.
Proof.
  intros Ha Hb Hsa Hsb.
  destruct (tokenize_line_covers text line_no) as (_ & Hcont & Hline & _).
  pose proof (contiguous_from_sorted _ _ _ Hcont Hline) as Hsorted.
  rewrite Forall_lookup in Hline.
  pose proof (Hline _ _ Ha) as Hla. pose proof (Hline _ _ Hb) as Hlb.
  unfold spans in *.
  destruct (lt_eq_lt_dec i j) as [[Hlt|Heq]|Hgt]; [|done|].
  - destruct (StronglySorted_lookup _ _ Hsorted i j a b Hlt Ha Hb)
      as [?|[_ ?]]; lia.
  - destruct (StronglySorted_lookup _ _ Hsorted j i b a Hgt Hb Ha)
      as [?|[_ ?]]; lia.
Qed.

Lemma py_index_nat {A} (l : list A) (k : nat) :
  py_index l (Z.of_nat k) = l !! k.
Proof.
  unfold py_index. rewrite (proj2 (Z.leb_le _ _)) by lia.
  by rewrite Nat2Z.id.
Qed.

Lemma py_index_Some {A} (l : list A) i x :
  py_index l i = Some x → ∃ k, l !! k = Some x.
Proof.
  unfold py_index. destruct (0 <=? i)%Z; [by eexists|].
  destruct (_ <=? _)%Z; [by eexists|done].
Qed.

Lemma parsed_tokens_row source k toks :
  tokens (parsed source) !! k = Some toks →
  ∃ line, lines (parsed source) !! k = Some line
    ∧ toks = tokenize_line line (Z.of_nat k).
Proof.
  simpl. unfold doc_tokens. rewrite list_lookup_imap.
  destruct (split_lines source !! k) as [line|]; [|done].
  intros [= <-]. by exists line.
Qed.

Lemma parsed_token_at source k toks character t :
  tokens (parsed source) !! k = Some toks →
  token_at toks character = Some t ↔
  t ∈ toks ∧ spans t character ∧ tok_type t ≠ WHITESPACE.
Proof.
  intros (line & _ & ->)%parsed_tokens_row. split.
  - apply token_at_Some.
  - intros (Hin & Hspan & Hws). apply token_at_unique; try done.
    intros i j a b. apply tokenize_line_spans_unique.
Qed.

(** X19. On a parsed document, for a line of the document,
    [_token_at_position] returns the one token of that line whose columns
    [[col, end_col)] hold the character of the position, unless that token
    is whitespace; it returns nothing when no token spans the character, when
    the token is whitespace, and for a line past the end of the document. *)
Theorem token_at_position_is_the_spanning_token (source : str) :
  ∃ doc, parse_document source = Some doc
    ∧ (∀ line character,
         (Z.of_nat (length (lines doc)) ≤ line)%Z →
         _token_at_position doc (mkPosition line character) = Some None)
    ∧ (∀ k toks character,
         tokens doc !! k = Some toks →
         ∃ r, _token_at_position doc (mkPosition (Z.of_nat k) character)
              = Some r
           ∧ ∀ t, r = Some t ↔
               (t ∈ toks ∧ spans t character ∧ tok_type t ≠ WHITESPACE)).
Proof.
  exists (parsed source). split; [apply parse_document_eq|].
  destruct (parsed_lengths source) as [Hlen _]. split.
  - intros line character Hline. unfold _token_at_position.
    cbn [pos_line]. rewrite Hlen.
    by rewrite (proj2 (Z.leb_le _ _)) by lia.
  - intros k toks character Htoks.
    exists (token_at toks character). split.
    + unfold _token_at_position. cbn [pos_line pos_character].
      pose proof (lookup_lt_Some _ _ _ Htoks) as Hk.
      rewrite (proj2 (Z.leb_gt _ _)) by lia.
      by rewrite py_index_nat, Htoks.
    + intros t. by apply (parsed_token_at source k).
Qed.

(** ** The scope of a position *)

(** Line [line] lies in the extent of [f], after its header. *)
Definition in_body (f : FuncDef) (line : Z) : Prop :=
  (fd_line f < line ≤ fd_end_line f)%Z.

Lemma in_body_b f line :
  (fd_line f <? line)%Z && (line <=? fd_end_line f)%Z = true ↔ in_body f line.
Proof.
  unfold in_body. rewrite andb_true_iff, Z.ltb_lt, Z.leb_le. tauto.
Qed.

Lemma current_scope_found items line name f :
  (name, f) ∈ items → in_body f line →
  (∀ name' f', (name', f') ∈ items → in_body f' line → name' = name) →
  _current_scope items line = name.
Proof.
  induction items as [|[n0 f0] items IH]; intros Hin Hbody Huniq.
  { by apply elem_of_nil in Hin. }
  simpl.
  destruct ((fd_line f0 <? line)%Z && (line <=? fd_end_line f0)%Z) eqn:H0.
  - apply in_body_b in H0. apply (Huniq n0 f0); [left|done].
  - apply IH; [|done|].
    + apply elem_of_cons in Hin as [[= -> ->]|Hin]; [|done].
      apply in_body_b in Hbody. congruence.
    + intros name' f' Hin'. apply Huniq. by right.
Qed.

Lemma current_scope_global items line :
  (∀ name f, (name, f) ∈ items → ¬ in_body f line) →
  _current_scope items line = scope_global.
Proof.
  induction items as [|[n0 f0] items IH]; intros Hnone; [done|].
  simpl.
  destruct ((fd_line f0 <? line)%Z && (line <=? fd_end_line f0)%Z) eqn:H0.
  - apply in_body_b in H0. destruct (Hnone n0 f0); [left|done].
  - apply IH. intros name f Hin. apply (Hnone name). by right.
Qed.

Lemma items_lookup (m : gmap str FuncDef) items name f :
  items ≡ₚ map_to_list m → (name, f) ∈ items ↔ m !! name = Some f.
Proof. intros ->. apply elem_of_map_to_list. Qed.

(** On a parsed document, the function whose body holds the line. *)
Lemma parsed_current_scope source items line :
  items ≡ₚ map_to_list (functions (parsed source)) →
  (∀ name f, functions (parsed source) !! name = Some f →
     in_body f line → _current_scope items line = name)
  ∧ ((∀ name f, functions (parsed source) !! name = Some f →
        ¬ in_body f line) →
     _current_scope items line = scope_global).
Proof.
  intros Hitems. split.
  - intros name f Hf Hbody.
    apply (current_scope_found _ _ name f); [by apply (items_lookup _ _ _ _ Hitems)|done|].
    intros name' f' Hf' Hbody'.
    apply (items_lookup _ _ _ _ Hitems) in Hf'.
    destruct (decide (name' = name)) as [|Hne]; [done|]. exfalso.
    destruct (parsed_extents_ordered source name' name f' f Hf' Hf Hne)
      as [Hlines H12].
    destruct (parsed_extents_ordered source name name' f f' Hf Hf'
                ltac:(congruence)) as [_ H21].
    unfold in_body in *. lia.
  - intros Hnone. apply current_scope_global.
    intros name f Hin. apply (Hnone name).
    by apply (items_lookup _ _ _ _ Hitems).
Qed.

(** X20. On a parsed document [_current_scope] does not depend on the order
    in which the function table is iterated: it returns the name of the one
    function of the table whose lines [(line, end_line]] hold the given
    line, and [global] when there is none. *)
Theorem current_scope_is_the_enclosing_function (source : str) :
  ∃ doc, parse_document source = Some doc ∧
    ∀ items line, items ≡ₚ map_to_list (functions doc) →
      (∀ name f, functions doc !! name = Some f →
         in_body f line → _current_scope items line = name)
      ∧ ((∀ name f, functions doc !! name = Some f → ¬ in_body f line) →
         _current_scope items line = scope_global).
Proof.
  exists (parsed source). split; [apply parse_document_eq|].
  intros items line. apply parsed_current_scope.
Qed.

(** ** The scope of the parser and the scope of the queries *)

Lemma encloses_unique rows L L' k :
  encloses rows L k → encloses rows L' k → L = L'.
Proof.
  assert (∀ a b, a < b → encloses rows a k → encloses rows b k → False)
    as Hlt.
  { intros a b Hab (_ & _ & _ & _ & _ & Hnone) (row & Hrow & Hbk & Hreg & _).
    pose proof (Hnone b row ltac:(lia) Hrow). congruence. }
  intros H1 H2.
  destruct (lt_eq_lt_dec L L') as [[Hcmp|Hcmp]|Hcmp]; [|done|].
  - exfalso. by apply (Hlt L L').
  - exfalso. by apply (Hlt L' L).
Qed.

Lemma final_extent_encloses rows f k :
  final_extent rows f → in_body f (Z.of_nat k) →
  ∃ L, fd_line f = Z.of_nat L ∧ encloses rows L k.
Proof.
  intros (L & d & E & Hhead & HE & Hrange & Hdeep & Hnone & _) Hbody.
  pose proof (header_of_line _ _ _ _ Hhead) as HL.
  unfold in_body in Hbody. rewrite HL, HE in Hbody.
  exists L. split; [done|].
  destruct Hhead as (row & Hrow & Hd & Hreg & _).
  exists row. split; [done|]. split; [lia|]. split; [done|]. rewrite Hd.
  split.
  - apply (deeper_between_mono rows L d (S E)); [lia|done].
  - apply (no_header_between_mono rows L E); [lia|done].
Qed.

Lemma encloses_in_body rows f L k :
  final_extent rows f → fd_line f = Z.of_nat L → k < length rows →
  encloses rows L k → in_body f (Z.of_nat k).
Proof.
  intros (L' & d & E & Hhead & HE & Hrange & _ & _ & Hcause) HL Hk Henc.
  pose proof (header_of_line _ _ _ _ Hhead) as HL'.
  assert (L' = L) as -> by lia.
  destruct Henc as (row & Hrow & HLk & _ & Hdeep & Hnone).
  unfold in_body. rewrite HL, HE. split; [lia|].
  destruct (decide (k ≤ E)) as [|Hgt]; [lia|]. exfalso.
  destruct Hhead as (row' & Hrow' & Hd & _).
  assert (row' = row) as -> by congruence.
  destruct Hcause as [Hend|[(r & Hr & Hsig & Hle)|(HLE & r & Hr & Hreg)]].
  - lia.
  - pose proof (Hdeep (S E) r ltac:(lia) Hr Hsig). lia.
  - pose proof (Hnone E r ltac:(lia) Hr). congruence.
Qed.

Lemma parsed_final_extent source name f :
  functions (parsed source) !! name = Some f →
  final_extent (doc_rows (split_lines source)) f.
Proof.
  intros Hf.
  by destruct (parsed_function_extent source _ name f
                 (parse_document_eq source) Hf).
Qed.

(** X21. The scope the queries compute agrees with the scope of the parser,
    unless the function was defined again further down.  For a line [k] of
    a parsed document: if no header encloses the line, the scope is
    [global]; if the header on line [L] encloses it, the scope is the name
    of that function when the table entry of that name was made from line
    [L], and [global] when the entry was made from a later header of the
    same name. *)
Theorem current_scope_agrees_with_parser (source : str) :
  ∃ doc, parse_document source = Some doc ∧
    let rows := zip (tokens doc) (line_indents doc) in
    ∀ items k,
      items ≡ₚ map_to_list (functions doc) → k < length (lines doc) →
      ((∀ L, ¬ encloses rows L k) →
       _current_scope items (Z.of_nat k) = scope_global)
      ∧ (∀ L h, encloses rows L k → header_at rows L = Some h →
           ∃ f, functions doc !! fd_name h = Some f
             ∧ _current_scope items (Z.of_nat k) =
                 if bool_decide (fd_line f = Z.of_nat L) then fd_name h
                 else scope_global).
Proof.
  exists (parsed source). split; [apply parse_document_eq|].
  cbv zeta. cbn [tokens line_indents lines parsed].
  fold (doc_rows (split_lines source)).
  set (rows := doc_rows (split_lines source)).
  intros items k Hitems Hk.
  destruct (parsed_current_scope source items (Z.of_nat k) Hitems)
    as [Hfound Hglobal].
  assert (length rows = length (split_lines source)) as Hlen
    by apply length_doc_rows.
  split.
  - intros Hnone. apply Hglobal. intros name f Hf Hbody.
    destruct (final_extent_encloses rows f k
                (parsed_final_extent _ _ _ Hf) Hbody) as (L & _ & Henc).
    by apply (Hnone L).
  - intros L h Henc Hh.
    pose proof (final_table_inv rows (fd_name h)) as Hinv.
    destruct (functions (parsed source) !! fd_name h) as [f|] eqn:Hf.
    2:{ exfalso. revert Hf. simpl. rewrite lookup_omap.
        unfold final_state. rewrite close_at_end_functions. fold rows.
        destruct (ps_functions _ !! fd_name h) as [r|].
        - destruct Hinv as (f' & _ & _ & Hf' & _). simpl.
          rewrite <- Hlen. by rewrite Hf'.
        - exfalso. apply (Hinv L h); [|done..].
          by apply header_at_range in Hh. }
    exists f. split; [done|].
    pose proof (parsed_final_extent _ _ _ Hf) as Hext. fold rows in Hext.
    case_bool_decide as HL.
    + apply (Hfound _ f Hf).
      apply (encloses_in_body rows f L k); try done. lia.
    + apply Hglobal. intros name g Hg Hbody.
      pose proof (parsed_final_extent _ _ _ Hg) as Hextg. fold rows in Hextg.
      destruct (final_extent_encloses rows g k Hextg Hbody)
        as (L' & HL' & Henc').
      assert (L' = L) as -> by (by apply (encloses_unique rows _ _ k)).
      destruct Hextg as (L'' & d & E & Hhead & _).
      pose proof (header_of_line _ _ _ _ Hhead) as HL''.
      assert (L'' = L) as -> by lia.
      destruct Hhead as (row & Hrow & _ & _ & Hparse).
      apply header_at_Some in Hh as (row' & Hrow' & _ & Hparse').
      assert (row' = row) as -> by congruence.
      apply _parse_func_header_Some in Hparse
        as (_ & _ & _ & t & Ht & _ & Hn & _).
      apply _parse_func_header_Some in Hparse'
        as (_ & _ & _ & t' & Ht' & _ & Hn' & _).
      simpl in Hn.
      assert (fd_name g = fd_name h) as Hname by congruence.
      pose proof (parsed_function_name _ _ _ Hg) as Hkey.
      assert (g = f) as -> by congruence.
      done.
Qed.

(** ** Go to definition *)

Lemma find_variable_scope_eq items line :
  find_variable_scope items line = _current_scope items line.
Proof.
  induction items as [|[fname fdef] items IH]; [done|]. simpl.
  by rewrite IH.
Qed.

(** X22. Hover and go-to-definition resolve a variable alike: for every
    document, when the token under the cursor is an identifier or a builtin
    name that is not a function of the table, [provide_definition] returns
    the location of the variable [_find_variable] finds for the text of the
    token at the line of the cursor, and nothing when it finds none. *)
Theorem definition_resolves_as_hover (doc : ParsedDocument)
    (items : list (str * FuncDef)) (pos : Position) (uri : str)
    (token : Token) :
  _token_at_position doc pos = Some (Some token) →
  tok_type token = IDENTIFIER ∨ tok_type token = BUILTIN →
  functions doc !! tok_value token = None →
  provide_definition doc items pos uri =
    Some ((λ vdef, mkLocation uri
             (name_range (vd_line vdef) (vd_col vdef) (vd_name vdef)))
          <$> _find_variable doc items (tok_value token) (pos_line pos)).
Proof.
  intros Htoken Htype Hfun. unfold provide_definition, _find_variable.
  rewrite Htoken. cbn [mbind option_bind]. rewrite Hfun.
  replace (find_variable_scope items (pos_line pos))
    with (_current_scope items (pos_line pos))
    by (symmetry; apply find_variable_scope_eq).
  assert (bool_decide (tok_type token = IDENTIFIER)
          || bool_decide (tok_type token = BUILTIN) = true) as ->.
  { destruct Htype as [H|H]; rewrite H; by vm_compute. }
  cbn [negb]. cbv zeta.
  destruct (if bool_decide _ then _ else _) as [v|]; [done|].
  by destruct (variables doc !! tok_value token).
Qed.

Lemma word_token_colon_free text line_no t :
  t ∈ tokenize_line text line_no → is_word_kind (tok_type t) →
  ch_colon ∉ tok_value t.
Proof.
  intros Hin Hkind.
  destruct (tokenize_line_lexed text line_no) as [Hall _].
  rewrite Forall_forall in Hall.
  destruct (lexed_word _ _ _ (Hall t Hin) Hkind) as (_ & Hpart & _).
  rewrite Forall_forall in Hpart. intros Hcolon.
  by apply (ident_part_not_colon _ (Hpart _ Hcolon)).
Qed.

Lemma identifier_at_token source name line col :
  identifier_at (parsed source) name line col →
  ∃ text k t, lines (parsed source) !! k = Some text ∧ line = Z.of_nat k
    ∧ t ∈ tokenize_line text (Z.of_nat k)
    ∧ tok_type t = IDENTIFIER ∧ tok_value t = name ∧ tok_col t = col
    ∧ (0 ≤ col)%Z ∧ (col + Z.of_nat (length name) ≤ Z.of_nat (length text))%Z.
Proof.
  intros (toks & t & Hline & Htoks & Hin & Hid & Hval & Hcol & Hend).
  destruct (parsed_tokens_row _ _ _ Htoks) as (text & Htext & ->).
  exists text, (Z.to_nat line), t.
  split; [done|]. split; [by rewrite Z2Nat.id|].
  repeat split; try done.
  - destruct (tokenize_line_lexed text (Z.of_nat (Z.to_nat line)))
      as [Hall _].
    rewrite Forall_forall in Hall.
    destruct (Hall t Hin) as (i & j & _ & Hi & _). lia.
  - destruct (tokenize_line_lexed text (Z.of_nat (Z.to_nat line)))
      as [Hall _].
    rewrite Forall_forall in Hall.
    destruct (Hall t Hin) as (i & j & Hij & _ & Hj & _). lia.
Qed.

Lemma identifier_at_colon_free source name line col :
  identifier_at (parsed source) name line col → ch_colon ∉ name.
Proof.
  intros (text & k & t & _ & _ & Hin & Hid & <- & _)%identifier_at_token.
  apply (word_token_colon_free _ _ _ Hin). unfold is_word_kind. tauto.
Qed.

(** A variable found under the key of a scope and a name has that name. *)
Lemma parsed_variable_name source s x v :
  variables (parsed source) !! var_key s x = Some v →
  colon_free_scope s → ch_colon ∉ x → vd_name v = x.
Proof.
  intros Hv Hs Hx.
  rewrite (parsed_variables source _ (parse_document_eq source)) in Hv.
  pose proof (parsed_registrations_colon_free source _
                (parse_document_eq source)) as Hfree.
  destruct (head _) as [r|] eqn:Hhead; [|done]. injection Hv as <-.
  apply head_Some_elem_of, list_elem_of_filter in Hhead as [Hkey Hr].
  rewrite Forall_forall in Hfree. destruct (Hfree r Hr) as [Hrn Hrs].
  unfold reg_key in Hkey.
  by apply var_key_inj in Hkey as [_ Hname].
Qed.

Lemma current_scope_cases items line :
  _current_scope items line = scope_global
  ∨ ∃ f, (_current_scope items line, f) ∈ items.
Proof.
  induction items as [|[fname fdef] items IH]; [by left|]. simpl.
  destruct (_ && _).
  - right. exists fdef. left.
  - destruct IH as [?|[f ?]]; [by left|]. right. exists f. by right.
Qed.

(** What [provide_definition] returns on a parsed document. *)
Lemma parsed_definition_target source items pos uri loc :
  items ≡ₚ map_to_list (functions (parsed source)) →
  provide_definition (parsed source) items pos uri = Some (Some loc) →
  ∃ token line col,
    _token_at_position (parsed source) pos = Some (Some token)
    ∧ (tok_type token = IDENTIFIER ∨ tok_type token = BUILTIN)
    ∧ loc = mkLocation uri (name_range line col (tok_value token))
    ∧ identifier_at (parsed source) (tok_value token) line col.
Proof.
  intros Hitems Hdef. unfold provide_definition in Hdef.
  destruct (_token_at_position (parsed source) pos) as [[token|]|] eqn:Htok;
    [|done..].
  cbn [mbind option_bind] in Hdef.
  destruct (negb _) eqn:Hneg; [done|].
  assert (tok_type token = IDENTIFIER ∨ tok_type token = BUILTIN) as Hty.
  { apply negb_false_iff, orb_prop in Hneg as [H|H];
      apply bool_decide_eq_true in H; tauto. }
  assert (ch_colon ∉ tok_value token) as Hcolon.
  { unfold _token_at_position in Htok.
    destruct (_ <=? _)%Z; [done|].
    destruct (py_index _ _) as [toks|] eqn:Htoks; [|done].
    simpl in Htok. injection Htok as Htok.
    apply token_at_Some in Htok as (Hin & _).
    apply py_index_Some in Htoks as [k Hk].
    destruct (parsed_tokens_row _ _ _ Hk) as (text & _ & ->).
    apply (word_token_colon_free _ _ _ Hin). unfold is_word_kind. tauto. }
  exists token.
  destruct (functions (parsed source) !! tok_value token) as [f|] eqn:Hf.
  { injection Hdef as <-. exists (fd_line f), (fd_col f).
    rewrite (parsed_function_name _ _ _ Hf).
    repeat split; try done. by apply parsed_function_token. }
  cbv zeta in Hdef.
  set (cs := _current_scope items (pos_line pos)) in Hdef.
  destruct (if bool_decide (cs ≠ scope_global)
            then variables (parsed source)
                   !! (cs ++ [ch_colon] ++ tok_value token)
            else None) as [v|] eqn:Hlocal.
  - injection Hdef as <-. exists (vd_line v), (vd_col v).
    case_bool_decide as Hcs; [|done].
    destruct (current_scope_cases items (pos_line pos)) as [?|[f Hin]];
      [done|].
    apply (items_lookup _ _ _ _ Hitems) in Hin. fold cs in Hin.
    pose proof (identifier_at_colon_free _ _ _ _
                  (parsed_function_token _ _ _ Hin)) as Hcsfree.
    pose proof (parsed_variable_name source (InFunction cs)
                  (tok_value token) v Hlocal Hcsfree Hcolon) as Hname.
    rewrite <- Hname. repeat split; try done.
    by apply (parsed_variable_token _ _ _ Hlocal).
  - destruct (variables (parsed source) !! tok_value token) as [v|] eqn:Hv;
      [|done].
    injection Hdef as <-. exists (vd_line v), (vd_col v).
    pose proof (parsed_variable_name source Global (tok_value token) v
                  Hv I Hcolon) as Hname.
    rewrite <- Hname. repeat split; try done.
    by apply (parsed_variable_token _ _ _ Hv).
Qed.

(** X23. On a parsed document, every location [provide_definition] returns
    is the range of an identifier token of the document whose text is the
    text of the token under the cursor: the declaration of a function, a
    parameter or an assignment target of that name. *)
Theorem definition_points_at_same_name (source : str) :
  ∃ doc, parse_document source = Some doc ∧
    ∀ items pos uri loc,
      items ≡ₚ map_to_list (functions doc) →
      provide_definition doc items pos uri = Some (Some loc) →
      ∃ token line col,
        _token_at_position doc pos = Some (Some token)
        ∧ loc = mkLocation uri (name_range line col (tok_value token))
        ∧ identifier_at doc (tok_value token) line col.
Proof.
  exists (parsed source). split; [apply parse_document_eq|].
  intros items pos uri loc Hitems Hloc.
  destruct (parsed_definition_target _ _ _ _ _ Hitems Hloc)
    as (token & line & col & Htok & _ & Hl & Hat).
  by exists token, line, col.
Qed.

(** X24. On a parsed document, go-to-definition never resolves a builtin
    name: no function, parameter or variable of the tables bears the name of
    a builtin, so for a builtin token under the cursor [provide_definition]
    returns nothing. *)
Theorem definition_of_builtin_is_none (source : str) :
  ∃ doc, parse_document source = Some doc ∧
    ∀ items pos uri token,
      items ≡ₚ map_to_list (functions doc) →
      _token_at_position doc pos = Some (Some token) →
      tok_type token = BUILTIN →
      provide_definition doc items pos uri = Some None.
Proof.
  exists (parsed source). split; [apply parse_document_eq|].
  intros items pos uri token Hitems Htok Hbuiltin.
  destruct (provide_definition (parsed source) items pos uri)
    as [[loc|]|] eqn:Hdef; [|done|].
  - exfalso.
    destruct (parsed_definition_target _ _ _ _ _ Hitems Hdef)
      as (token' & line & col & Htok' & _ & _ & Hat).
    assert (token' = token) as -> by congruence.
    apply identifier_at_token in Hat
      as (text & k & t & _ & _ & Hin & Hid & Hval & _).
    unfold _token_at_position in Htok.
    destruct (_ <=? _)%Z; [done|].
    destruct (py_index _ _) as [toks|] eqn:Htoks; [|done].
    simpl in Htok. injection Htok as Htok.
    apply token_at_Some in Htok as (Hin' & _).
    apply py_index_Some in Htoks as [k' Hk'].
    destruct (parsed_tokens_row _ _ _ Hk') as (text' & _ & ->).
    pose proof (tokens_from_kind text (Z.of_nat k) (length text) 0) as Hk1.
    pose proof (tokens_from_kind text' (Z.of_nat k') (length text') 0) as Hk2.
    rewrite <- tokenize_line_tokens_from in Hk1, Hk2.
    rewrite Forall_forall in Hk1, Hk2.
    pose proof (Hk1 _ Hin) as H1. pose proof (Hk2 _ Hin') as H2.
    rewrite Hval, <- H2, Hid, Hbuiltin in H1. discriminate H1.
  - exfalso. unfold provide_definition in Hdef. rewrite Htok in Hdef.
    cbn [mbind option_bind] in Hdef.
    destruct (negb _); [done|].
    destruct (functions _ !! _); [done|]. cbv zeta in Hdef.
    by destruct (match (if bool_decide _ then _ else _) with
                 | Some _ => _ | None => _ end).
Qed.

(** ** The word before the cursor *)

Lemma _is_ident_char_part ch : _is_ident_char ch = _is_ident_part ch.
Proof.
  unfold _is_ident_char, _is_ident_part, _IDENT_PART, in_range.
  apply eq_true_iff_eq.
  rewrite !orb_true_iff, !andb_true_iff, !N.leb_le, !N.eqb_eq.
  vm_compute (ord _). lia.
Qed.

Lemma word_start_spec line : ∀ col,
  col ≤ length line →
  ∃ start, word_start line col = Some start ∧ start ≤ col
    ∧ Forall (λ ch, _is_ident_char ch = true) (slice line start col)
    ∧ ∀ s ch, start = S s → line !! s = Some ch → _is_ident_char ch = false.
Proof.
  induction col as [|col IH]; intros Hcol.
  - exists 0. repeat split; try done; unfold slice; simpl; constructor.
  - destruct (lookup_lt_is_Some_2 line col ltac:(lia)) as [ch Hch].
    cbn [word_start]. rewrite Hch. cbn [mbind option_bind].
    destruct (_is_ident_char ch) eqn:Hident.
    + destruct (IH ltac:(lia)) as (start & Hstart & Hle & Hall & Hmax).
      exists start. split; [done|]. split; [lia|]. split; [|done].
      assert (line !! (S col - 1) = Some ch) as Hch'
        by (by replace (S col - 1) with col by lia).
      rewrite (slice_snoc line start (S col) ch Hch' ltac:(lia)).
      apply Forall_app. split; [|by repeat constructor].
      by replace (S col - 1) with col by lia.
    + exists (S col). split; [done|]. split; [lia|]. split.
      * unfold slice. rewrite Nat.sub_diag. constructor.
      * intros s ch' [= <-] Hch'. congruence.
Qed.

(** X25. [_word_at_cursor] returns the longest run of identifier characters
    that ends at the cursor: the slice of the line from some [start] to the
    column of the cursor (cut at the end of the line), made of identifier
    characters, with no identifier character just before [start].  Its
    identifier characters are the ones the tokenizer accepts inside a word.
    It never fails on a line of the document, and it is empty past the end
    of the document. *)
Theorem word_at_cursor_is_longest_run (doc : ParsedDocument) :
  (∀ ch, _is_ident_char ch = _is_ident_part ch)
  ∧ (∀ line character,
       (Z.of_nat (length (lines doc)) ≤ line)%Z →
       _word_at_cursor doc (mkPosition line character) = Some [])
  ∧ (∀ k line character,
       lines doc !! k = Some line →
       ∃ start col,
         col = Z.to_nat (Z.min character (Z.of_nat (length line)))
         ∧ _word_at_cursor doc (mkPosition (Z.of_nat k) character)
           = Some (slice line start col)
         ∧ start ≤ col
         ∧ Forall (λ ch, _is_ident_char ch = true) (slice line start col)
         ∧ ∀ s ch, start = S s → line !! s = Some ch →
             _is_ident_char ch = false).
Proof.
  split; [apply _is_ident_char_part|]. split.
  - intros line character Hline. unfold _word_at_cursor. cbn [pos_line].
    by rewrite (proj2 (Z.leb_le _ _)) by lia.
  - intros k line character Hline.
    unfold _word_at_cursor. cbn [pos_line pos_character].
    pose proof (lookup_lt_Some _ _ _ Hline) as Hk.
    rewrite (proj2 (Z.leb_gt _ _)) by lia.
    rewrite py_index_nat, Hline. cbn [mbind option_bind].
    unfold word_before.
    set (col := Z.min character (Z.of_nat (length line))).
    destruct (col <=? 0)%Z eqn:Hcol.
    + apply Z.leb_le in Hcol. exists 0, 0.
      replace (Z.to_nat col) with 0 by lia.
      repeat split; try done; unfold slice; simpl; constructor.
    + apply Z.leb_gt in Hcol.
      destruct (word_start_spec line (Z.to_nat col) ltac:(lia))
        as (start & Hstart & Hle & Hall & Hmax).
      exists start, (Z.to_nat col). rewrite Hstart.
      by repeat split.
Qed.

(** ** Document symbols *)

(** Positions in document order, and a range within another. *)
Definition pos_le (p q : Position) : Prop :=
  (pos_line p < pos_line q)%Z
  ∨ (pos_line p = pos_line q ∧ (pos_character p ≤ pos_character q)%Z).

Definition range_within (inner outer : Range) : Prop :=
  pos_le (range_start outer) (range_start inner)
  ∧ pos_le (range_end inner) (range_end outer).

(** What the outline guarantees of a symbol. *)
Definition well_placed (doc : ParsedDocument) (sym : DocumentSymbol) : Prop :=
  range_within (sym_selection_range sym) (sym_range sym)
  ∧ ∃ line col,
      sym_selection_range sym = name_range line col (sym_name sym)
      ∧ identifier_at doc (sym_name sym) line col.

Lemma range_within_refl r :
  pos_le (range_start r) (range_end r) → range_within r r.
Proof. intros Hle. split; right; split; done || lia. Qed.

Lemma parsed_function_symbol source fname fdef :
  functions (parsed source) !! fname = Some fdef →
  ∃ sym, function_symbol (parsed source) (fname, fdef) = Some sym
    ∧ sym_name sym = fname ∧ sym_kind sym = SymbolKindFunction
    ∧ well_placed (parsed source) sym.
Proof.
  intros Hf.
  pose proof (parsed_function_token source fname fdef Hf) as Hat.
  destruct (parsed_function_extent source (parsed source) fname fdef
              (parse_document_eq source) Hf)
    as [(L & d & E & Hhead & HE & Hrange & _) Hlen].
  pose proof (header_of_line _ _ _ _ Hhead) as HL.
  destruct (identifier_at_token _ _ _ _ Hat)
    as (text & k & t & Htext & Hk & _ & _ & _ & _ & Hcol & Hend).
  assert (k = L) as -> by lia.
  rewrite Hlen in Hrange.
  destruct (lookup_lt_is_Some_2 (lines (parsed source)) E ltac:(lia)) as [last_line HlineE].
  unfold function_symbol.
  rewrite (proj2 (Z.ltb_lt _ _)) by lia.
  rewrite HE, py_index_nat, HlineE. cbn [fmap option_fmap option_map mbind option_bind].
  eexists. split; [done|]. cbn [sym_name sym_kind].
  split; [done|]. split; [done|]. split.
  - unfold range_within, pos_le, name_range. simpl. split.
    + right. split; [done|lia].
    + destruct (decide (L = E)) as [<-|Hne].
      * right. split; [lia|].
        assert (last_line = text) as -> by congruence. lia.
      * left. lia.
  - exists (fd_line fdef), (fd_col fdef). by split.
Qed.

Lemma function_symbols_placed source items : ∀ symbols,
  (∀ fname fdef, (fname, fdef) ∈ items →
     functions (parsed source) !! fname = Some fdef) →
  ∃ new, function_symbols (parsed source) items symbols = Some (symbols ++ new)
    ∧ sym_name <$> new = items.*1
    ∧ Forall (λ sym, sym_kind sym = SymbolKindFunction
                ∧ well_placed (parsed source) sym) new.
Proof.
  induction items as [|[fname fdef] items IH]; intros symbols Hitems.
  { exists []. by rewrite app_nil_r. }
  destruct (parsed_function_symbol source fname fdef
              ltac:(apply Hitems; left))
    as (sym & Hsym & Hname & Hkind & Hplaced).
  cbn [function_symbols]. rewrite Hsym. cbn [mbind option_bind].
  destruct (IH (symbols ++ [sym])) as (new & -> & Hnames & Hall).
  { intros n f Hin. apply Hitems. by right. }
  exists (sym :: new). split; [by rewrite <- app_assoc|].
  split; [rewrite fmap_cons, Hname, Hnames; done|]. by constructor.
Qed.

Lemma variable_symbols_placed source items : ∀ symbols,
  (∀ key vdef, (key, vdef) ∈ items →
     variables (parsed source) !! key = Some vdef) →
  ∃ new, fold_left variable_symbol items symbols = symbols ++ new
    ∧ Forall (λ sym, sym_kind sym = SymbolKindVariable
                ∧ well_placed (parsed source) sym) new.
Proof.
  induction items as [|[key vdef] items IH]; intros symbols Hitems.
  { exists []. by rewrite app_nil_r. }
  cbn [fold_left]. unfold variable_symbol at 2.
  assert (∀ k v, (k, v) ∈ items →
            variables (parsed source) !! k = Some v) as Hrest.
  { intros k v Hin. apply Hitems. by right. }
  case_bool_decide as Hscope; [by apply IH|].
  destruct (IH (symbols ++ [mkDocumentSymbol (vd_name vdef)
                              SymbolKindVariable
                              (name_range (vd_line vdef) (vd_col vdef)
                                 (vd_name vdef))
                              (name_range (vd_line vdef) (vd_col vdef)
                                 (vd_name vdef)) None]) Hrest)
    as (new & -> & Hall).
  eexists (_ :: new). split; [by rewrite <- app_assoc|].
  constructor; [|done]. split; [done|]. split.
  - apply range_within_refl. right. simpl. split; [done|lia].
  - exists (vd_line vdef), (vd_col vdef). split; [done|].
    apply (parsed_variable_token source key). apply Hitems. left.
Qed.

(** X26. On a parsed document [provide_document_symbols] never fails,
    whatever the order of iteration of the two tables.  It lists one
    function symbol per function of the table, in the order of iteration,
    followed by variable symbols; for every symbol the selection range lies
    within the range, and the selection range is the range of an identifier
    token of the document whose text is the name of the symbol. *)
Theorem document_symbols_are_well_placed (source : str) :
  ∃ doc, parse_document source = Some doc ∧
    ∀ fitems vitems,
      fitems ≡ₚ map_to_list (functions doc) →
      vitems ≡ₚ map_to_list (variables doc) →
      ∃ fsyms vsyms,
        provide_document_symbols doc fitems vitems = Some (fsyms ++ vsyms)
        ∧ sym_name <$> fsyms = fitems.*1
        ∧ Forall (λ sym, sym_kind sym = SymbolKindFunction) fsyms
        ∧ Forall (λ sym, sym_kind sym = SymbolKindVariable) vsyms
        ∧ Forall (well_placed doc) (fsyms ++ vsyms).
Proof.
  exists (parsed source). split; [apply parse_document_eq|].
  intros fitems vitems Hf Hv.
  destruct (function_symbols_placed source fitems [])
    as (fsyms & Hfs & Hnames & Hfall).
  { intros fname fdef Hin. by apply (items_lookup _ _ _ _ Hf). }
  destruct (variable_symbols_placed source vitems ([] ++ fsyms))
    as (vsyms & Hvs & Hvall).
  { intros key vdef Hin. rewrite Hv in Hin.
    by apply elem_of_map_to_list in Hin. }
  exists fsyms, vsyms. unfold provide_document_symbols.
  rewrite Hfs. cbn [mbind option_bind]. rewrite Hvs.
  split; [done|]. split; [done|].
  split; [eapply Forall_impl; [exact Hfall|]; by intros ? [? _]|].
  split; [eapply Forall_impl; [exact Hvall|]; by intros ? [? _]|].
  apply Forall_app. split.
  - eapply Forall_impl; [exact Hfall|]. by intros ? [_ ?].
  - eapply Forall_impl; [exact Hvall|]. by intros ? [_ ?].
Qed.

(** ** The document cache *)

(** The text of a document after a notification: opened or changed to a new
    text, closed, or left as it was. *)
Definition text_after (texts : gmap str str) (n : Notification)
    : gmap str str :=
  match n with
  | DidOpen uri text => <[uri := text]> texts
  | DidChange uri content_changes =>
    match last content_changes with
    | Some text => <[uri := text]> texts
    | None => texts
    end
  | DidClose uri => delete uri texts
  end.

(** The cache holds, for every open document, the parse of its text. *)
Definition coherent (_doc_cache : gmap str ParsedDocument)
    (texts : gmap str str) : Prop :=
  ∀ uri, get_parsed _doc_cache uri = texts !! uri ≫= parse_document.

(** What a notification publishes: the analysis of the parse of the new
    text, or no diagnostic for a closed document. *)
Definition publishes (n : Notification) : list Published :=
  match n with
  | DidOpen uri text =>
    [mkPublished uri (default [] (analyze (parsed text)))]
  | DidChange uri content_changes =>
    match last content_changes with
    | Some text => [mkPublished uri (default [] (analyze (parsed text)))]
    | None => []
    end
  | DidClose uri => [mkPublished uri []]
  end.

Lemma _reparse_total _doc_cache uri text :
  _reparse _doc_cache uri text =
    Some (<[uri := parsed text]> _doc_cache,
          [mkPublished uri (default [] (analyze (parsed text)))]).
Proof.
  unfold _reparse. rewrite parse_document_eq. cbn [mbind option_bind].
  by rewrite parsed_analyze.
Qed.

Lemma coherent_insert _doc_cache texts uri text :
  coherent _doc_cache texts →
  coherent (<[uri := parsed text]> _doc_cache) (<[uri := text]> texts).
Proof.
  intros Hco uri'. unfold get_parsed.
  destruct (decide (uri = uri')) as [->|Hne].
  - rewrite !lookup_insert_eq. simpl. by rewrite parse_document_eq.
  - rewrite !lookup_insert_ne by done. apply Hco.
Qed.

Lemma handle_coherent _doc_cache texts n :
  coherent _doc_cache texts →
  ∃ _doc_cache',
    handle _doc_cache n = Some (_doc_cache', publishes n)
    ∧ coherent _doc_cache' (text_after texts n).
Proof.
  intros Hco. destruct n as [uri text|uri content_changes|uri]; simpl.
  - rewrite _reparse_total. eexists. split; [done|].
    by apply coherent_insert.
  - destruct (last content_changes) as [text|].
    + rewrite _reparse_total. eexists. split; [done|].
      by apply coherent_insert.
    + by exists _doc_cache.
  - eexists. split; [done|]. intros uri'. unfold get_parsed.
    destruct (decide (uri = uri')) as [->|Hne].
    + by rewrite !lookup_delete_eq.
    + rewrite !lookup_delete_ne by done. apply Hco.
Qed.

Lemma session_coherent ns : ∀ _doc_cache texts published,
  coherent _doc_cache texts →
  ∃ _doc_cache',
    session _doc_cache published ns
      = Some (_doc_cache', published ++ concat (publishes <$> ns))
    ∧ coherent _doc_cache' (fold_left text_after ns texts).
Proof.
  induction ns as [|n ns IH]; intros _doc_cache texts published Hco.
  - exists _doc_cache. simpl. by rewrite app_nil_r.
  - destruct (handle_coherent _doc_cache texts n Hco)
      as (cache' & Hhandle & Hco').
    cbn [session]. rewrite Hhandle. cbn [mbind option_bind].
    destruct (IH cache' (text_after texts n) (published ++ publishes n) Hco')
      as (cache'' & Hsession & Hco'').
    exists cache''. split; [|done].
    rewrite Hsession. simpl. by rewrite <- app_assoc.
Qed.

(** X27. The cache of the server is coherent with the texts it was sent.
    Starting from the empty cache, a session of [didOpen], [didChange] and
    [didClose] notifications never fails; afterwards [get_parsed] returns,
    for every uri, the parse of the last text opened or changed for it
    (the last content change of a [didChange]), and nothing for a document
    that was closed or never opened; and each notification published the
    analysis of that parse, or an empty list for [didClose]. *)
Theorem document_cache_is_coherent (ns : list Notification) :
  ∃ _doc_cache,
    session ∅ [] ns = Some (_doc_cache, concat (publishes <$> ns))
    ∧ (∀ uri, get_parsed _doc_cache uri
              = fold_left text_after ns ∅ !! uri ≫= parse_document)
    ∧ Forall (λ n,
         match n with
         | DidOpen uri text =>
           ∃ doc diags, parse_document text = Some doc
             ∧ analyze doc = Some diags
             ∧ publishes n = [mkPublished uri diags]
         | DidChange uri content_changes =>
           match last content_changes with
           | Some text =>
             ∃ doc diags, parse_document text = Some doc
               ∧ analyze doc = Some diags
               ∧ publishes n = [mkPublished uri diags]
           | None => publishes n = []
           end
         | DidClose uri => publishes n = [mkPublished uri []]
         end) ns.
Proof.
  destruct (session_coherent ns ∅ ∅ [])
    as (cache & Hsession & Hco).
  { intros uri. unfold get_parsed. by rewrite !lookup_empty. }
  exists cache. split; [done|]. split; [done|].
  apply Forall_forall. intros n _.
  destruct n as [uri text|uri content_changes|uri]; simpl; [| |done].
  - exists (parsed text). eexists. split; [apply parse_document_eq|].
    split; [apply parsed_analyze|]. by rewrite parsed_analyze.
  - destruct (last content_changes) as [text|]; [|done].
    exists (parsed text). eexists. split; [apply parse_document_eq|].
    split; [apply parsed_analyze|]. by rewrite parsed_analyze.
Qed.

(** ** Worked examples *)

Definition blank_doc : ParsedDocument := parsed blank_line_document.
Definition blank_fn : FuncDef :=
  mkFuncDef [102%N] 0 8 2 [mkParamInfo [97%N] 0 10] 4.
Definition short_doc : ParsedDocument := parsed short_assignment_document.
Definition lone_elif_document : list N := Eval vm_compute in u "अथवा_यदि x:".
Definition elif_doc : ParsedDocument := parsed lone_elif_document.
Definition call_doc : ParsedDocument := parsed unterminated_call_line.
Definition gap_doc : ParsedDocument := parsed gap_document.

(** The function of [blank_line_document] lies within the document. *)
Lemma function_extent_within_document_witness :
  parse_document blank_line_document = Some blank_doc
  ∧ functions blank_doc !! [102%N] = Some blank_fn
  ∧ ((fd_line blank_fn ≤ fd_end_line blank_fn ≤ Z.of_nat (length (lines blank_doc)) - 1)%Z).
Proof.
  assert (parse_document blank_line_document = Some blank_doc) as H1
    by (vm_compute; reflexivity).
  assert (functions blank_doc !! [102%N] = Some blank_fn) as H2
    by (vm_compute; reflexivity).
  exact (conj H1 (conj H2 (function_extent_within_document blank_line_document blank_doc [102%N] blank_fn
           H1 H2))).
Defined.

(** The extent of the function of [blank_line_document]. *)
Lemma function_body_end_witness :
  parse_document blank_line_document = Some blank_doc
  ∧ functions blank_doc !! [102%N] = Some blank_fn
  ∧ (∃ L d E,
    header_of (zip (tokens blank_doc) (line_indents blank_doc)) blank_fn L d
    ∧ fd_line blank_fn = Z.of_nat L ∧ fd_end_line blank_fn = Z.of_nat E
    ∧ L ≤ E < length (lines blank_doc)
    ∧ deeper_between (zip (tokens blank_doc) (line_indents blank_doc)) L d (S E)
    ∧ no_header_between (zip (tokens blank_doc) (line_indents blank_doc)) L E
    ∧ (S E = length (lines blank_doc)
       ∨ closing_cause (zip (tokens blank_doc) (line_indents blank_doc)) L d E)
    ∧ ∀ E', L ≤ E' < length (lines blank_doc) →
        deeper_between (zip (tokens blank_doc) (line_indents blank_doc)) L d (S E') →
        no_header_between (zip (tokens blank_doc) (line_indents blank_doc)) L E' →
        S E' = length (lines blank_doc)
        ∨ closing_cause (zip (tokens blank_doc) (line_indents blank_doc)) L d E' →
        E' = E).
Proof.
  assert (parse_document blank_line_document = Some blank_doc) as H1
    by (vm_compute; reflexivity).
  assert (functions blank_doc !! [102%N] = Some blank_fn) as H2
    by (vm_compute; reflexivity).
  exact (conj H1 (conj H2 (function_body_end blank_line_document blank_doc [102%N] blank_fn
           H1 H2))).
Defined.

(** The variable table of [short_assignment_document]. *)
Lemma variable_table_first_registration_witness :
  parse_document short_assignment_document = Some short_doc
  ∧ (let regs := registrations (zip (tokens short_doc) (line_indents short_doc)) in
  (∀ key v, variables short_doc !! key = Some v →
     ∃ r, r ∈ regs ∧ key = reg_key r ∧ v = reg_def r)
  ∧ (∀ r, r ∈ regs →
       reg_colon_free r
       ∧ registration_origin (zip (tokens short_doc) (line_indents short_doc)) r)
  ∧ (∀ s x s' x', colon_free_scope s → ch_colon ∉ x →
       colon_free_scope s' → ch_colon ∉ x' →
       var_key s x = var_key s' x' → s = s' ∧ x = x')
  ∧ (∀ s x, colon_free_scope s → ch_colon ∉ x →
       variables short_doc !! var_key s x =
         reg_def <$> head (filter (λ r, reg_scope r = s ∧ reg_name r = x)
                             regs))).
Proof.
  assert (parse_document short_assignment_document = Some short_doc) as H1
    by (vm_compute; reflexivity).
  exact (conj H1 (variable_table_first_registration short_assignment_document short_doc
           H1)).
Defined.

(** The check on the line [x = f(1, 2]. *)
Lemma unmatched_delimiters_check_witness :
  parse_document unterminated_call_line = Some call_doc
  ∧ ((∃ new,
     _check_unmatched_parens call_doc [] = Some ([] ++ new)
     ∧ (∀ k toks text,
          tokens call_doc !! k = Some toks → lines call_doc !! k = Some text →
          on_line k new =
            (if decide (count_type PAREN_OPEN toks
                        ≠ count_type PAREN_CLOSE toks)
             then [unmatched_parens_error k text] else [])
            ++ (if decide (count_type BRACKET_OPEN toks
                           ≠ count_type BRACKET_CLOSE toks)
                then [unmatched_brackets_error k text] else []))
     ∧ (∀ k, length (lines call_doc) ≤ k → on_line k new = []))
  ∧ (∃ doc',
       parse_document unterminated_call_line = Some doc'
       ∧ _check_unmatched_parens doc' [] =
           Some [unmatched_parens_error 0 unterminated_call_line])).
Proof.
  assert (parse_document unterminated_call_line = Some call_doc) as H1
    by (vm_compute; reflexivity).
  exact (conj H1 (unmatched_delimiters_check unterminated_call_line call_doc []
           H1)).
Defined.


(** The encoding of [gap_document]. *)
Lemma semantic_tokens_delta_encoding_witness :
  parse_document gap_document = Some gap_doc
  ∧ ((∀ B, emitted_tokens gap_doc !! 0 = Some B →
     take 2 (provide_semantic_tokens gap_doc) = [tok_line B; tok_col B])
  ∧ (∀ n A B,
       emitted_tokens gap_doc !! n = Some A →
       emitted_tokens gap_doc !! S n = Some B →
       (tok_line A ≤ tok_line B)%Z
       ∧ (tok_line A = tok_line B →
          take 2 (drop (5 * S n) (provide_semantic_tokens gap_doc))
          = [0%Z; (tok_col B - tok_col A)%Z]
          ∧ (tok_col B - tok_col A
             = Z.of_nat (length (tok_value A))
               + (tok_col B - tok_end_col A))%Z
          ∧ (0 ≤ tok_col B - tok_end_col A)%Z)
       ∧ ((tok_line A < tok_line B)%Z →
          take 2 (drop (5 * S n) (provide_semantic_tokens gap_doc))
          = [(tok_line B - tok_line A)%Z; tok_col B]))).
Proof.
  assert (parse_document gap_document = Some gap_doc) as H1
    by (vm_compute; reflexivity).
  exact (conj H1 (semantic_tokens_delta_encoding gap_document gap_doc
           H1)).
Defined.

(** ** Worked examples of the further properties *)

(** The identifier [x] has the same kind on a line of its own and on line 1
    of another text. *)
Lemma token_kind_determined_by_text_witness :
  mkToken IDENTIFIER [120%N] 0 0 1 ∈ tokenize_line [120%N] 0
  ∧ mkToken IDENTIFIER [120%N] 1 0 1 ∈ tokenize_line gap_document 1
  ∧ tok_value (mkToken IDENTIFIER [120%N] 0 0 1)
    = tok_value (mkToken IDENTIFIER [120%N] 1 0 1)
  ∧ tok_type (mkToken IDENTIFIER [120%N] 0 0 1)
    = tok_type (mkToken IDENTIFIER [120%N] 1 0 1).
Proof.
  assert (mkToken IDENTIFIER [120%N] 0 0 1 ∈ tokenize_line [120%N] 0) as H1
    by (vm_compute; constructor).
  assert (mkToken IDENTIFIER [120%N] 1 0 1 ∈ tokenize_line gap_document 1)
    as H2 by (vm_compute; constructor).
  assert (tok_value (mkToken IDENTIFIER [120%N] 0 0 1)
          = tok_value (mkToken IDENTIFIER [120%N] 1 0 1)) as H3
    by reflexivity.
  exact (conj H1 (conj H2 (conj H3
           (token_kind_determined_by_text [120%N] gap_document 0 1
              (mkToken IDENTIFIER [120%N] 0 0 1)
              (mkToken IDENTIFIER [120%N] 1 0 1) H1 H2 H3)))).
Defined.

(** The line of [lone_elif_document] is led by the elif keyword. *)
Lemma keyword_lines_read_alike_witness :
  first_keyword (tokenize_line lone_elif_document 0) = Some kw_elif
  ∧ (kw_elif ∈ KEYWORDS
     ∧ startswith (strip lone_elif_document) kw_elif = true
     ∧ is_statement lone_elif_document = true
     ∧ _line_opens_block (strip lone_elif_document)
       = bool_decide (kw_elif ∈ BLOCK_OPENERS)
     ∧ classify_line lone_elif_document =
         if bool_decide (kw_elif = kw_if) then
           if endswith (strip lone_elif_document) [ch_colon]
           then IfLine else OtherLine
         else if bool_decide (kw_elif = kw_elif) then ElifLine
         else if bool_decide (kw_elif = kw_else) then
           if endswith (strip lone_elif_document) [ch_colon]
           then ElseLine else OtherLine
         else OtherLine).
Proof.
  assert (first_keyword (tokenize_line lone_elif_document 0) = Some kw_elif)
    as H1 by (vm_compute; reflexivity).
  exact (conj H1 (keyword_lines_read_alike lone_elif_document 0 kw_elif H1)).
Defined.

(** Go to definition on the [x] of line 1 of [short_assignment_document]. *)
Lemma definition_resolves_as_hover_witness :
  _token_at_position short_doc (mkPosition 1 0)
    = Some (Some (mkToken IDENTIFIER [120%N] 1 0 1))
  ∧ (tok_type (mkToken IDENTIFIER [120%N] 1 0 1) = IDENTIFIER
     ∨ tok_type (mkToken IDENTIFIER [120%N] 1 0 1) = BUILTIN)
  ∧ functions short_doc !! tok_value (mkToken IDENTIFIER [120%N] 1 0 1)
    = None
  ∧ provide_definition short_doc [] (mkPosition 1 0) [] =
      Some ((λ vdef, mkLocation []
               (name_range (vd_line vdef) (vd_col vdef) (vd_name vdef)))
            <$> _find_variable short_doc []
                  (tok_value (mkToken IDENTIFIER [120%N] 1 0 1))
                  (pos_line (mkPosition 1 0))).
Proof.
  assert (_token_at_position short_doc (mkPosition 1 0)
          = Some (Some (mkToken IDENTIFIER [120%N] 1 0 1))) as H1
    by (vm_compute; reflexivity).
  assert (tok_type (mkToken IDENTIFIER [120%N] 1 0 1) = IDENTIFIER
          ∨ tok_type (mkToken IDENTIFIER [120%N] 1 0 1) = BUILTIN) as H2
    by (left; reflexivity).
  assert (functions short_doc !! tok_value (mkToken IDENTIFIER [120%N] 1 0 1)
          = None) as H3 by (vm_compute; reflexivity).
  exact (conj H1 (conj H2 (conj H3
           (definition_resolves_as_hover short_doc [] (mkPosition 1 0) []
              (mkToken IDENTIFIER [120%N] 1 0 1) H1 H2 H3)))).
Defined.

(** The check on a document made of one elif line, which is led by the elif
    keyword. *)
Lemma orphaned_elif_else_check_witness :
  parse_document lone_elif_document = Some elif_doc
  ∧ branches_led_by_keyword elif_doc 1 = true
  ∧ (∃ new,
      _check_orphaned_elif_else elif_doc [] = Some ([] ++ new)
      ∧ (∀ k, length (lines elif_doc) ≤ k → on_line k new = [])
      ∧ (∀ k, k ≤ length (lines elif_doc) →
           ∃ out, orphan_loop elif_doc (∅, []) 0 (take k (lines elif_doc))
                  = Some (orphan_table (lines elif_doc) k, out))
      ∧ (∀ k line d, lines elif_doc !! k = Some line → d ≠ measure_indent line →
           orphan_table (lines elif_doc) (S k) !! d
           = orphan_table (lines elif_doc) k !! d)
      ∧ (∀ k, k ≤ length (lines elif_doc) →
           branches_led_by_keyword elif_doc k = true →
           ∀ d, is_Some (orphan_table (lines elif_doc) k !! d)
                ↔ open_if_by_token elif_doc d k)
      ∧ (∀ k toks line,
           tokens elif_doc !! k = Some toks → lines elif_doc !! k = Some line →
           branches_led_by_keyword elif_doc (S k) = true →
           (token_class toks line = ElifLine →
            ¬ open_if_by_token elif_doc (measure_indent line) k →
            on_line k new = [orphan_elif_error k line])
           ∧ (token_class toks line = ElseLine →
              ¬ open_if_by_token elif_doc (measure_indent line) k →
              on_line k new = [orphan_else_error k line])
           ∧ ((token_class toks line = ElifLine
               ∨ token_class toks line = ElseLine →
               open_if_by_token elif_doc (measure_indent line) k) →
              on_line k new = [])
           ∧ (token_class toks line = Skipped →
              orphan_table (lines elif_doc) (S k) = orphan_table (lines elif_doc) k)
           ∧ (token_class toks line = IfLine →
              orphan_table (lines elif_doc) (S k) !! measure_indent line
              = Some (Z.of_nat k))
           ∧ (token_class toks line = ElifLine →
              open_if_by_token elif_doc (measure_indent line) k →
              orphan_table (lines elif_doc) (S k) !! measure_indent line
              = Some (Z.of_nat k))
           ∧ (token_class toks line = ElifLine →
              ¬ open_if_by_token elif_doc (measure_indent line) k →
              orphan_table (lines elif_doc) (S k) = orphan_table (lines elif_doc) k)
           ∧ (token_class toks line = ElseLine
              ∨ token_class toks line = OtherLine →
              orphan_table (lines elif_doc) (S k) !! measure_indent line = None)
           ∧ (token_class toks line = ElifLine → measure_indent line = 0%Z →
              (∀ j toks' l, j < k →
                 tokens elif_doc !! j = Some toks' → lines elif_doc !! j = Some l →
                 measure_indent l = 0%Z → token_class toks' l ≠ IfLine) →
              on_line k new = [orphan_elif_error k line]))).
Proof.
  assert (parse_document lone_elif_document = Some elif_doc) as H1
    by (vm_compute; reflexivity).
  assert (branches_led_by_keyword elif_doc 1 = true) as H2
    by (vm_compute; reflexivity).
  exact (conj H1 (conj H2
           (orphaned_elif_else_check lone_elif_document elif_doc [] H1))).
Defined.
